(** * STK simulation engine: dependency graph and evaluation orchestrator

    A shallow embedding of [task1_solution/stk_simulation.py] and the
    properties its specification states about it.

    Modelling conventions.
    - A Python [set] that the code iterates over ([DependencyGraph.nodes],
      the values of [DependencyGraph.edges]) is a duplicate-free list that
      gives the order in which the interpreter enumerates it.  The results
      about the graph are stated for every such list, hence for whatever
      order the interpreter picks.  Sets that are only tested for
      membership ([visited], [rec_stack], [cycle_set]) are [gset]s.
    - A Python [dict] whose order is observable ([blocks], [attributes],
      [scenario_overrides], [value_history]) is an association list in
      insertion order; a dict that is only looked up and compared
      ([context], [calculated_values], [in_degree]) is a [gmap].
    - [None] is the [None] of an [option]; a raised exception is the
      [Raises] of [try].
    - Attribute ids are ASCII strings. *)

From Stdlib Require Import QArith Qround Qabs.
From stdpp Require Import gmap strings list sets relations.

#[local] Set Warnings "-clear-no-such-hyp".

Local Open Scope Z_scope.
Local Open Scope string_scope.
Local Open Scope list_scope.

(** ** Python containers *)

(** [s.add(x)] on a set enumerated as the list [s]. *)
Definition set_add (x : string) (s : list string) : list string :=
  if decide (x ∈ s) then s else s ++ [x].

(** [l.index(x)]: position of the first occurrence, [None] when the call
    raises [ValueError]. *)
Fixpoint index (x : string) (l : list string) : option nat :=
  match l with
  | [] => None
  | y :: l' => if decide (y = x) then Some 0%nat else S <$> index x l'
  end.

(** A [for] loop whose body may fail to return. *)
Fixpoint for_each {A S : Type} (body : A → S → option S) (l : list A) (s : S)
  : option S :=
  match l with
  | [] => Some s
  | x :: l' => match body x s with
               | Some s' => for_each body l' s'
               | None => None
               end
  end.

(** ** DependencyGraph *)

Record DependencyGraph := mkGraph {
  nodes : list string;
  edges : gmap string (list string);
  reverse_edges : gmap string (list string)
}.

Definition empty_graph : DependencyGraph := mkGraph [] ∅ ∅.

(** [self.edges[u]] on a [defaultdict(set)]: the empty set for a missing
    key.  (The entry the defaultdict creates on such a read holds the empty
    set and changes no later read.) *)
Definition successors (g : DependencyGraph) (u : string) : list string :=
  edges g !!! u.

Definition add_node (g : DependencyGraph) (n : string) : DependencyGraph :=
  mkGraph (set_add n (nodes g)) (edges g) (reverse_edges g).

Definition add_dependency (g : DependencyGraph) (dependent dependency : string)
  : DependencyGraph :=
  mkGraph (set_add dependency (set_add dependent (nodes g)))
          (<[dependency := set_add dependent (edges g !!! dependency)]> (edges g))
          (<[dependent := set_add dependency (reverse_edges g !!! dependent)]>
             (reverse_edges g)).

(** *** find_cycles *)

Record dfs_state := mkDfs {
  visited : gset string;
  rec_stack : gset string;
  cycles : list (list string)
}.

(** The nested function [dfs(node, path)].  The recursion of the source is
    not structural; [fuel] bounds its depth, and [None] stands for a call
    that does not return (no fuel left, or [path.index] raising). *)
Fixpoint dfs (g : DependencyGraph) (fuel : nat) (node : string)
    (path : list string) (st : dfs_state) : option dfs_state :=
  match fuel with
  | O => None
  | S fuel' =>
    if decide (node ∈ rec_stack st) then
      cycle_start ← index node path;
      Some (mkDfs (visited st) (rec_stack st)
                  (cycles st ++ [drop cycle_start path ++ [node]]))
    else if decide (node ∈ visited st) then Some st
    else
      let path := path ++ [node] in
      st' ← for_each (λ neighbor s, dfs g fuel' neighbor path s)
                     (successors g node)
                     (mkDfs (visited st ∪ {[node]}) (rec_stack st ∪ {[node]})
                            (cycles st));
      Some (mkDfs (visited st') (rec_stack st' ∖ {[node]}) (cycles st'))
  end.

(** Every node the search can meet: the nodes and the targets of the edges. *)
Definition universe (g : DependencyGraph) : list string :=
  nodes g ++ mjoin (snd <$> map_to_list (edges g)).

Definition dfs_fuel (g : DependencyGraph) : nat := S (length (universe g)).

(** The loop [for node in self.nodes: if node not in visited: dfs(node, [])]. *)
Definition find_cycles_loop (g : DependencyGraph) (fuel : nat)
  : option dfs_state :=
  for_each (λ node st, if decide (node ∈ visited st) then Some st
                       else dfs g fuel node [] st)
           (nodes g) (mkDfs ∅ ∅ []).

(** *** Termination of the search *)

Lemma index_is_Some (x : string) (l : list string) :
  x ∈ l → is_Some (index x l).
Proof.
  induction l as [|y l IH]; intros Hin; [by apply elem_of_nil in Hin|].
  simpl. case_decide; [by eexists|].
  apply elem_of_cons in Hin as [->|Hin]; [done|].
  destruct (IH Hin) as [i ->]. by eexists.
Qed.

Lemma index_split (x : string) (l : list string) (i : nat) :
  index x l = Some i → ∃ l1 l2, l = l1 ++ x :: l2 ∧ drop i l = x :: l2.
Proof.
  revert i. induction l as [|y l IH]; intros i; simpl; [done|].
  case_decide as Hy.
  - intros [= <-]. subst y. by exists [], l.
  - destruct (index x l) as [j|] eqn:Hj; simpl; [|done].
    intros [= <-]. destruct (IH j eq_refl) as (l1 & l2 & -> & Hd).
    by exists (y :: l1), l2.
Qed.

Lemma for_each_invariant {A S : Type} (P : S → Prop) (body : A → S → option S)
    (l : list A) (s s' : S) :
  P s →
  (∀ x t t', x ∈ l → P t → body x t = Some t' → P t') →
  for_each body l s = Some s' → P s'.
Proof.
  revert s. induction l as [|x l IH]; intros s Hs Hbody; simpl.
  - by intros [= <-].
  - destruct (body x s) as [t|] eqn:Hx; [|done].
    apply IH.
    + eapply Hbody; [left| |]; done.
    + intros y u u' Hy. apply Hbody. by right.
Qed.

Lemma for_each_is_Some {A S : Type} (P : S → Prop) (body : A → S → option S)
    (l : list A) (s : S) :
  P s →
  (∀ x t, x ∈ l → P t → ∃ t', body x t = Some t' ∧ P t') →
  is_Some (for_each body l s).
Proof.
  revert s. induction l as [|x l IH]; intros s Hs Hbody; simpl; [by eexists|].
  destruct (Hbody x s) as (t & -> & Ht); [left|done|].
  apply IH; [done|]. intros y u Hy. apply Hbody. by right.
Qed.

Section search.
Variable g : DependencyGraph.

Lemma successors_universe (u w : string) :
  w ∈ successors g u → w ∈ universe g.
Proof.
  unfold successors, universe. rewrite lookup_total_alt.
  destruct (edges g !! u) as [ws|] eqn:Hu; simpl; [|by intros ?%elem_of_nil].
  intros Hw. apply elem_of_app. right.
  apply list_elem_of_join. exists ws. split; [done|].
  apply list_elem_of_fmap. exists (u, ws). split; [done|].
  by apply elem_of_map_to_list.
Qed.

Lemma dfs_rec_stack (fuel : nat) (node : string) (path : list string)
    (st st' : dfs_state) :
  dfs g fuel node path st = Some st' → rec_stack st' = rec_stack st.
Proof.
  revert node path st st'.
  induction fuel as [|fuel IH]; intros node path st st'; simpl; [done|].
  case_decide as Hrec.
  { destruct (index node path); simpl; [|done]. by intros [= <-]. }
  case_decide as Hvis; [by intros [= <-]|].
  destruct (for_each _ _ _) as [t|] eqn:Hloop; simpl; [|done].
  intros [= <-]. simpl.
  assert (rec_stack t = rec_stack st ∪ {[node]}) as Ht.
  { revert Hloop.
    apply (for_each_invariant (λ s, rec_stack s = rec_stack st ∪ {[node]}));
      [done|].
    intros x u u' _ Hu Hx. by rewrite (IH _ _ _ _ Hx). }
  rewrite Ht. set_solver.
Qed.

Lemma dfs_terminates (fuel : nat) (node : string) (path : list string)
    (st : dfs_state) :
  rec_stack st = list_to_set path →
  NoDup path →
  (∀ x, x ∈ path → x ∈ universe g) →
  node ∈ universe g →
  (length (universe g) < fuel + length path)%nat →
  is_Some (dfs g fuel node path st).
Proof.
  revert node path st.
  induction fuel as [|fuel IH]; intros node path st Hrs Hnd Hsub Hnode Hlen.
  { exfalso. pose proof (submseteq_length path (universe g)
      (NoDup_submseteq _ _ Hnd Hsub)). simpl in Hlen. lia. }
  simpl. case_decide as Hrec.
  { destruct (index_is_Some node path) as [i ->]; [|by eexists].
    rewrite Hrs in Hrec. by apply elem_of_list_to_set in Hrec. }
  case_decide as Hvis; [by eexists|].
  assert (node ∉ path) as Hfresh.
  { intros Hin. apply Hrec. rewrite Hrs. by apply elem_of_list_to_set. }
  assert (NoDup (path ++ [node])) as Hnd'.
  { apply NoDup_app. split_and!; [done| |apply NoDup_singleton].
    intros x Hx ->%list_elem_of_singleton. done. }
  assert (∀ x, x ∈ path ++ [node] → x ∈ universe g) as Hsub'.
  { intros x [Hx| ->%list_elem_of_singleton]%elem_of_app; auto. }
  destruct (for_each_is_Some
    (λ s, rec_stack s = list_to_set (path ++ [node]))
    (λ neighbor s, dfs g fuel neighbor (path ++ [node]) s)
    (successors g node)
    (mkDfs (visited st ∪ {[node]}) (rec_stack st ∪ {[node]}) (cycles st)))
    as [t Ht].
  - simpl. rewrite Hrs, list_to_set_app_L. simpl. set_solver.
  - intros w s Hw Hs.
    destruct (IH w (path ++ [node]) s) as [s' Hs']; try done.
    + by eapply successors_universe.
    + rewrite length_app. simpl. lia.
    + exists s'. split; [done|]. by rewrite (dfs_rec_stack _ _ _ _ _ Hs').
  - rewrite Ht. by eexists.
Qed.

Lemma find_cycles_loop_terminates : is_Some (find_cycles_loop g (dfs_fuel g)).
Proof.
  unfold find_cycles_loop.
  apply (for_each_is_Some (λ s, rec_stack s = ∅)); [done|].
  intros node s Hnode Hs. case_decide; [by eexists|].
  destruct (dfs_terminates (dfs_fuel g) node [] s) as [s' Hs']; try done.
  - apply NoDup_nil_2.
  - intros x ?%elem_of_nil. done.
  - apply elem_of_app. by left.
  - unfold dfs_fuel. simpl. lia.
  - exists s'. split; [done|]. by rewrite (dfs_rec_stack _ _ _ _ _ Hs').
Qed.
End search.

(** [find_cycles()]: the cycles collected once the loop over the nodes has
    returned, which it always does. *)
Definition find_cycles (g : DependencyGraph) : list (list string) :=
  cycles (is_Some_proj (find_cycles_loop_terminates g)).

(** *** topological_sort *)

(** The exceptions the engine raises or catches. *)
Inductive exn :=
  | CyclesDetected (cs : list (list string))
      (* ValueError("Cannot perform topological sort: cycles detected ...") *)
  | UnexpectedCycle (remaining : list string)
      (* ValueError("Topological sort failed - unexpected cycle. ...") *)
  | MissingCalculationLogic (attribute : string)
      (* ValueError("Calculated attribute ... missing calculation logic") *)
  | CalculationError.
      (* whatever a user calculation raises *)

Inductive try (A : Type) :=
  | Returns (a : A)
  | Raises (e : exn).
Arguments Returns {A} a.
Arguments Raises {A} e.

(** [in_degree[n]] on a [defaultdict(int)]. *)
Definition in_degree_of (in_degree : gmap string Z) (n : string) : Z :=
  default 0 (in_degree !! n).

(** [for node in self.nodes: in_degree[node] = 0]. *)
Definition init_in_degree (g : DependencyGraph) : gmap string Z :=
  fold_left (λ in_degree node, <[node := 0]> in_degree) (nodes g) ∅.

(** [for node in self.nodes: for dependency in self.edges[node]:
    in_degree[dependency] += 1]. *)
Definition count_in_degree (g : DependencyGraph) (in_degree : gmap string Z)
  : gmap string Z :=
  fold_left (λ in_degree node,
               fold_left (λ in_degree dependency,
                            <[dependency := in_degree_of in_degree dependency + 1]>
                              in_degree)
                         (successors g node) in_degree)
            (nodes g) in_degree.

(** Body of [for dependent in self.edges[node]]: decrement, and enqueue at 0. *)
Definition relax (st : gmap string Z * list string) (dependent : string)
  : gmap string Z * list string :=
  let d := in_degree_of st.1 dependent - 1 in
  (<[dependent := d]> st.1,
   if decide (d = 0) then st.2 ++ [dependent] else st.2).

(** [while queue: ...]; [fuel] bounds the number of iterations. *)
Fixpoint kahn_loop (g : DependencyGraph) (fuel : nat)
    (in_degree : gmap string Z) (queue result : list string)
  : option (list string) :=
  match fuel with
  | O => None
  | S fuel' =>
    match queue with
    | [] => Some result
    | node :: queue' =>
      let st := fold_left relax (successors g node) (in_degree, queue') in
      kahn_loop g fuel' st.1 st.2 (result ++ [node])
    end
  end.

(** Number of pending decrements that can still enqueue a node. *)
Definition weight (in_degree : gmap string Z) : nat :=
  map_fold (λ _ (d : Z) (n : nat), (Z.to_nat d + n)%nat) 0%nat in_degree.

Definition kahn_fuel (in_degree : gmap string Z) (queue : list string) : nat :=
  S (length queue + weight in_degree).

Lemma weight_insert (m : gmap string Z) (k : string) (d : Z) :
  (weight (<[k := d]> m) + Z.to_nat (in_degree_of m k) =
   weight m + Z.to_nat d)%nat.
Proof.
  unfold weight, in_degree_of.
  destruct (m !! k) as [d0|] eqn:Hk; simpl.
  - rewrite <- (insert_delete_eq m).
    rewrite (map_fold_delete_L _ _ k d0 m); [|intros; lia|done].
    rewrite map_fold_insert_L; [lia|intros; lia|apply lookup_delete_eq].
  - rewrite map_fold_insert_L; [lia|intros; lia|done].
Qed.

Lemma relax_weight (ws : list string) (m : gmap string Z) (q : list string) :
  (length (fold_left relax ws (m, q)).2 + weight (fold_left relax ws (m, q)).1
   ≤ length q + weight m)%nat.
Proof.
  revert m q. induction ws as [|w ws IH]; intros m q; simpl; [done|].
  etrans; [apply IH|].
  pose proof (weight_insert m w (in_degree_of m w - 1)) as Hw.
  case_decide as Hd; simpl in Hd; rewrite ?length_app; simpl; lia.
Qed.

Lemma kahn_loop_terminates (g : DependencyGraph) (fuel : nat)
    (m : gmap string Z) (q r : list string) :
  (length q + weight m < fuel)%nat → is_Some (kahn_loop g fuel m q r).
Proof.
  revert m q r. induction fuel as [|fuel IH]; intros m q r Hlt; [lia|].
  simpl. destruct q as [|node q]; [by eexists|].
  apply IH.
  pose proof (relax_weight (successors g node) m q). simpl in Hlt. lia.
Qed.

(** The in-degree table and the initial queue of [topological_sort]. *)
Definition kahn_in_degree (g : DependencyGraph) : gmap string Z :=
  count_in_degree g (init_in_degree g).

Definition kahn_queue (g : DependencyGraph) : list string :=
  filter (λ node, in_degree_of (kahn_in_degree g) node = 0) (nodes g).

(** The list [result] once the [while] loop has ended, which it always does. *)
Definition kahn_result (g : DependencyGraph) : list string :=
  is_Some_proj (kahn_loop_terminates g
    (kahn_fuel (kahn_in_degree g) (kahn_queue g))
    (kahn_in_degree g) (kahn_queue g) [] (Nat.lt_succ_diag_r _)).

Definition topological_sort (g : DependencyGraph) : try (list string) :=
  match nodes g with
  | [] => Returns []
  | _ =>
    let cycles := find_cycles g in
    match cycles with
    | _ :: _ => Raises (CyclesDetected cycles)
    | [] =>
      let result := kahn_result g in
      if decide (length result ≠ length (nodes g)) then
        Raises (UnexpectedCycle (filter (λ n, n ∉ result) (nodes g)))
      else Returns result
    end
  end.

(** ** Graph properties *)

(** Forward edge [u → v]: [u] is a dependency of [v]. *)
Definition edge (g : DependencyGraph) (u v : string) : Prop :=
  v ∈ successors g u.

(** A DAG has no closed walk. *)
Definition acyclic (g : DependencyGraph) : Prop :=
  ∀ x, ¬ tc (edge g) x x.

(** What every graph built with [add_node] and [add_dependency] satisfies:
    the sets have no duplicates and both ends of an edge are nodes. *)
Definition wf_graph (g : DependencyGraph) : Prop :=
  NoDup (nodes g) ∧
  map_Forall (λ u ws, u ∈ nodes g ∧ NoDup ws ∧ Forall (λ w, w ∈ nodes g) ws)
             (edges g).

(** Consecutive elements of [c] are joined by forward edges. *)
Definition consecutive (g : DependencyGraph) (c : list string) : Prop :=
  ∀ i u v, c !! i = Some u → c !! S i = Some v → edge g u v.

(** A returned cycle [n0; n1; ...; n0]. *)
Definition genuine_cycle (g : DependencyGraph) (c : list string) : Prop :=
  (2 ≤ length c)%nat ∧ consecutive g c ∧ head c = last c.

(** [u] comes before [v] in [l]: index(u) < index(v). *)
Definition before (l : list string) (u v : string) : Prop :=
  ∃ i j, l !! i = Some u ∧ l !! j = Some v ∧ (i < j)%nat.

Section chains.
Context {A : Type} (R : relation A).

Fixpoint chain (l : list A) : Prop :=
  match l with
  | x :: (y :: _) as l' => R x y ∧ chain l'
  | _ => True
  end.

Lemma chain_app_r (l1 l2 : list A) : chain (l1 ++ l2) → chain l2.
Proof.
  induction l1 as [|x l1 IH]; [done|].
  destruct l1 as [|y l1]; simpl in *.
  - destruct l2; [done|]. by intros [_ ?].
  - intros [_ H]. by apply IH.
Qed.

Lemma chain_snoc (l : list A) (x y : A) :
  chain (l ++ [x]) → R x y → chain ((l ++ [x]) ++ [y]).
Proof.
  intros Hl Hxy. induction l as [|z l IH]; [done|].
  destruct l as [|z' l]; simpl in *.
  - destruct Hl. done.
  - destruct Hl as [Hz Hl]. split; [done|]. by apply IH.
Qed.

Lemma chain_tc (x y : A) (l : list A) : chain (x :: l ++ [y]) → tc R x y.
Proof.
  revert x. induction l as [|z l IH]; intros x; simpl.
  - intros [Hxy _]. by apply tc_once.
  - intros [Hxz Hl]. eapply tc_l; [done|]. by apply IH.
Qed.

Lemma chain_lookup (l : list A) :
  chain l ↔ ∀ i u v, l !! i = Some u → l !! S i = Some v → R u v.
Proof.
  induction l as [|x l IH]; [done|].
  destruct l as [|y l].
  - split; [|done]. intros _ [|i] u v; done.
  - split.
    + intros [Hxy Hl] [|i] u v; simpl.
      * by intros [= <-] [= <-].
      * apply IH. done.
    + intros H. split; [by apply (H 0%nat)|].
      apply IH. intros i u v. apply (H (S i)).
Qed.

Lemma chain_app_l (l1 l2 : list A) : chain (l1 ++ l2) → chain l1.
Proof.
  induction l1 as [|x l1 IH]; [done|].
  destruct l1 as [|y l1]; simpl in *; [done|].
  intros [? ?]. split; [done|]. by apply IH.
Qed.

(** A walk that repeats an element goes round a closed walk. *)
Lemma chain_repeat `{EqDecision A} (l : list A) :
  chain l → ¬ NoDup l → ∃ x, tc R x x.
Proof.
  induction l as [|x l IH]; intros Hl Hdup.
  { destruct Hdup. constructor. }
  assert (chain l) as Hl' by (by apply (chain_app_r [x])).
  destruct (decide (x ∈ l)) as [Hin|Hnin].
  - apply list_elem_of_split in Hin as (l1 & l2 & ->).
    exists x. apply (chain_tc x x l1).
    apply (chain_app_l (x :: l1 ++ [x]) l2).
    simpl. by rewrite <- app_assoc.
  - apply IH; [done|]. intros Hnd. apply Hdup. by constructor.
Qed.
End chains.

Lemma for_each_post {A S : Type} (I : S → Prop) (Q : A → S → Prop)
    (body : A → S → option S) (l : list A) (s s' : S) :
  I s →
  (∀ x t t', x ∈ l → I t → body x t = Some t' →
             I t' ∧ Q x t' ∧ ∀ y, Q y t → Q y t') →
  for_each body l s = Some s' → I s' ∧ ∀ x, x ∈ l → Q x s'.
Proof.
  revert s. induction l as [|x l IH]; intros s Hs Hbody; simpl.
  { intros [= <-]. split; [done|]. by intros x ?%elem_of_nil. }
  destruct (body x s) as [t|] eqn:Hx; [|done]. intros Hloop.
  destruct (Hbody x s t) as (Ht & Hxt & _); [left|done|done|].
  assert (∀ y u u', y ∈ l → I u → body y u = Some u' →
                    I u' ∧ Q y u' ∧ ∀ z, Q z u → Q z u') as Hbody'.
  { intros y u u' Hy. apply Hbody. by right. }
  destruct (IH t Ht Hbody' Hloop) as [Hs' Hl]. split; [done|].
  intros y [->|Hy]%elem_of_cons; [|by apply Hl].
  revert Hloop.
  apply (for_each_invariant (λ u, I u ∧ Q x u)); [done|].
  intros z u u' Hz [Hu Hxu] Hzu.
  destruct (Hbody' z u u' Hz Hu Hzu) as (? & _ & Hst). auto.
Qed.

Section search_correct.
Variable g : DependencyGraph.

(** Nodes whose call has returned. *)
Definition finished (st : dfs_state) : gset string :=
  visited st ∖ rec_stack st.

(** Closed under successors, and on no closed walk. *)
Definition settled (F : gset string) : Prop :=
  (∀ u w, u ∈ F → edge g u w → w ∈ F) ∧ (∀ u, u ∈ F → ¬ tc (edge g) u u).

Record dfs_inv (st : dfs_state) : Prop := {
  inv_stack_visited : rec_stack st ⊆ visited st;
  inv_cycles : Forall (genuine_cycle g) (cycles st);
  inv_settled : cycles st = [] → settled (finished st)
}.

Lemma closed_tc (F : gset string) (u v : string) :
  (∀ u w, u ∈ F → edge g u w → w ∈ F) → u ∈ F → tc (edge g) u v → v ∈ F.
Proof. intros Hc Hu Htc. induction Htc; eauto. Qed.

Lemma reported_cycle_genuine (node : string) (path : list string) (i : nat) :
  chain (edge g) (path ++ [node]) →
  index node path = Some i →
  genuine_cycle g (drop i path ++ [node]).
Proof.
  intros Hchain (l1 & l2 & -> & ->)%index_split.
  rewrite <- app_assoc in Hchain. apply chain_app_r in Hchain.
  split_and!.
  - simpl. rewrite length_app. simpl. lia.
  - exact (proj1 (chain_lookup (edge g) _) Hchain).
  - change ((node :: l2) ++ [node]) with (node :: (l2 ++ [node])).
    rewrite last_cons, last_snoc. done.
Qed.

Lemma dfs_correct (fuel : nat) (node : string) (path : list string)
    (st st' : dfs_state) :
  dfs g fuel node path st = Some st' →
  rec_stack st = list_to_set path →
  chain (edge g) (path ++ [node]) →
  dfs_inv st →
  dfs_inv st' ∧ rec_stack st' = rec_stack st ∧ visited st ⊆ visited st' ∧
  (cycles st' = [] → cycles st = [] ∧ node ∈ finished st').
Proof.
  revert node path st st'.
  induction fuel as [|fuel IH]; intros node path st st'; simpl; [done|].
  intros Hdfs Hrs Hchain [Hsv Hcyc Hset].
  case_decide as Hrec.
  { destruct (index node path) as [i|] eqn:Hi; simpl in Hdfs; [|done].
    injection Hdfs as <-. simpl. split_and!; [|done|done|].
    - split; simpl; [done| |].
      + apply Forall_app. split; [done|].
        apply Forall_singleton. by apply reported_cycle_genuine.
      + by intros [_ [=]]%app_eq_nil.
    - intros [_ [=]]%app_eq_nil. }
  case_decide as Hvis.
  { injection Hdfs as <-. split_and!; try done.
    intros ?. split; [done|]. unfold finished. set_solver. }
  destruct (for_each _ _ _) as [t|] eqn:Hloop; simpl in Hdfs; [|done].
  injection Hdfs as <-.
  pose (I := λ s : dfs_state,
    dfs_inv s ∧ rec_stack s = rec_stack st ∪ {[node]} ∧
    visited st ∪ {[node]} ⊆ visited s ∧ (cycles s = [] → cycles st = [])).
  pose (Q := λ (w : string) (s : dfs_state), cycles s = [] → w ∈ finished s).
  assert (I (mkDfs (visited st ∪ {[node]}) (rec_stack st ∪ {[node]})
                   (cycles st))) as HI.
  { unfold I. simpl. split_and!; try done.
    split; simpl; [set_solver|done|].
    intros Hnil. replace (finished _) with (finished st); [by apply Hset|].
    unfold finished. simpl. set_solver. }
  assert (∀ w s s', w ∈ successors g node → I s →
            dfs g fuel w (path ++ [node]) s = Some s' →
            I s' ∧ Q w s' ∧ ∀ y, Q y s → Q y s') as Hstep.
  { intros w s s' Hw (Hs & Hrss & Hvs & Hcs) Hws.
    destruct (IH w (path ++ [node]) s s' Hws) as (Hs' & Hrs' & Hvs' & Hcs').
    - rewrite Hrss, Hrs, list_to_set_app_L. simpl. set_solver.
    - by apply chain_snoc.
    - done.
    - unfold I, Q. split_and!.
      + done.
      + congruence.
      + set_solver.
      + intros ?. apply Hcs. by apply Hcs'.
      + intros ?. by apply Hcs'.
      + intros y Hy Hnil. destruct (Hcs' Hnil) as [Hnil' _].
        specialize (Hy Hnil'). unfold finished in *. set_solver. }
  destruct (for_each_post I Q _ _ _ _ HI Hstep Hloop)
    as [(Ht & Hrt & Hvt & Hct) Hdone].
  destruct Ht as [Hsv' Hcyc' Hset'].
  split_and!; simpl.
  + split; simpl; [set_solver|done|].
    intros Hnil. destruct (Hset' Hnil) as [Hclosed Hnocyc].
    assert (finished (mkDfs (visited t) (rec_stack t ∖ {[node]}) (cycles t))
            = finished t ∪ {[node]}) as ->.
    { unfold finished. simpl. rewrite Hrt.
      apply set_eq. intros x. destruct (decide (x = node)); set_solver. }
    assert (node ∉ finished t) as Hnode.
    { unfold finished. rewrite Hrt. set_solver. }
    assert (∀ w, edge g node w → w ∈ finished t) as Hsucc.
    { intros w Hw. by apply (Hdone w). }
    split.
    * intros u w [Hu| ->%elem_of_singleton]%elem_of_union Huw;
        apply elem_of_union; left; [by eapply Hclosed|by apply Hsucc].
    * intros u [Hu| ->%elem_of_singleton]%elem_of_union; [by apply Hnocyc|].
      intros Htc. apply Hnode. inversion Htc as [? ? Hw|? w ? Hw Hrest]; subst.
      -- by apply Hsucc.
      -- eapply closed_tc; [done| |done]. by apply Hsucc.
  + rewrite Hrt. set_solver.
  + set_solver.
  + intros Hnil. split; [by apply Hct|].
    unfold finished. simpl. rewrite Hrt. set_solver.
Qed.
End search_correct.

Lemma is_Some_proj_eq {A : Type} (mx : option A) (H : is_Some mx) :
  mx = Some (is_Some_proj H).
Proof. destruct mx; [done|]. by destruct H. Qed.

Lemma wf_graph_edge (g : DependencyGraph) (u w : string) :
  wf_graph g → edge g u w → u ∈ nodes g ∧ w ∈ nodes g.
Proof.
  intros [_ Hwf]. unfold edge, successors. rewrite lookup_total_alt.
  destruct (edges g !! u) as [ws|] eqn:Hu; simpl; [|by intros ?%elem_of_nil].
  destruct (Hwf u ws Hu) as (? & _ & Hws). intros Hw. split; [done|].
  by apply (proj1 (Forall_forall _ _) Hws).
Qed.

Lemma wf_graph_successors_NoDup (g : DependencyGraph) (u : string) :
  wf_graph g → NoDup (successors g u).
Proof.
  intros [_ Hwf]. unfold successors. rewrite lookup_total_alt.
  destruct (edges g !! u) as [ws|] eqn:Hu; simpl; [|constructor].
  by destruct (Hwf u ws Hu) as (_ & ? & _).
Qed.

Lemma genuine_cycle_closed_walk (g : DependencyGraph) (c : list string) :
  genuine_cycle g c → ∃ x, tc (edge g) x x.
Proof.
  intros (Hlen & Hcons & Hends).
  destruct c as [|x c]; [simpl in Hlen; lia|].
  destruct (exists_last (l:=c)) as (l & y & ->).
  { intros ->. simpl in Hlen. lia. }
  change (head (x :: l ++ [y])) with (Some x) in Hends.
  rewrite last_cons, last_snoc in Hends. injection Hends as <-.
  exists x. apply (chain_tc _ x x l). by apply chain_lookup.
Qed.

Section find_cycles_correct.
Variable g : DependencyGraph.

Lemma find_cycles_loop_correct (st : dfs_state) :
  find_cycles_loop g (dfs_fuel g) = Some st →
  Forall (genuine_cycle g) (cycles st) ∧
  (cycles st = [] →
   settled g (visited st) ∧ ∀ x, x ∈ nodes g → x ∈ visited st).
Proof.
  intros Hloop.
  pose (I := λ s : dfs_state, dfs_inv g s ∧ rec_stack s = ∅).
  pose (Q := λ (x : string) (s : dfs_state), cycles s = [] → x ∈ visited s).
  assert (I (mkDfs ∅ ∅ [])) as HI.
  { split; [|done]. split; simpl; [done|constructor|].
    intros _. split; intros u; unfold finished; simpl; set_solver. }
  assert (∀ node s s', node ∈ nodes g → I s →
            (if decide (node ∈ visited s) then Some s
             else dfs g (dfs_fuel g) node [] s) = Some s' →
            I s' ∧ Q node s' ∧ ∀ y, Q y s → Q y s') as Hstep.
  { intros node s s' _ [Hs Hrs] Hbody.
    case_decide as Hvis.
    { injection Hbody as <-. unfold I, Q. split_and!; auto. }
    destruct (dfs_correct g _ _ _ _ _ Hbody) as (Hs' & Hrs' & Hvs' & Hnil);
      [by rewrite Hrs|done|done|].
    unfold I, Q. split_and!; [done|congruence| |].
    - intros H. destruct (Hnil H) as [_ Hfin].
      unfold finished in Hfin. set_solver.
    - intros y Hy H. destruct (Hnil H) as [H' _]. set_solver. }
  destruct (for_each_post I Q _ _ _ _ HI Hstep Hloop)
    as [[[_ Hcyc Hset] Hrs] Hall].
  split; [done|]. intros Hnil. split; [|by intros x Hx; apply Hall].
  replace (visited st) with (finished st); [by apply Hset|].
  unfold finished. rewrite Hrs. set_solver.
Qed.

Lemma find_cycles_genuine (c : list string) :
  c ∈ find_cycles g → genuine_cycle g c.
Proof.
  unfold find_cycles.
  pose proof (is_Some_proj_eq _ (find_cycles_loop_terminates g)) as Hloop.
  destruct (find_cycles_loop_correct _ Hloop) as [Hcyc _].
  by apply (proj1 (Forall_forall _ _) Hcyc).
Qed.

Lemma find_cycles_nil_acyclic :
  wf_graph g → find_cycles g = [] → acyclic g.
Proof.
  unfold find_cycles. intros Hwf Hnil.
  pose proof (is_Some_proj_eq _ (find_cycles_loop_terminates g)) as Hloop.
  destruct (find_cycles_loop_correct _ Hloop) as [_ Hset].
  destruct (Hset Hnil) as [[_ Hnocyc] Hall].
  intros x Hx. apply (Hnocyc x); [|done]. apply Hall.
  inversion Hx as [? ? Hxy|? y ? Hxy _]; subst;
    by destruct (wf_graph_edge g _ _ Hwf Hxy).
Qed.

Lemma find_cycles_cons_cyclic :
  find_cycles g ≠ [] → ¬ acyclic g.
Proof.
  intros Hne Hacyc. destruct (find_cycles g) as [|c cs] eqn:Hc; [done|].
  destruct (genuine_cycle_closed_walk g c) as [x Hx].
  - apply find_cycles_genuine. rewrite Hc. left.
  - by apply (Hacyc x).
Qed.
End find_cycles_correct.

(** *** Kahn's algorithm *)

Lemma filter_ext_elem {A : Type} (P1 P2 : A → Prop)
    `{∀ x, Decision (P1 x)} `{∀ x, Decision (P2 x)} (l : list A) :
  (∀ x, x ∈ l → P1 x ↔ P2 x) → filter P1 l = filter P2 l.
Proof.
  induction l as [|x l IH]; intros Hext; [done|].
  rewrite !filter_cons.
  rewrite IH by (intros y Hy; apply Hext; by right).
  destruct (decide (P1 x)) as [H1|H1], (decide (P2 x)) as [H2|H2]; try done;
    exfalso; [apply H2|apply H1]; by apply (Hext x); [left|].
Qed.

Lemma filter_all {A : Type} (P : A → Prop) `{∀ x, Decision (P x)}
    (l : list A) :
  (∀ x, x ∈ l → P x) → filter P l = l.
Proof.
  induction l as [|x l IH]; intros Hall; [done|].
  rewrite filter_cons, decide_True by (apply Hall; left).
  rewrite IH; [done|]. intros y Hy. apply Hall. by right.
Qed.

Lemma length_filter_ne (x : string) (l : list string) :
  NoDup l →
  length (filter (λ y, y ≠ x) l) =
  (length l - (if decide (x ∈ l) then 1 else 0))%nat.
Proof.
  induction 1 as [|y l Hy Hnd IH]; [done|].
  rewrite filter_cons. destruct (decide (y ≠ x)) as [Hne|Heq].
  - cbn [length]. rewrite IH.
    destruct (decide (x ∈ l)) as [Hin|Hnin], (decide (x ∈ y :: l)) as [Hin'|Hnin'].
    + destruct l; [by apply elem_of_nil in Hin|simpl; lia].
    + destruct Hnin'. by right.
    + apply elem_of_cons in Hin' as [?|?]; congruence.
    + lia.
  - apply dec_stable in Heq. subst y.
    rewrite IH, decide_False by done.
    rewrite decide_True by left. simpl. lia.
Qed.

Lemma in_degree_of_insert (m : gmap string Z) (k v : string) (d : Z) :
  in_degree_of (<[k := d]> m) v = if decide (k = v) then d else in_degree_of m v.
Proof.
  unfold in_degree_of. rewrite lookup_insert. by case_decide.
Qed.

Lemma relax_fold (ws : list string) (m : gmap string Z) (q : list string) :
  NoDup ws →
  (∀ v, in_degree_of (fold_left relax ws (m, q)).1 v =
        in_degree_of m v - (if decide (v ∈ ws) then 1 else 0)) ∧
  (fold_left relax ws (m, q)).2 =
    q ++ filter (λ w, in_degree_of m w = 1) ws.
Proof.
  intros Hnd. revert m q.
  induction Hnd as [|w ws Hw Hnd IH]; intros m q; cbn [fold_left].
  { split; [intros v; rewrite decide_False; [simpl; lia|apply not_elem_of_nil]|].
    by rewrite filter_nil, app_nil_r. }
  assert (relax (m, q) w =
          (<[w := in_degree_of m w - 1]> m,
           if decide (in_degree_of m w - 1 = 0) then q ++ [w] else q)) as ->
    by done.
  destruct (IH (<[w := in_degree_of m w - 1]> m)
               (if decide (in_degree_of m w - 1 = 0) then q ++ [w] else q))
    as [Hm Hq].
  split.
  - intros v. rewrite Hm, in_degree_of_insert.
    destruct (decide (w = v)) as [->|Hne].
    + rewrite decide_False by done. rewrite decide_True by left. lia.
    + destruct (decide (v ∈ ws)) as [Hin|Hnin].
      * rewrite decide_True by (by right). done.
      * rewrite decide_False; [done|].
        intros [?|?]%elem_of_cons; congruence.
  - rewrite Hq, filter_cons.
    rewrite (filter_ext_elem _ (λ w0, in_degree_of m w0 = 1) ws).
    + destruct (decide (in_degree_of m w = 1)) as [H1|H1].
      * rewrite decide_True by lia. by rewrite <- app_assoc.
      * rewrite decide_False by lia. done.
    + intros x Hx. rewrite in_degree_of_insert, decide_False; [done|].
      intros ->. done.
Qed.

Lemma init_in_degree_zero (g : DependencyGraph) (v : string) :
  in_degree_of (init_in_degree g) v = 0.
Proof.
  unfold init_in_degree.
  assert (∀ ns (m : gmap string Z), in_degree_of m v = 0 →
            in_degree_of (fold_left (λ m n, <[n := 0]> m) ns m) v = 0) as H.
  { induction ns as [|n ns IH]; intros m Hm; simpl; [done|].
    apply IH. rewrite in_degree_of_insert. by case_decide. }
  by apply H.
Qed.

Lemma count_fold (ws : list string) (m : gmap string Z) (v : string) :
  NoDup ws →
  in_degree_of
    (fold_left (λ m d, <[d := in_degree_of m d + 1]> m) ws m) v =
  in_degree_of m v + (if decide (v ∈ ws) then 1 else 0).
Proof.
  intros Hnd. revert m.
  induction Hnd as [|w ws Hw Hnd IH]; intros m; cbn [fold_left].
  { rewrite decide_False; [lia|apply not_elem_of_nil]. }
  rewrite IH, in_degree_of_insert.
  destruct (decide (w = v)) as [->|Hne].
  - rewrite decide_False by done. rewrite decide_True by left. lia.
  - destruct (decide (v ∈ ws)) as [Hin|Hnin].
    + rewrite decide_True by (by right). done.
    + rewrite decide_False; [done|].
      intros [?|?]%elem_of_cons; congruence.
Qed.

Section kahn_correct.
Variable g : DependencyGraph.
Hypothesis Hwf : wf_graph g.

(** Dependencies of [v], and those not yet output in [r]. *)
Definition preds (v : string) : list string :=
  filter (λ u, v ∈ successors g u) (nodes g).

Definition pending (r : list string) (v : string) : list string :=
  filter (λ u, u ∉ r) (preds v).

Lemma elem_of_pending (r : list string) (u v : string) :
  u ∈ pending r v ↔ (u ∉ r) ∧ edge g u v.
Proof.
  unfold pending, preds. rewrite !list_elem_of_filter. unfold edge.
  split; [naive_solver|]. intros [? Huv]. split_and!; [done..|].
  by destruct (wf_graph_edge g u v Hwf Huv).
Qed.

Lemma NoDup_pending (r : list string) (v : string) : NoDup (pending r v).
Proof. do 2 apply NoDup_filter. by destruct Hwf. Qed.

Lemma count_in_degree_preds (ns : list string) (m : gmap string Z)
    (v : string) :
  in_degree_of
    (fold_left (λ m node,
                  fold_left (λ m d, <[d := in_degree_of m d + 1]> m)
                            (successors g node) m) ns m) v =
  in_degree_of m v +
  Z.of_nat (length (filter (λ u, v ∈ successors g u) ns)).
Proof.
  revert m. induction ns as [|n ns IH]; intros m; cbn [fold_left].
  { rewrite filter_nil. simpl. lia. }
  rewrite IH, count_fold by (by apply wf_graph_successors_NoDup).
  rewrite filter_cons.
  destruct (decide (v ∈ successors g n)); cbn [length]; lia.
Qed.

Lemma kahn_in_degree_preds (v : string) :
  in_degree_of (kahn_in_degree g) v = Z.of_nat (length (preds v)).
Proof.
  unfold kahn_in_degree, count_in_degree.
  by rewrite count_in_degree_preds, init_in_degree_zero.
Qed.

Lemma pending_snoc (r : list string) (node v : string) :
  node ∈ nodes g → node ∉ r →
  length (pending (r ++ [node]) v) =
  (length (pending r v) -
   (if decide (v ∈ successors g node) then 1 else 0))%nat.
Proof.
  intros Hnode Hfresh.
  assert (pending (r ++ [node]) v = filter (λ y, y ≠ node) (pending r v))
    as ->.
  { unfold pending. rewrite list_filter_filter. apply list_filter_iff.
    intros x. rewrite elem_of_app, list_elem_of_singleton. tauto. }
  rewrite length_filter_ne by apply NoDup_pending.
  destruct (decide (node ∈ pending r v)) as [Hin|Hnin];
    rewrite elem_of_pending in *; unfold edge in *.
  - rewrite decide_True; [done|tauto].
  - rewrite decide_False; [done|tauto].
Qed.

Record kahn_inv (m : gmap string Z) (q r : list string) : Prop := {
  kahn_NoDup : NoDup (r ++ q);
  kahn_nodes : ∀ x, x ∈ r ++ q → x ∈ nodes g;
  kahn_pending : ∀ v, in_degree_of m v = Z.of_nat (length (pending r v));
  kahn_ready : ∀ v, v ∈ nodes g → v ∈ r ++ q ↔ in_degree_of m v = 0;
  kahn_order : ∀ j u v, r !! j = Some v → edge g u v →
                        ∃ i, (i < j)%nat ∧ r !! i = Some u
}.

Lemma kahn_inv_init : kahn_inv (kahn_in_degree g) (kahn_queue g) [].
Proof.
  split; simpl.
  - apply NoDup_filter. by destruct Hwf.
  - intros x. unfold kahn_queue. rewrite list_elem_of_filter. tauto.
  - intros v. rewrite kahn_in_degree_preds. f_equal. f_equal.
    unfold pending. symmetry. apply filter_all.
    intros x _. apply not_elem_of_nil.
  - intros v Hv. unfold kahn_queue. rewrite list_elem_of_filter. tauto.
  - intros j u v. by rewrite lookup_nil.
Qed.

Lemma kahn_inv_step (m : gmap string Z) (node : string) (q r : list string) :
  kahn_inv m (node :: q) r →
  kahn_inv (fold_left relax (successors g node) (m, q)).1
           (fold_left relax (successors g node) (m, q)).2
           (r ++ [node]).
Proof.
  intros [Hnd Hnodes Hpend Hready Horder].
  destruct (relax_fold (successors g node) m q) as [Hm ->];
    [by apply wf_graph_successors_NoDup|].
  assert (node ∈ nodes g) as Hnode.
  { apply Hnodes. apply elem_of_app. right. left. }
  assert (node ∉ r) as Hfresh.
  { apply NoDup_app in Hnd as (_ & Hdisj & _). intros Hin.
    apply (Hdisj node Hin). left. }
  assert (∀ v, in_degree_of m v = 0 → v ∉ successors g node) as Hzero.
  { intros v Hv Hin. rewrite Hpend in Hv.
    assert (node ∈ pending r v) as Hp by (by apply elem_of_pending).
    destruct (pending r v); [by apply elem_of_nil in Hp|]. simpl in Hv. lia. }
  assert (∀ v, v ∈ (r ++ [node]) ++ q ++
                 filter (λ w, in_degree_of m w = 1) (successors g node) ↔
               v ∈ r ++ node :: q ∨
               (v ∈ successors g node ∧ in_degree_of m v = 1)) as Hmem.
  { intros v. rewrite !elem_of_app, list_elem_of_filter, !elem_of_cons,
      elem_of_nil. tauto. }
  split.
  - rewrite <- app_assoc. cbn [app]. rewrite app_comm_cons, app_assoc.
    apply NoDup_app. split_and!; [done| |].
    + intros x Hx [Hx1 Hx2]%list_elem_of_filter.
      destruct (wf_graph_edge g node x Hwf Hx2) as [_ Hxn].
      apply (Hready x Hxn) in Hx. lia.
    + apply NoDup_filter. by apply wf_graph_successors_NoDup.
  - intros x [Hx|[Hx _]]%Hmem; [by apply Hnodes|].
    by destruct (wf_graph_edge g node x Hwf Hx).
  - intros v. rewrite Hm, Hpend, pending_snoc by done.
    destruct (decide (v ∈ successors g node)) as [Hin|Hnin]; [|lia].
    assert (node ∈ pending r v) as Hp by (by apply elem_of_pending).
    destruct (pending r v); [by apply elem_of_nil in Hp|]. simpl. lia.
  - intros v Hv. rewrite Hmem, Hm, (Hready v Hv).
    destruct (decide (v ∈ successors g node)) as [Hin|Hnin].
    + split; [|intros; right; split; [done|lia]].
      intros [H0|[_ H1]]; [|lia]. by destruct (Hzero v H0).
    + split; [|intros; left; lia]. intros [H0|[? _]]; [lia|done].
  - intros j u v Hj Huv.
    destruct (decide (j < length r)%nat) as [Hlt|Hge].
    + rewrite lookup_app_l in Hj by done.
      destruct (Horder j u v Hj Huv) as (i & Hi & Hu).
      exists i. split; [done|]. rewrite lookup_app_l by lia. done.
    + apply lookup_app_Some in Hj as [Hj|[_ Hj]].
      { apply lookup_lt_Some in Hj. lia. }
      apply list_lookup_singleton_Some in Hj as [Hj0 <-].
      assert (u ∈ r) as Hur.
      { destruct (decide (u ∈ r)) as [|Hnur]; [done|].
        assert (u ∈ pending r node) as Hp by (by apply elem_of_pending).
        assert (in_degree_of m node = 0) as H0.
        { apply Hready; [done|]. apply elem_of_app. right. left. }
        rewrite Hpend in H0.
        destruct (pending r node); [by apply elem_of_nil in Hp|].
        simpl in H0. lia. }
      apply list_elem_of_lookup_1 in Hur as [i Hi].
      exists i. split.
      * apply lookup_lt_Some in Hi. lia.
      * rewrite lookup_app_l; [done|]. by apply lookup_lt_Some in Hi.
Qed.

Lemma kahn_loop_inv (fuel : nat) (m : gmap string Z) (q r res : list string) :
  kahn_inv m q r → kahn_loop g fuel m q r = Some res →
  ∃ m', kahn_inv m' [] res.
Proof.
  revert m q r. induction fuel as [|fuel IH]; intros m q r Hinv; [done|].
  simpl. destruct q as [|node q].
  - intros [= <-]. by exists m.
  - apply IH. by apply kahn_inv_step.
Qed.
End kahn_correct.

Section sources.
Context {A : Type} `{EqDecision A} (R : relation A).

Lemma backward_walk (S : list A) (n : nat) (v : A) :
  (∀ v, v ∈ S → ∃ u, u ∈ S ∧ R u v) → v ∈ S →
  ∃ l, length l = n ∧ chain R (l ++ [v]) ∧ ∀ x, x ∈ l → x ∈ S.
Proof.
  intros Hpred. revert v. induction n as [|n IH]; intros v Hv.
  { exists []. split_and!; [done..|]. by intros x ?%elem_of_nil. }
  destruct (Hpred v Hv) as (u & Hu & Huv).
  destruct (IH u Hu) as (l & Hlen & Hchain & Hsub).
  exists (l ++ [u]). split_and!.
  - rewrite length_app. simpl. lia.
  - by apply chain_snoc.
  - intros x [Hx| ->%list_elem_of_singleton]%elem_of_app; auto.
Qed.

(** In a finite non-empty set where every element has a predecessor in
    the set, some closed walk exists. *)
Lemma no_source_closed_walk (S : list A) :
  (∀ v, v ∈ S → ∃ u, u ∈ S ∧ R u v) → S ≠ [] → ∃ x, tc R x x.
Proof.
  intros Hpred Hne. destruct S as [|v S']; [done|].
  destruct (backward_walk (v :: S') (length (v :: S')) v Hpred)
    as (l & Hlen & Hchain & Hsub); [left|].
  apply (chain_repeat R (l ++ [v])); [done|]. intros Hnd.
  assert (length (l ++ [v]) ≤ length (v :: S'))%nat as Hle.
  { apply submseteq_length, NoDup_submseteq; [done|].
    intros x [Hx| ->%list_elem_of_singleton]%elem_of_app; [auto|left]. }
  rewrite length_app, Hlen in Hle. simpl in Hle. lia.
Qed.
End sources.

Global Instance wf_graph_dec (g : DependencyGraph) : Decision (wf_graph g).
Proof. unfold wf_graph. apply _. Defined.

Lemma wf_graph_empty : wf_graph empty_graph.
Proof. split; [constructor|]. apply map_Forall_empty. Qed.

Lemma NoDup_set_add (x : string) (s : list string) :
  NoDup s → NoDup (set_add x s).
Proof.
  intros Hs. unfold set_add. case_decide; [done|].
  apply NoDup_app. split_and!; [done| |apply NoDup_singleton].
  intros y Hy ->%list_elem_of_singleton. done.
Qed.

Lemma elem_of_set_add (x y : string) (s : list string) :
  y ∈ set_add x s ↔ y = x ∨ y ∈ s.
Proof.
  unfold set_add. case_decide.
  - split; [auto|]. by intros [->|?].
  - rewrite elem_of_app, list_elem_of_singleton. tauto.
Qed.

Lemma wf_graph_add_node (g : DependencyGraph) (n : string) :
  wf_graph g → wf_graph (add_node g n).
Proof.
  intros [Hnd Hedges]. split; simpl; [by apply NoDup_set_add|].
  intros u ws Hu. destruct (Hedges u ws Hu) as (Hun & Hws & Hsub).
  split_and!; [apply elem_of_set_add; auto|done|].
  eapply Forall_impl; [done|]. intros w Hw. apply elem_of_set_add. auto.
Qed.

Lemma wf_graph_add_dependency (g : DependencyGraph) (dependent dependency : string) :
  wf_graph g → wf_graph (add_dependency g dependent dependency).
Proof.
  intros [Hnd Hedges]. split; simpl; [by do 2 apply NoDup_set_add|].
  intros u ws. rewrite lookup_insert. case_decide as Hu.
  - intros [= <-]. subst u. rewrite lookup_total_alt.
    split_and!.
    + apply elem_of_set_add. auto.
    + apply NoDup_set_add.
      destruct (edges g !! dependency) as [ws|] eqn:Hd; simpl; [|constructor].
      by destruct (Hedges _ _ Hd) as (_ & ? & _).
    + apply Forall_forall. intros w [->|Hw]%elem_of_set_add.
      * rewrite !elem_of_set_add. auto.
      * destruct (edges g !! dependency) as [ws|] eqn:Hd; simpl in Hw;
          [|by apply elem_of_nil in Hw].
        destruct (Hedges _ _ Hd) as (_ & _ & Hsub).
        rewrite !elem_of_set_add. right. right.
        by apply (proj1 (Forall_forall _ _) Hsub).
  - intros Hu'. destruct (Hedges u ws Hu') as (Hun & Hws & Hsub).
    split_and!; [rewrite !elem_of_set_add; auto|done|].
    eapply Forall_impl; [done|]. intros w Hw. rewrite !elem_of_set_add. auto.
Qed.

Section topological_sort_correct.
Variable g : DependencyGraph.
Hypothesis Hwf : wf_graph g.

Lemma kahn_result_complete :
  acyclic g →
  NoDup (kahn_result g) ∧
  (∀ x, x ∈ kahn_result g ↔ x ∈ nodes g) ∧
  (∀ u v, edge g u v → before (kahn_result g) u v).
Proof.
  intros Hacyc. unfold kahn_result.
  match goal with |- context [is_Some_proj ?H] =>
    pose proof (is_Some_proj_eq _ H) as Hloop;
    generalize dependent (is_Some_proj H) end.
  intros res Hloop.
  destruct (kahn_loop_inv g Hwf _ _ _ _ _ (kahn_inv_init g Hwf) Hloop)
    as [m [Hnd Hnodes Hpend Hready Horder]].
  rewrite app_nil_r in *.
  assert (∀ x, x ∈ nodes g → x ∈ res) as Hall.
  { intros x Hx. destruct (decide (x ∈ res)) as [|Hnx]; [done|]. exfalso.
    destruct (no_source_closed_walk (edge g)
                (filter (λ n, n ∉ res) (nodes g))) as [y Hy].
    - intros v [Hv Hvn]%list_elem_of_filter.
      assert (in_degree_of m v ≠ 0) as Hv0.
      { intros H0. apply Hv. by apply (Hready v Hvn). }
      rewrite Hpend in Hv0.
      destruct (pending g res v) as [|u p] eqn:Hp; [done|].
      assert (u ∈ pending g res v) as Hu by (rewrite Hp; left).
      apply elem_of_pending in Hu as [Hur Huv]; [|done].
      exists u. split; [|done]. apply list_elem_of_filter. split; [done|].
      by destruct (wf_graph_edge g u v Hwf Huv).
    - intros Hnil.
      by apply (filter_nil_not_elem_of (λ n, n ∉ res) (nodes g) x Hnil).
    - by apply (Hacyc y). }
  split_and!; [done|split; auto|].
  intros u v Huv.
  destruct (wf_graph_edge g u v Hwf Huv) as [_ Hv].
  apply Hall, list_elem_of_lookup_1 in Hv as [j Hj].
  destruct (Horder j u v Hj Huv) as (i & Hi & Hu).
  by exists i, j.
Qed.

Lemma topological_sort_acyclic :
  acyclic g →
  ∃ order, topological_sort g = Returns order ∧
           NoDup order ∧
           (∀ x, x ∈ order ↔ x ∈ nodes g) ∧
           (∀ u v, edge g u v → before order u v).
Proof.
  intros Hacyc. unfold topological_sort.
  destruct (nodes g) as [|n ns] eqn:Hn.
  { exists []. split_and!; [done|constructor|done|].
    intros u v Huv. destruct (wf_graph_edge g u v Hwf Huv) as [Hu _].
    rewrite Hn in Hu. by apply elem_of_nil in Hu. }
  cbv zeta. destruct (find_cycles g) as [|c cs] eqn:Hc.
  - destruct (kahn_result_complete Hacyc) as (Hnd & Hmem & Hord).
    rewrite decide_False.
    + exists (kahn_result g). rewrite <- Hn. done.
    + intros Hlen. apply Hlen. rewrite <- Hn. apply Permutation_length.
      apply NoDup_Permutation; [done|by destruct Hwf|done].
  - destruct (find_cycles_cons_cyclic g); [by rewrite Hc|done].
Qed.

Lemma topological_sort_cyclic :
  (∃ x, tc (edge g) x x) →
  topological_sort g = Raises (CyclesDetected (find_cycles g)) ∧
  find_cycles g ≠ [] ∧
  Forall (genuine_cycle g) (find_cycles g).
Proof.
  intros [x Hx]. unfold topological_sort.
  assert (find_cycles g ≠ []) as Hne.
  { intros Hnil. by apply (find_cycles_nil_acyclic g Hwf Hnil x). }
  destruct (nodes g) as [|n ns] eqn:Hn.
  { inversion Hx as [? ? Hxy|? y ? Hxy _]; subst;
      destruct (wf_graph_edge g _ _ Hwf Hxy) as [Hu _];
      rewrite Hn in Hu; by apply elem_of_nil in Hu. }
  cbv zeta. destruct (find_cycles g) as [|c cs] eqn:Hc; [done|].
  split_and!; [done..|].
  rewrite <- Hc. apply Forall_forall. apply find_cycles_genuine.
Qed.
End topological_sort_correct.


(** ** Further properties of the dependency graph *)

(** [reverse_edges] holds the edges of [edges], reversed. *)
Definition mirrored (g : DependencyGraph) : Prop :=
  ∀ u v, v ∈ edges g !!! u ↔ u ∈ reverse_edges g !!! v.

(** The graphs the registry builds: [DependencyGraph()] followed by calls of
    [nodes.add] and [add_dependency]. *)
Inductive built : DependencyGraph → Prop :=
  | built_empty : built empty_graph
  | built_add_node g n : built g → built (add_node g n)
  | built_add_dependency g dependent dependency :
      built g → built (add_dependency g dependent dependency).

Lemma set_add_elem (x : string) (s : list string) : x ∈ s → set_add x s = s.
Proof. intros Hx. unfold set_add. by rewrite decide_True. Qed.

Lemma successors_add_dependency (g : DependencyGraph)
    (dependent dependency u : string) :
  successors (add_dependency g dependent dependency) u =
  if decide (u = dependency) then set_add dependent (successors g dependency)
  else successors g u.
Proof.
  unfold successors, add_dependency. simpl. case_decide as Hu.
  - subst u. by rewrite lookup_total_insert_eq.
  - by rewrite lookup_total_insert_ne.
Qed.

Lemma edge_add_dependency (g : DependencyGraph)
    (dependent dependency u v : string) :
  edge (add_dependency g dependent dependency) u v ↔
  edge g u v ∨ (u = dependency ∧ v = dependent).
Proof.
  unfold edge. rewrite successors_add_dependency. case_decide as Hu.
  - subst u. rewrite elem_of_set_add. naive_solver.
  - naive_solver.
Qed.

Lemma edge_add_node (g : DependencyGraph) (n u v : string) :
  edge (add_node g n) u v ↔ edge g u v.
Proof. done. Qed.

Lemma mirrored_add_dependency (g : DependencyGraph)
    (dependent dependency : string) :
  mirrored g → mirrored (add_dependency g dependent dependency).
Proof.
  intros Hm u v. unfold add_dependency. simpl.
  destruct (decide (u = dependency)) as [->|Hu],
           (decide (v = dependent)) as [->|Hv];
    rewrite ?lookup_total_insert_eq, ?lookup_total_insert_ne by done;
    rewrite ?elem_of_set_add, ?(Hm _ _); naive_solver.
Qed.

(** Reachability in the graph with one more dependency. *)
Lemma rtc_add_dependency (g : DependencyGraph)
    (dependent dependency u v : string) :
  rtc (edge (add_dependency g dependent dependency)) u v →
  rtc (edge g) u v ∨
  (rtc (edge g) u dependency ∧ rtc (edge g) dependent v).
Proof.
  induction 1 as [u|u w v Huw _ IH]; [by left|].
  apply edge_add_dependency in Huw as [Huw|[-> ->]].
  - destruct IH as [IH|[IH1 IH2]]; [left|right]; eauto using rtc_l.
  - destruct IH as [IH|[IH1 IH2]]; right; eauto using rtc_refl.
Qed.

Lemma acyclic_add_dependency (g : DependencyGraph)
    (dependent dependency : string) :
  acyclic g → ¬ rtc (edge g) dependent dependency →
  acyclic (add_dependency g dependent dependency).
Proof.
  intros Hacyc Hnp x Hx.
  apply tc_rtc_l with (x := x) in Hx; [|apply rtc_refl].
  inversion Hx as [? ? Hxy|? y ? Hxy Hyx]; subst.
  - apply edge_add_dependency in Hxy as [Hxy|[-> ->]].
    + apply (Hacyc x). by apply tc_once.
    + apply Hnp, rtc_refl.
  - apply tc_rtc, rtc_add_dependency in Hyx.
    apply edge_add_dependency in Hxy as [Hxy|[-> ->]].
    + destruct Hyx as [Hyx|[Hyp Hdx]].
      * apply (Hacyc x). by eapply tc_rtc_r; [apply tc_once|].
      * apply Hnp. etrans; [done|]. by eapply rtc_l.
    + destruct Hyx as [Hyx|[Hyp Hdx]]; [done|]. by apply Hnp.
Qed.

Lemma rtc_add_dependency_mono (g : DependencyGraph)
    (dependent dependency u v : string) :
  rtc (edge g) u v → rtc (edge (add_dependency g dependent dependency)) u v.
Proof.
  induction 1 as [|u w v Huw _ IH]; [done|].
  eapply rtc_l; [|done]. apply edge_add_dependency. by left.
Qed.

(** Every cycle the search reports is simple: its first node closes it and
    no other node is repeated. *)
Definition simple_cycle (c : list string) : Prop :=
  ∃ x body, c = x :: body ++ [x] ∧ NoDup (x :: body).

Lemma dfs_cycles_simple (g : DependencyGraph) (fuel : nat) (node : string)
    (path : list string) (st st' : dfs_state) :
  rec_stack st = list_to_set path → NoDup path →
  Forall simple_cycle (cycles st) →
  dfs g fuel node path st = Some st' → Forall simple_cycle (cycles st').
Proof.
  revert node path st st'.
  induction fuel as [|fuel IH]; intros node path st st' Hrs Hnd Hcs; simpl;
    [done|].
  case_decide as Hrec.
  { destruct (index node path) as [i|] eqn:Hi; simpl; [|done].
    intros [= <-]. simpl. apply Forall_app. split; [done|].
    apply Forall_singleton.
    destruct (index_split _ _ _ Hi) as (l1 & l2 & -> & ->).
    exists node, l2. split; [done|].
    by apply NoDup_app in Hnd as (_ & _ & Hnd). }
  case_decide as Hvis; [by intros [= <-]|].
  destruct (for_each _ _ _) as [t|] eqn:Hloop; simpl; [|done].
  intros [= <-]. simpl.
  assert (node ∉ path) as Hfresh.
  { intros Hin. apply Hrec. rewrite Hrs. by apply elem_of_list_to_set. }
  assert (rec_stack t = list_to_set (path ++ [node]) ∧
          Forall simple_cycle (cycles t)) as [_ Ht]; [|done].
  revert Hloop.
  apply (for_each_invariant
           (λ s, rec_stack s = list_to_set (path ++ [node]) ∧
                 Forall simple_cycle (cycles s))).
  - simpl. split; [|done]. rewrite Hrs, list_to_set_app_L. simpl. set_solver.
  - intros x u u' _ [Hu Hus] Hx. split.
    + by rewrite (dfs_rec_stack _ _ _ _ _ _ Hx).
    + eapply (IH x (path ++ [node]) u); [done| |done..].
      apply NoDup_app. split_and!; [done| |apply NoDup_singleton].
      intros y Hy ->%list_elem_of_singleton. done.
Qed.

(** X1.  [add_dependency] adds the edge from the dependency to the dependent
    and both ends as nodes, and nothing else. *)
Theorem add_dependency_adds_one_edge (g : DependencyGraph)
    (dependent dependency : string) :
  (∀ u v, edge (add_dependency g dependent dependency) u v ↔
          edge g u v ∨ (u = dependency ∧ v = dependent)) ∧
  (∀ n, n ∈ nodes (add_dependency g dependent dependency) ↔
        n ∈ nodes g ∨ n = dependent ∨ n = dependency).
Proof.
  split; [intros u v; apply edge_add_dependency|].
  intros n. simpl. rewrite !elem_of_set_add. naive_solver.
Qed.

Lemma built_wf (g : DependencyGraph) : built g → wf_graph g.
Proof.
  induction 1; [apply wf_graph_empty|by apply wf_graph_add_node|].
  by apply wf_graph_add_dependency.
Qed.

Lemma built_mirrored (g : DependencyGraph) : built g → mirrored g.
Proof.
  induction 1 as [|g n _ IH|g d p _ IH].
  - intros u v. unfold empty_graph. simpl.
    rewrite !lookup_total_empty. split; inversion 1.
  - done.
  - by apply mirrored_add_dependency.
Qed.

(** X2.  Every graph built from the empty graph by adding nodes and
    dependencies has duplicate-free node and successor sets, edges between
    nodes only, and [reverse_edges] holding exactly the edges reversed. *)
Theorem built_graph_invariant (g : DependencyGraph) :
  built g → wf_graph g ∧ mirrored g.
Proof. intros Hg. split; [by apply built_wf|by apply built_mirrored]. Qed.

(** X3.  Adding a dependency that is already there changes nothing. *)
Theorem add_dependency_idempotent (g : DependencyGraph)
    (dependent dependency : string) :
  add_dependency (add_dependency g dependent dependency) dependent dependency
  = add_dependency g dependent dependency.
Proof.
  unfold add_dependency. simpl. f_equal.
  - rewrite (set_add_elem dependent); [|rewrite !elem_of_set_add; auto].
    apply set_add_elem. rewrite !elem_of_set_add. auto.
  - rewrite lookup_total_insert_eq, insert_insert_eq. f_equal.
    apply set_add_elem. rewrite elem_of_set_add. auto.
  - rewrite lookup_total_insert_eq, insert_insert_eq. f_equal.
    apply set_add_elem. rewrite elem_of_set_add. auto.
Qed.

(** X4.  On an acyclic graph, [topological_sort] still returns an order after
    [add_dependency(dependent, dependency)] exactly when the dependency did
    not already depend, directly or through other attributes, on the
    dependent (or is the dependent itself). *)
Theorem add_dependency_sortable_iff (g : DependencyGraph)
    (dependent dependency : string) :
  wf_graph g → acyclic g →
  (∃ order, topological_sort (add_dependency g dependent dependency)
            = Returns order) ↔
  ¬ rtc (edge g) dependent dependency.
Proof.
  intros Hwf Hacyc.
  pose proof (wf_graph_add_dependency g dependent dependency Hwf) as Hwf'.
  split.
  - intros [order Horder] Hreach.
    destruct (topological_sort_cyclic _ Hwf') as (Hraise & _).
    + exists dependent. eapply tc_rtc_l.
      * by apply rtc_add_dependency_mono.
      * apply tc_once, edge_add_dependency. by right.
    + congruence.
  - intros Hnp.
    destruct (topological_sort_acyclic _ Hwf'
                (acyclic_add_dependency g _ _ Hacyc Hnp)) as (order & ? & _).
    by exists order.
Qed.

(** X5.  On a graph of the registry, [topological_sort] raises only the error
    that carries the cycles [find_cycles] returns; its check for an
    unexpected cycle after the queue has run empty never fails. *)
Theorem topological_sort_raises_only_cycles (g : DependencyGraph) (e : exn) :
  wf_graph g → topological_sort g = Raises e →
  e = CyclesDetected (find_cycles g) ∧ find_cycles g ≠ [] ∧
  ∀ remaining, e ≠ UnexpectedCycle remaining.
Proof.
  intros Hwf Hraise. destruct (find_cycles g) as [|c cs] eqn:Hc.
  - destruct (topological_sort_acyclic g Hwf) as (order & Horder & _).
    + by apply find_cycles_nil_acyclic.
    + congruence.
  - destruct (topological_sort_cyclic g Hwf) as (Hr & _).
    + apply (genuine_cycle_closed_walk g c), find_cycles_genuine.
      rewrite Hc. left.
    + rewrite Hc in Hr. rewrite Hr in Hraise. injection Hraise as <-.
      by split_and!.
Qed.

(** X6.  Every cycle [find_cycles] returns is simple: it starts and ends at
    the same node and repeats no other node. *)
Theorem find_cycles_simple (g : DependencyGraph) (c : list string) :
  c ∈ find_cycles g → simple_cycle c.
Proof.
  unfold find_cycles.
  pose proof (is_Some_proj_eq _ (find_cycles_loop_terminates g)) as Hloop.
  revert Hloop. generalize (is_Some_proj (find_cycles_loop_terminates g)).
  intros st Hloop Hc.
  assert (rec_stack st = ∅ ∧ Forall simple_cycle (cycles st)) as [_ Hall].
  { revert Hloop. unfold find_cycles_loop.
    apply (for_each_invariant
             (λ s, rec_stack s = ∅ ∧ Forall simple_cycle (cycles s)));
      [by split|].
    intros node s s' _ [Hrs Hs]. case_decide; [by intros [= <-]|].
    intros Hdfs. split.
    - by rewrite (dfs_rec_stack _ _ _ _ _ _ Hdfs).
    - eapply dfs_cycles_simple; [| |done..]; [done|constructor]. }
  by apply (proj1 (Forall_forall _ _) Hall).
Qed.
(** ** Numbers and strings *)

(** The arithmetic the engine performs on attribute values.  The engine is
    generic in it: what is proved below holds for any implementation of the
    operations, the binary floating point of the interpreter included. *)
Class Number (V : Type) := {
  num_lit : Q → V;            (* a numeric literal of the source *)
  num_add : V → V → V;        (* x + y *)
  num_sub : V → V → V;        (* x - y *)
  num_div : V → V → V;        (* x / y *)
  num_abs : V → V;            (* abs(x) *)
  num_ltb : V → V → bool;     (* x < y *)
  num_round2 : V → V;         (* round(x, 2) *)
  num_abs_sub : ∀ x y, num_abs (num_sub x y) = num_abs (num_sub y x)
}.

(** [max(x, y)]: the first of the largest arguments. *)
Definition num_max {V : Type} `{Number V} (x y : V) : V :=
  if num_ltb x y then y else x.

(** [sum(l)]. *)
Definition num_sum {V : Type} `{Number V} (l : list V) : V :=
  fold_left num_add l (num_lit 0%Q).

(** Exact rational arithmetic, kept in lowest terms. *)
Definition Q_round_half_even (q : Q) : Z :=
  let f := Qfloor q in
  match Qcompare (q - inject_Z f) (1 # 2) with
  | Lt => f
  | Gt => f + 1
  | Eq => if Z.even f then f else f + 1
  end.

Lemma Q_abs_sub (x y : Q) :
  Qred (Qabs (Qred (x - y))) = Qred (Qabs (Qred (y - x))).
Proof.
  apply Qred_complete. rewrite !Qred_correct.
  by rewrite (Qabs_Qminus x y).
Qed.

Global Instance Q_Number : Number Q := {|
  num_lit q := Qred q;
  num_add x y := Qred (x + y);
  num_sub x y := Qred (x - y);
  num_div x y := Qred (x / y);
  num_abs x := Qred (Qabs x);
  num_ltb x y := bool_decide (Qnum x * Z.pos (Qden y) < Qnum y * Z.pos (Qden x));
  num_round2 x := Qred (Qmake (Q_round_half_even (x * 100)) 100);
  num_abs_sub := Q_abs_sub
|}.

(** Strings are the UTF-8 encodings of the interpreter's strings. *)

(** [c.lower()] for an ASCII character. *)
Definition lower_ascii (c : Ascii.ascii) : Ascii.ascii :=
  let n := Ascii.nat_of_ascii c in
  if (Nat.leb 65 n && Nat.leb n 90)%bool then Ascii.ascii_of_nat (n + 32) else c.

(** The character with the code [n]. *)
Definition byte (n : nat) : Ascii.ascii := Ascii.ascii_of_nat n.

(** [s.lower()], as far as a test [needle in s.lower()] with an ASCII needle
    can tell.  Two characters outside ASCII have ASCII characters in their
    lower case: U+212A (the bytes 226 132 170), which becomes [k] (107),
    and U+0130 (196 176), which becomes [i] (105) followed by U+0307
    (204 135).  Every
    other character outside ASCII has a lower case outside ASCII, and is
    left as it is. *)
Fixpoint lower (s : string) : string :=
  match s with
  | EmptyString => EmptyString
  | String c s' =>
    if Ascii.eqb c (byte 226) then
      match s' with
      | String c1 (String c2 s3) =>
        if (Ascii.eqb c1 (byte 132) && Ascii.eqb c2 (byte 170))%bool
        then String (byte 107) (lower s3)
        else String c (lower s')
      | _ => String c (lower s')
      end
    else if Ascii.eqb c (byte 196) then
      match s' with
      | String c1 s2 =>
        if Ascii.eqb c1 (byte 176)
        then String (byte 105) (String (byte 204) (String (byte 135) (lower s2)))
        else String c (lower s')
      | _ => String c (lower s')
      end
    else String (lower_ascii c) (lower s')
  end.


(** [needle in s]. *)
Fixpoint contains (needle s : string) : bool :=
  (String.prefix needle s ||
   match s with
   | EmptyString => false
   | String _ s' => contains needle s'
   end)%bool.

(** *** What [needle in s.lower()] decides *)

(** The characters of [s] are ASCII characters. *)
Fixpoint ascii_only (s : string) : Prop :=
  match s with
  | EmptyString => True
  | String c s' => (Ascii.nat_of_ascii c < 128)%nat ∧ ascii_only s'
  end.

Definition upper_case (c : Ascii.ascii) : Prop :=
  (65 ≤ Ascii.nat_of_ascii c ≤ 90)%nat.

Fixpoint no_upper_case (s : string) : Prop :=
  match s with
  | EmptyString => True
  | String c s' => ¬ upper_case c ∧ no_upper_case s'
  end.

(** The same character, or the same letter in upper and in lower case. *)
Definition same_letter (c d : Ascii.ascii) : Prop :=
  c = d ∨
  (upper_case c ∧ Ascii.nat_of_ascii d = Ascii.nat_of_ascii c + 32)%nat ∨
  (upper_case d ∧ Ascii.nat_of_ascii c = Ascii.nat_of_ascii d + 32)%nat.

(** Two strings that differ in the case of letters only. *)
Inductive same_letters : string → string → Prop :=
  | same_letters_nil : same_letters EmptyString EmptyString
  | same_letters_cons c d w n :
      same_letter c d → same_letters w n →
      same_letters (String c w) (String d n).

(** [s] contains [needle], case-insensitively: some part of [s] differs
    from [needle] in the case of letters only. *)
Definition contains_ignoring_case (needle s : string) : Prop :=
  ∃ pre w post, s = pre +:+ w +:+ post ∧ same_letters w needle.

Lemma prefix_spec (needle s : string) :
  String.prefix needle s = true ↔ ∃ post, s = needle +:+ post.
Proof.
  revert s. induction needle as [|c needle IH]; intros s.
  { split; [intros _; by exists s|by destruct s]. }
  destruct s as [|d s]; [split; [done|by intros [? [=]]]|].
  cbn [String.prefix]. destruct (Ascii.ascii_dec c d) as [->|Hne].
  - rewrite IH. split; intros [post Hpost]; exists post.
    + simpl. by rewrite Hpost.
    + simpl in Hpost. by injection Hpost.
  - split; [done|]. intros [post [= ? ?]]. congruence.
Qed.

Lemma contains_spec (needle s : string) :
  contains needle s = true ↔ ∃ pre post, s = pre +:+ needle +:+ post.
Proof.
  induction s as [|c s IH]; cbn [contains].
  - rewrite orb_false_r, prefix_spec. split.
    + intros [post Hpost]. by exists EmptyString, post.
    + intros (pre & post & Hs). destruct pre; [by exists post|done].
  - rewrite orb_true_iff, prefix_spec, IH. split.
    + intros [[post Hpost]|(pre & post & ->)].
      * by exists EmptyString, post.
      * by exists (String c pre), post.
    + intros ([|d pre] & post & Hs).
      * left. by exists post.
      * right. exists pre, post. simpl in Hs. by injection Hs.
Qed.

Lemma eqb_byte_ascii (c : Ascii.ascii) (n : nat) :
  (Ascii.nat_of_ascii c < 128)%nat → (128 ≤ n < 256)%nat →
  Ascii.eqb c (byte n) = false.
Proof.
  intros Hc Hn. apply Ascii.eqb_neq. intros ->. unfold byte in Hc.
  rewrite Ascii.nat_ascii_embedding in Hc; lia.
Qed.

Lemma lower_cons (c : Ascii.ascii) (s : string) :
  (Ascii.nat_of_ascii c < 128)%nat →
  lower (String c s) = String (lower_ascii c) (lower s).
Proof.
  intros Hc. cbn [lower].
  by rewrite !eqb_byte_ascii by (done || lia).
Qed.

Lemma ascii_only_app (s1 s2 : string) :
  ascii_only (s1 +:+ s2) ↔ ascii_only s1 ∧ ascii_only s2.
Proof. induction s1 as [|c s1 IH]; simpl; [tauto|]. rewrite IH. tauto. Qed.

Lemma lower_app (s1 s2 : string) :
  ascii_only s1 → lower (s1 +:+ s2) = lower s1 +:+ lower s2.
Proof.
  induction s1 as [|c s1 IH]; [done|]. intros [Hc Hs1].
  change (String c s1 +:+ s2) with (String c (s1 +:+ s2)).
  rewrite !lower_cons by done. simpl. by rewrite IH.
Qed.

Lemma lower_split (s a b : string) :
  ascii_only s → lower s = a +:+ b →
  ∃ s1 s2, s = s1 +:+ s2 ∧ lower s1 = a ∧ lower s2 = b.
Proof.
  revert s. induction a as [|x a IH]; intros s Hs Hl.
  { by exists EmptyString, s. }
  destruct s as [|c s]; [done|]. destruct Hs as [Hc Hs].
  rewrite lower_cons in Hl by done. simpl in Hl. injection Hl as Hx Hl.
  destruct (IH s Hs Hl) as (s1 & s2 & -> & H1 & H2).
  exists (String c s1), s2. split_and!; [done| |done].
  rewrite lower_cons by done. congruence.
Qed.

Lemma lower_ascii_same_letter (c d : Ascii.ascii) :
  ¬ upper_case d → lower_ascii c = d ↔ same_letter c d.
Proof.
  intros Hd. unfold lower_ascii, same_letter, upper_case in *. cbv zeta.
  destruct (Nat.leb_spec 65 (Ascii.nat_of_ascii c)) as [H65|H65],
           (Nat.leb_spec (Ascii.nat_of_ascii c) 90) as [H90|H90];
    cbn [andb].
  - split.
    + intros <-. right. left. split; [lia|].
      rewrite Ascii.nat_ascii_embedding; lia.
    + intros [->|[[_ Hcd]|[Hup _]]]; [lia| |lia].
      rewrite <- Hcd. apply Ascii.ascii_nat_embedding.
  - split; [by left|]. intros [?|[[? _]|[? _]]]; [done|lia..].
  - split; [by left|]. intros [?|[[? _]|[? _]]]; [done|lia..].
  - split; [by left|]. intros [?|[[? _]|[? _]]]; [done|lia..].
Qed.

Lemma lower_same_letters (w needle : string) :
  ascii_only w → no_upper_case needle →
  lower w = needle ↔ same_letters w needle.
Proof.
  revert needle. induction w as [|c w IH]; intros needle Hw Hn.
  { split; [intros <-; constructor|by inversion 1]. }
  destruct Hw as [Hc Hw]. rewrite lower_cons by done.
  destruct needle as [|d needle]; [split; [done|inversion 1]|].
  destruct Hn as [Hd Hn]. split.
  - intros [= Hcd Hl]. constructor; [by apply lower_ascii_same_letter|].
    by apply IH.
  - inversion 1 as [|? ? ? ? Hcd Hl]; subst. f_equal.
    + by apply lower_ascii_same_letter.
    + by apply IH.
Qed.

(** On an ASCII string, the test [needle in s.lower()] with a needle
    without upper-case letters decides case-insensitive containment. *)
Lemma contains_lower_spec (needle s : string) :
  ascii_only s → no_upper_case needle →
  contains needle (lower s) = true ↔ contains_ignoring_case needle s.
Proof.
  intros Hs Hn. rewrite contains_spec. split.
  - intros (pre' & post' & Hl).
    destruct (lower_split s pre' (needle +:+ post') Hs Hl)
      as (pre & rest & -> & Hpre & Hrest).
    apply ascii_only_app in Hs as [_ Hrest_ascii].
    destruct (lower_split rest needle post' Hrest_ascii Hrest)
      as (w & post & -> & Hw & Hpost).
    apply ascii_only_app in Hrest_ascii as [Hw_ascii _].
    exists pre, w, post. split; [done|]. by apply lower_same_letters.
  - intros (pre & w & post & -> & Hw).
    apply ascii_only_app in Hs as [Hpre [Hw_ascii _]%ascii_only_app].
    exists (lower pre), (lower post).
    rewrite lower_app, lower_app by done.
    by rewrite (proj2 (lower_same_letters w needle Hw_ascii Hn) Hw).
Qed.

Ltac no_upper_case_needle :=
  cbn [no_upper_case]; unfold upper_case; repeat split;
  let H1 := fresh in let H2 := fresh in
  intros [H1 H2]; vm_compute in H1, H2; lia.

(** ** Insertion-ordered dictionaries *)

Definition dict (A : Type) : Type := list (string * A).

(** [d.get(k)]; [k in d] is [is_Some (dict_get k d)]. *)
Fixpoint dict_get {A : Type} (k : string) (d : dict A) : option A :=
  match d with
  | [] => None
  | (k', v) :: d' => if decide (k' = k) then Some v else dict_get k d'
  end.

(** [d[k] = v]: a present key keeps its place, a new one goes last. *)
Fixpoint dict_set {A : Type} (k : string) (v : A) (d : dict A) : dict A :=
  match d with
  | [] => [(k, v)]
  | (k', v') :: d' =>
    if decide (k' = k) then (k, v) :: d' else (k', v') :: dict_set k v d'
  end.

(** In-place change of the object stored under [k]. *)
Fixpoint dict_update {A : Type} (f : A → A) (k : string) (d : dict A) : dict A :=
  match d with
  | [] => []
  | (k', v) :: d' =>
    if decide (k' = k) then (k', f v) :: d' else (k', v) :: dict_update f k d'
  end.

Definition dict_values {A : Type} (d : dict A) : list A := d.*2.

(** ** Logging *)

Inductive log_level := DEBUG | INFO | WARNING | ERROR.

(** ** The model: attributes, blocks, simulation

    The methods of [STKSimulation] that make up a run read
    [self.dependency_graph], which a run never changes, and read and update
    the attribute objects held by [self.blocks]: they take the graph [g] and
    the blocks [bs], and return the blocks after the call together with the
    records they logged.  Every attribute object is taken to be held by one
    block under one key. *)

Inductive AttributeType := INPUT | CALCULATED.

Global Instance AttributeType_eq_dec : EqDecision AttributeType.
Proof. solve_decision. Defined.

Inductive error_text :=
  | ErrException (e : exn)                    (* str(e) *)
  | ErrFailedCalculations (ids : gset string).
      (* "Failed calculations: [...]": the ids the text lists; the order it
         lists them in, that of the dict, is not recorded *)

(** The dict [validation_metrics], without its time stamp. *)
Record metrics_t := mkMetrics {
  total_attributes : nat;
  successful_calculations : nat
}.

Section engine.
Context {V : Type} `{Number V}.

(** What a log message interpolates. *)
Inductive log_arg :=
  | LStr (s : string)
  | LVal (v : option V)
  | LIds (l : list string)
  | LIdSet (ids : gset string)
  | LCycles (cs : list (list string))
  | LNat (n : nat)
  | LExn (e : exn).

(** A record of the module's logger: level, message text, arguments.
    ([logger.debug] calls are below the configured level and leave none.) *)
Record log_record := Log {
  log_level_of : log_level;
  log_message : string;
  log_args : list log_arg
}.

(** [context] and [dep_values]: ids to values that may be [None]. *)
Abbreviation context_t := (gmap string (option V)).

(** A user calculation receives a map of values and the metadata, and
    returns a number or raises. *)
Definition calculation : Type := context_t → gmap string V → try V.

Record Attribute := mkAttribute {
  attr_id : string;
  attr_name : string;
  attribute_type : AttributeType;
  value : option V;
  dependencies : list string;
  calculation_logic : option calculation;
  metadata : gmap string V
}.

(** [attr.value = v]. *)
Definition set_value (v : option V) (a : Attribute) : Attribute :=
  mkAttribute (attr_id a) (attr_name a) (attribute_type a) v
              (dependencies a) (calculation_logic a) (metadata a).

Record Block := mkBlock {
  block_id : string;
  block_name : string;
  attributes : dict Attribute
}.

Definition with_attributes (b : Block) (attrs : dict Attribute) : Block :=
  mkBlock (block_id b) (block_name b) attrs.

Record STKSimulation := mkSim {
  sim_id : string;
  blocks : dict Block;
  scenario_overrides : dict V;
  dependency_graph : DependencyGraph
}.

Definition with_blocks (self : STKSimulation) (bs : dict Block)
  : STKSimulation :=
  mkSim (sim_id self) bs (scenario_overrides self) (dependency_graph self).

(** *** Attribute.calculate *)

(** [{dep_id: context.get(dep_id) for dep_id in self.dependencies}]. *)
Definition dep_values (a : Attribute) (context : context_t) : context_t :=
  fold_left (λ m dep_id, <[dep_id := default None (context !! dep_id)]> m)
            (dependencies a) ∅.

(** Returns the outcome, the attribute after the call and the records
    logged. *)
Definition Attribute_calculate (a : Attribute) (context : context_t)
  : try (option V) * Attribute * list log_record :=
  match attribute_type a with
  | INPUT => (Returns (value a), a, [])
  | CALCULATED =>
    match calculation_logic a with
    | None => (Raises (MissingCalculationLogic (attr_id a)), a, [])
    | Some logic =>
      match logic (dep_values a context) (metadata a) with
      | Returns result => (Returns (Some result), set_value (Some result) a, [])
      | Raises e =>
        (Raises e, a,
         [Log ERROR "Calculation failed for attribute" [LStr (attr_id a); LExn e]])
      end
    end
  end.

(** *** Block *)

Definition add_attribute (b : Block) (attribute : Attribute)
  : Block * list log_record :=
  (with_attributes b (dict_set (attr_id attribute) attribute (attributes b)),
   [Log INFO "Added attribute to block"
        [LStr (attr_name attribute); LStr (block_name b)]]).

Definition get_attribute (b : Block) (attribute_id : string)
  : option Attribute :=
  dict_get attribute_id (attributes b).

(** *** STKSimulation: registry *)

(** [_find_attribute_by_id]: the attribute of the first block that has the
    key, with the key of that block. *)
Fixpoint find_in_blocks (bs : dict Block) (id : string)
  : option (string * Attribute) :=
  match bs with
  | [] => None
  | (bk, b) :: bs' =>
    match dict_get id (attributes b) with
    | Some a => Some (bk, a)
    | None => find_in_blocks bs' id
    end
  end.

Definition find_attribute_by_id (self : STKSimulation) (id : string)
  : option Attribute :=
  snd <$> find_in_blocks (blocks self) id.

(** In-place change of the attribute object stored in block [bk] under
    [ak]. *)
Definition update_attribute (f : Attribute → Attribute) (bk ak : string)
    (bs : dict Block) : dict Block :=
  dict_update (λ b, with_attributes b (dict_update f ak (attributes b))) bk bs.

(** In-place change of the attribute object [_find_attribute_by_id]
    returns. *)
Fixpoint update_found (f : Attribute → Attribute) (id : string)
    (bs : dict Block) : dict Block :=
  match bs with
  | [] => []
  | (bk, b) :: bs' =>
    match dict_get id (attributes b) with
    | Some _ => (bk, with_attributes b (dict_update f id (attributes b))) :: bs'
    | None => (bk, b) :: update_found f id bs'
    end
  end.

(** Every attribute object, block after block. *)
Definition all_attributes (bs : dict Block) : list Attribute :=
  b ← dict_values bs; dict_values (attributes b).

Definition add_block (self : STKSimulation) (block : Block)
  : STKSimulation * list log_record :=
  let bs := dict_set (block_id block) block (blocks self) in
  let attrs := dict_values (attributes block) in
  let g1 := fold_left (λ g a, add_node g (attr_id a)) attrs
                      (dependency_graph self) in
  let '(g2, log) :=
    fold_left
      (λ '(g, log) a,
         match attribute_type a with
         | CALCULATED =>
           fold_left
             (λ '(g, log) dep_id,
                match find_in_blocks bs dep_id with
                | Some _ => (add_dependency g (attr_id a) dep_id, log)
                | None =>
                  (g, log ++ [Log WARNING "Dependency not found for attribute"
                                  [LStr dep_id; LStr (attr_id a)]])
                end)
             (dependencies a) (g, log)
         | INPUT => (g, log)
         end)
      attrs (g1, []) in
  (mkSim (sim_id self) bs (scenario_overrides self) g2,
   log ++ [Log INFO "Added block with attributes"
               [LStr (block_name block); LNat (length (attributes block))]]).

Definition set_scenario_override (self : STKSimulation) (attribute_id : string)
    (v : V) : STKSimulation * list log_record :=
  (mkSim (sim_id self) (blocks self)
         (dict_set attribute_id v (scenario_overrides self))
         (dependency_graph self),
   [Log INFO "Set override for" [LStr attribute_id; LVal (Some v)]]).
(** *** The workflow state *)

(** [SimulationState], without the two entries no node reads
    (["blocks"], ["dependency_graph"]). *)
Record SimulationState := mkState {
  simulation_id : string;
  state_scenario_overrides : dict V;
  execution_order : list string;
  calculated_values : context_t;
  cycles_detected : list (list string);
  status : string;
  error_message : option error_text;
  metrics : option metrics_t
}.

Definition with_status (s : string) (st : SimulationState) : SimulationState :=
  mkState (simulation_id st) (state_scenario_overrides st) (execution_order st)
          (calculated_values st) (cycles_detected st) s (error_message st)
          (metrics st).

Definition with_cycles_detected (cs : list (list string))
    (st : SimulationState) : SimulationState :=
  mkState (simulation_id st) (state_scenario_overrides st) (execution_order st)
          (calculated_values st) cs (status st) (error_message st) (metrics st).

Definition with_calculated_values (cv : context_t) (st : SimulationState)
  : SimulationState :=
  mkState (simulation_id st) (state_scenario_overrides st) (execution_order st)
          cv (cycles_detected st) (status st) (error_message st) (metrics st).

Definition with_execution_order (order : list string) (st : SimulationState)
  : SimulationState :=
  mkState (simulation_id st) (state_scenario_overrides st) order
          (calculated_values st) (cycles_detected st) (status st)
          (error_message st) (metrics st).

Definition with_error_message (e : error_text) (st : SimulationState)
  : SimulationState :=
  mkState (simulation_id st) (state_scenario_overrides st) (execution_order st)
          (calculated_values st) (cycles_detected st) (status st) (Some e)
          (metrics st).

Definition with_metrics (m : metrics_t) (st : SimulationState)
  : SimulationState :=
  mkState (simulation_id st) (state_scenario_overrides st) (execution_order st)
          (calculated_values st) (cycles_detected st) (status st)
          (error_message st) (Some m).

(** The values of all attributes that hold one, in a fresh dict:
    [for block in self.blocks.values(): for attr in
    block.attributes.values(): if attr.value is not None:
    context[attr.id] = attr.value]. *)
Definition current_values (bs : dict Block) : context_t :=
  fold_left (λ context a,
               match value a with
               | Some v => <[attr_id a := Some v]> context
               | None => context
               end)
            (all_attributes bs) ∅.

(** *** initialize_simulation *)

(** Body of [for attr_id, override_value in
    state["scenario_overrides"].items()]. *)
Definition apply_override (st : dict Block * list log_record)
    (override : string * V) : dict Block * list log_record :=
  let attr_id := override.1 in
  let override_value := override.2 in
  match find_in_blocks st.1 attr_id with
  | Some _ =>
    (update_found (set_value (Some override_value)) attr_id st.1,
     st.2 ++ [Log INFO "Applied override"
                  [LStr attr_id; LVal (Some override_value)]])
  | None => st
  end.

Definition initialize_simulation (g : DependencyGraph) (bs : dict Block)
    (state : SimulationState)
  : dict Block * SimulationState * list log_record :=
  let st := fold_left apply_override (state_scenario_overrides state)
              (bs,
               [Log INFO "Initializing simulation"
                    [LStr (simulation_id state)]]) in
  (st.1, with_status "initialized" state, st.2).

(** *** detect_cycles *)

Definition detect_cycles (g : DependencyGraph) (bs : dict Block)
    (state : SimulationState)
  : dict Block * SimulationState * list log_record :=
  let cycles := find_cycles g in
  let state := with_cycles_detected cycles state in
  match cycles with
  | _ :: _ =>
    (bs, with_status "cycles_detected" state,
     [Log INFO "Running cycle detection analysis" [];
      Log WARNING "Cycles detected" [LCycles cycles]])
  | [] =>
    (bs, with_status "cycles_clear" state,
     [Log INFO "Running cycle detection analysis" [];
      Log INFO "No cycles detected - proceeding with execution" []])
  end.

(** *** _calculate_non_cyclic_dependencies *)

(** The temporary graph: the nodes, and the edges not inside the cycle. *)
Definition non_cyclic_graph (g : DependencyGraph) (cycle_set : gset string)
  : DependencyGraph :=
  fold_left
    (λ temp_graph node,
       fold_left
         (λ temp_graph dependent,
            if decide (node ∈ cycle_set ∧ dependent ∈ cycle_set)
            then temp_graph
            else add_dependency temp_graph dependent node)
         (successors g node) temp_graph)
    (nodes g) (mkGraph (nodes g) ∅ ∅).

Definition pre_cycle_step (cycle_set : gset string)
    (st : dict Block * context_t * list log_record) (attr_id : string)
  : dict Block * context_t * list log_record :=
  let '(bs, context, log) := st in
  if decide (attr_id ∈ cycle_set) then st
  else
    match find_in_blocks bs attr_id with
    | None => st
    | Some (bk, attr) =>
      match attribute_type attr with
      | INPUT => (bs, <[attr_id := value attr]> context, log)
      | CALCULATED =>
        match calculation_logic attr with
        | None => st
        | Some _ =>
          if forallb (λ dep_id, bool_decide (dep_id ∉ cycle_set)
                                || bool_decide (is_Some (context !! dep_id)))
                     (dependencies attr)
          then
            match Attribute_calculate attr context with
            | (Returns result, attr', l) =>
              (update_found (λ _, set_value result attr') attr_id bs,
               <[attr_id := result]> context,
               log ++ l ++ [Log INFO "Pre-calculated non-cyclic"
                                [LStr attr_id; LVal result]])
            | (Raises e, _, l) =>
              (bs, context,
               log ++ l ++ [Log ERROR "Failed to pre-calculate"
                                [LStr attr_id; LExn e]])
            end
          else
            (bs, context,
             log ++ [Log INFO "Skipping - depends on cyclic attributes"
                         [LStr attr_id;
                          LIds (filter (λ dep, dep ∈ cycle_set)
                                       (dependencies attr))]])
        end
      end
    end.

Definition calculate_non_cyclic_dependencies (g : DependencyGraph)
    (bs : dict Block) (cycle : list string) : dict Block * list log_record :=
  let cycle_set : gset string := list_to_set cycle in
  let temp_graph := non_cyclic_graph g cycle_set in
  let log := [Log INFO "Calculating non-cyclic dependencies first" []] in
  match topological_sort temp_graph with
  | Returns execution_order =>
    let '(bs', _, log') :=
      fold_left (pre_cycle_step cycle_set) execution_order (bs, ∅, log) in
    (bs', log')
  | Raises e =>
    (bs,
     log ++ [Log WARNING "Could not pre-calculate non-cyclic dependencies"
                 [LExn e]])
  end.

(** *** _detect_oscillation and _stabilize_oscillating_values *)

(** [history[-4:]]. *)
Definition last4 (history : list V) : list V :=
  drop (length history - 4) history.

(** The test on one history inside the loop of [_detect_oscillation]. *)
Definition oscillating (history : list V) : bool :=
  if decide (4 ≤ length history)%nat then
    match last4 history with
    | [r0; r1; r2; r3] =>
      num_ltb (num_abs (num_sub r0 r2)) (num_lit (1 # 10)%Q)
      && num_ltb (num_abs (num_sub r1 r3)) (num_lit (1 # 10)%Q)
    | _ => false
    end
  else false.

Definition detect_oscillation (value_history : dict (list V))
    (iteration : nat) : bool :=
  if decide (iteration < 4)%nat then false
  else existsb oscillating (dict_values value_history).

(** [round(sum(recent_values) / len(recent_values), 2)]. *)
Definition stabilized_value (history : list V) : V :=
  let recent_values :=
    if decide (4 ≤ length history)%nat then last4 history else history in
  num_round2 (num_div (num_sum recent_values)
                      (num_lit (inject_Z (Z.of_nat (length recent_values))))).

Definition stabilize_step (value_history : dict (list V))
    (st : dict Block * list log_record) (attr_id : string)
  : dict Block * list log_record :=
  match dict_get attr_id value_history with
  | Some history =>
    if decide (2 ≤ length history)%nat then
      match find_in_blocks st.1 attr_id with
      | Some _ =>
        (update_found (set_value (Some (stabilized_value history)))
                      attr_id st.1,
         st.2 ++ [Log INFO "Stabilized to average value"
                      [LStr attr_id; LVal (Some (stabilized_value history))]])
      | None => st
      end
    else st
  | None => st
  end.

Definition stabilize_oscillating_values (bs : dict Block)
    (cycle : list string) (value_history : dict (list V))
  : dict Block * list log_record :=
  fold_left (stabilize_step value_history) cycle (bs, []).
(** *** _resolve_cycle_iteratively *)

(** The seed of step 2. *)
Definition seed_value (attr_id : string) : V :=
  if contains "selling_price" (lower attr_id) then num_lit 50%Q
  else if contains "market_demand" (lower attr_id) then num_lit 1000%Q
  else num_lit 100%Q.

(** Body of the seeding loop [for attr_id in cycle]. *)
Definition seed_step (st : dict Block * list log_record) (attr_id : string)
  : dict Block * list log_record :=
  match find_in_blocks st.1 attr_id with
  | Some (bk, attr) =>
    match value attr with
    | None =>
      (update_found (set_value (Some (seed_value attr_id))) attr_id st.1,
       st.2 ++ [Log INFO "Initialized with seed value"
                    [LStr attr_id; LVal (Some (seed_value attr_id))]])
    | Some _ => st
    end
  | None => st
  end.

(** The seeding loop of step 2. *)
Definition seed_cycle (bs : dict Block) (cycle : list string)
  : dict Block * list log_record :=
  fold_left seed_step cycle (bs, []).

Definition convergence_threshold : V := num_lit (5 # 100)%Q.

(** [abs(new_value - previous) / max(abs(previous), 1e-6)]. *)
Definition change_pct (new_value previous : V) : V :=
  num_div (num_abs (num_sub new_value previous))
          (num_max (num_abs previous) (num_lit (1 # 1000000)%Q)).

(** Body of [for attr_id in cycle] inside one iteration; the state is the
    blocks, [value_history], [converged] and the log. *)
Definition cycle_step
    (st : dict Block * dict (list V) * bool * list log_record)
    (attr_id : string)
  : dict Block * dict (list V) * bool * list log_record :=
  let '(bs, value_history, converged, log) := st in
  match find_in_blocks bs attr_id with
  | Some (bk, attr) =>
    match calculation_logic attr with
    | Some logic =>
      let previous := value attr in
      match logic (current_values bs) (metadata attr) with
      | Returns new_value =>
        (update_found (set_value (Some new_value)) attr_id bs,
         dict_set attr_id
                  (default [] (dict_get attr_id value_history) ++ [new_value])
                  value_history,
         match previous with
         | Some p =>
           if num_ltb convergence_threshold (change_pct new_value p)
           then false else converged
         | None => converged
         end,
         log ++ [Log INFO "cycle attribute updated"
                     [LStr attr_id; LVal previous; LVal (Some new_value)]])
      | Raises e =>
        (bs, value_history, false,
         log ++ [Log ERROR "Error calculating in iteration"
                     [LStr attr_id; LExn e]])
      end
    | None => st
    end
  | None => st
  end.

(** [for iteration in range(max_iterations)], entered at [iteration] with
    [remaining] rounds left. *)
Fixpoint iterate (remaining iteration : nat) (cycle : list string)
    (bs : dict Block) (value_history : dict (list V)) (log : list log_record)
  : dict Block * list log_record :=
  match remaining with
  | O => (bs, log)
  | S remaining' =>
    let '(bs1, value_history1, converged, log1) :=
      fold_left cycle_step cycle
        (bs, value_history, true,
         log ++ [Log INFO "Iteration for cycle resolution"
                     [LNat (iteration + 1)]]) in
    if converged then
      (bs1, log1 ++ [Log INFO "Cycle converged after iterations"
                         [LNat (iteration + 1)]])
    else if decide (3 ≤ iteration)%nat then
      if detect_oscillation value_history1 iteration then
        let st := stabilize_oscillating_values bs1 cycle value_history1 in
        (st.1,
         log1 ++ [Log INFO "Oscillation detected, stabilizing with averages" []]
              ++ st.2)
      else iterate remaining' (S iteration) cycle bs1 value_history1 log1
    else iterate remaining' (S iteration) cycle bs1 value_history1 log1
  end.

Definition max_iterations : nat := 10.

(** *** _calculate_post_cycle_dependencies *)

(** The objects collected in [dependent_attrs], as (block key, attribute
    key). *)
Definition dependent_attrs (bs : dict Block) (cycle_set : gset string)
  : list (string * string) :=
  kb ← bs;
  ka ← attributes kb.2;
  if (bool_decide (attr_id ka.2 ∉ cycle_set)
      && bool_decide (attribute_type ka.2 = CALCULATED)
      && existsb (λ dep_id, bool_decide (dep_id ∈ cycle_set))
                 (dependencies ka.2))%bool
  then [(kb.1, ka.1)] else [].

Definition post_cycle_step (st : dict Block * context_t * list log_record)
    (loc : string * string) : dict Block * context_t * list log_record :=
  let '(bs, context, log) := st in
  match dict_get loc.1 bs ≫= λ b, dict_get loc.2 (attributes b) with
  | Some attr =>
    match calculation_logic attr with
    | Some _ =>
      match Attribute_calculate attr context with
      | (Returns result, attr', l) =>
        (update_attribute (λ _, set_value result attr') loc.1 loc.2 bs,
         <[attr_id attr := result]> context,
         log ++ l ++ [Log INFO "Post-cycle calculated"
                          [LStr (attr_id attr); LVal result]])
      | (Raises e, _, l) =>
        (bs, context,
         log ++ l ++ [Log ERROR "Failed to calculate post-cycle"
                          [LStr (attr_id attr); LExn e]])
      end
    | None => st
    end
  | None => st
  end.

Definition calculate_post_cycle_dependencies (bs : dict Block)
    (cycle : list string) : dict Block * list log_record :=
  let cycle_set : gset string := list_to_set cycle in
  let '(bs', _, log) :=
    fold_left post_cycle_step (dependent_attrs bs cycle_set)
      (bs, current_values bs,
       [Log INFO "Calculating post-cycle dependencies" []]) in
  (bs', log).

Definition resolve_cycle_iteratively (g : DependencyGraph) (bs : dict Block)
    (cycle : list string) : dict Block * list log_record :=
  let log0 := [Log INFO "Starting iterative resolution for cycle" [LIds cycle]] in
  (* Step 1 *)
  let pre := calculate_non_cyclic_dependencies g bs cycle in
  (* Step 2 *)
  let seeded := seed_cycle pre.1 cycle in
  (* Step 3 *)
  let iterated := iterate max_iterations 0 cycle seeded.1 [] [] in
  (* Step 4 *)
  let post := calculate_post_cycle_dependencies iterated.1 cycle in
  (post.1,
   log0 ++ pre.2 ++ seeded.2 ++ iterated.2
        ++ [Log INFO "Iterative cycle resolution completed" []] ++ post.2).

(** *** resolve_cycles *)

Definition resolve_cycles (g : DependencyGraph) (bs : dict Block)
    (state : SimulationState)
  : dict Block * SimulationState * list log_record :=
  let st :=
    fold_left
      (λ (st : dict Block * list log_record) cycle,
         let r := resolve_cycle_iteratively g st.1 cycle in
         (r.1, st.2 ++ r.2 ++ [Log INFO "Resolved cycle using iterative approach"
                                   [LIds cycle]]))
      (cycles_detected state)
      (bs, [Log INFO "Resolving detected cycles using iterative approach" []]) in
  (st.1, with_status "cycles_resolved" (with_cycles_detected [] state), st.2).

(** *** calculate_attributes *)

(** The default stored when a calculation raises. *)
Definition default_value (attr_id : string) : V :=
  if contains "price" (lower attr_id) then num_lit 50%Q
  else if contains "demand" (lower attr_id) then num_lit 1000%Q
  else if contains "margin" (lower attr_id) then num_lit 20%Q
  else num_lit 0%Q.

(** [dep_id not in context or context[dep_id] is None]. *)
Definition is_missing (context : context_t) (dep_id : string) : bool :=
  match context !! dep_id with
  | Some (Some _) => false
  | _ => true
  end.

(** [for dep_id in missing_deps: if dep_id not in context:
    context[dep_id] = 0]. *)
Definition fill_missing (missing_deps : list string) (context : context_t)
  : context_t :=
  fold_left (λ context dep_id,
               match context !! dep_id with
               | None => <[dep_id := Some (num_lit 0%Q)]> context
               | Some _ => context
               end)
            missing_deps context.

(** [missing_deps], and [context] once the defaults for them are in. *)
Definition missing_deps_of (attr : Attribute) (context : context_t)
  : list string :=
  filter (λ dep_id, is_missing context dep_id) (dependencies attr).

Definition context_for (attr : Attribute) (context : context_t) : context_t :=
  match missing_deps_of attr context with
  | [] => context
  | missing_deps => fill_missing missing_deps context
  end.

(** Body of [for attr_id in execution_order]; the state is the blocks,
    [calculated_values], [context] and the log. *)
Definition calculate_step
    (st : dict Block * context_t * context_t * list log_record)
    (attr_id : string)
  : dict Block * context_t * context_t * list log_record :=
  let '(bs, calculated_values, context, log) := st in
  match find_in_blocks bs attr_id with
  | Some (bk, attr) =>
    match attribute_type attr with
    | INPUT =>
      (bs, <[attr_id := value attr]> calculated_values,
       <[attr_id := value attr]> context, log)
    | CALCULATED =>
      let context1 := context_for attr context in
      let log1 :=
        match missing_deps_of attr context with
        | [] => log
        | missing_deps =>
          log ++ [Log WARNING "Missing dependencies for"
                      [LStr attr_id; LIds missing_deps]]
        end in
      match Attribute_calculate attr context1 with
      | (Returns result, attr', l) =>
        (update_found (λ _, attr') attr_id bs,
         <[attr_id := result]> calculated_values,
         <[attr_id := result]> context1, log1 ++ l)
      | (Raises e, _, l) =>
        (bs,
         <[attr_id := Some (default_value attr_id)]> calculated_values,
         <[attr_id := Some (default_value attr_id)]> context1,
         log1 ++ l
              ++ [Log ERROR "Calculation failed for attribute"
                      [LStr attr_id; LExn e];
                  Log INFO "Used default value for"
                      [LStr attr_id; LVal (Some (default_value attr_id))]])
      end
    end
  | None =>
    (bs, calculated_values, context,
     log ++ [Log WARNING "Attribute not found during calculation"
                 [LStr attr_id]])
  end.

Definition calculate_attributes (g : DependencyGraph) (bs : dict Block)
    (state : SimulationState)
  : dict Block * SimulationState * list log_record :=
  let log := [Log INFO "Executing attribute calculations" []] in
  if decide (status state = "cycles_resolved") then
    (bs,
     with_status "calculated"
       (with_calculated_values (current_values bs) state),
     log ++ [Log INFO "Using cycle-resolved values for calculation" []])
  else
    match topological_sort g with
    | Returns order =>
      let st := fold_left calculate_step order (bs, ∅, ∅, log) in
      (st.1.1.1,
       with_status "calculated"
         (with_calculated_values st.1.1.2
            (with_execution_order order state)),
       st.2)
    | Raises e =>
      (bs,
       with_status "calculation_failed"
         (with_error_message (ErrException e) state),
       log ++ [Log ERROR "Calculation failed" [LExn e]])
    end.

(** *** validate_results *)

(** [calculated_values] is read through its entries only: the count of
    entries, of non-null entries, and the ids of the null entries, which
    are recorded as a set. *)
Definition validate_results (g : DependencyGraph) (bs : dict Block)
    (state : SimulationState)
  : dict Block * SimulationState * list log_record :=
  let items := map_to_list (calculated_values state) in
  let validation_metrics :=
    mkMetrics (length items)
              (length (filter (λ kv, is_Some kv.2) items)) in
  let state := with_metrics validation_metrics state in
  let failed_calculations := (filter (λ kv, kv.2 = None) items).*1 in
  match failed_calculations with
  | _ :: _ =>
    (bs,
     with_error_message
       (ErrFailedCalculations (list_to_set failed_calculations))
       (with_status "validation_failed" state),
     [Log INFO "Validating simulation results" [];
      Log WARNING "Failed calculations detected"
          [LIdSet (list_to_set failed_calculations)]])
  | [] =>
    (bs, with_status "completed" state,
     [Log INFO "Validating simulation results" [];
      Log INFO "All validations passed" []])
  end.

(** *** The compiled workflow and run_simulation *)

Definition route_after_cycle_detection (state : SimulationState) : string :=
  match cycles_detected state with
  | _ :: _ => "resolve_cycles"
  | [] => "calculate"
  end.

(** [self.workflow.invoke(initial_state, config)]: the nodes run along the
    edges declared in [_create_langgraph_workflow], each on the state the
    previous one returned; the result is the state of the last node.  The
    argument [initial_state] itself is left as it is. *)
Definition workflow_invoke (g : DependencyGraph) (bs : dict Block)
    (initial_state : SimulationState)
  : dict Block * SimulationState * list log_record :=
  let n1 := initialize_simulation g bs initial_state in
  let n2 := detect_cycles g n1.1.1 n1.1.2 in
  let n3 :=
    if decide (route_after_cycle_detection n2.1.2 = "resolve_cycles")
    then resolve_cycles g n2.1.1 n2.1.2
    else (n2.1.1, n2.1.2, []) in
  let n4 := calculate_attributes g n3.1.1 n3.1.2 in
  let n5 := validate_results g n4.1.1 n4.1.2 in
  (n5.1.1, n5.1.2, n1.2 ++ n2.2 ++ n3.2 ++ n4.2 ++ n5.2).

(** The dict [run_simulation] returns, without ["execution_time"]. *)
Record results := mkResults {
  res_simulation_id : string;
  res_status : string;
  res_calculated_values : context_t;
  res_cycles_resolved : nat;
  res_metrics : option metrics_t;
  res_error_message : option error_text
}.

(** The record of a run in which [self.workflow.invoke] returns.  The nodes
    of this model always return: a calculation gives a number or raises,
    and what it raises is caught where the source catches it.  The [except]
    branch of the source (status "failed") is taken when [invoke] itself
    raises, as it does when a calculation of a cycle returns a value that is
    no number; such runs are outside of this model.  The reads of
    [edges], a defaultdict, add empty entries for the ids read; these change
    no successor set and are left out. *)
Definition run_simulation (self : STKSimulation)
  : STKSimulation * results * list log_record :=
  let initial_state :=
    mkState (sim_id self) (scenario_overrides self) [] ∅ [] "starting"
            None None in
  let run := workflow_invoke (dependency_graph self) (blocks self)
                             initial_state in
  let final_state := run.1.2 in
  (with_blocks self run.1.1,
   mkResults (sim_id self) (status final_state)
             (calculated_values final_state)
             (length (cycles_detected initial_state))
             (metrics final_state) (error_message final_state),
   [Log INFO "Starting simulation" [LStr (sim_id self)]] ++ run.2
     ++ [Log INFO "Simulation completed" []]).

(** ** Properties of the registry *)

Lemma dict_get_update_eq {A : Type} (f : A → A) (k : string) (d : dict A) :
  dict_get k (dict_update f k d) = f <$> dict_get k d.
Proof.
  induction d as [|[k' v] d IH]; simpl; [done|].
  case_decide as Hk; simpl; by rewrite decide_bool_decide, bool_decide_decide;
    case_decide.
Qed.

Lemma dict_get_update_ne {A : Type} (f : A → A) (k k' : string) (d : dict A) :
  k ≠ k' → dict_get k' (dict_update f k d) = dict_get k' d.
Proof.
  intros Hne. induction d as [|[k0 v] d IH]; simpl; [done|].
  case_decide as Hk; simpl.
  - subst k0. by rewrite !decide_False by done.
  - case_decide; [done|]. apply IH.
Qed.

Lemma dict_get_set_eq {A : Type} (k : string) (v : A) (d : dict A) :
  dict_get k (dict_set k v d) = Some v.
Proof.
  induction d as [|[k' v'] d IH]; simpl; [by rewrite decide_True|].
  case_decide as Hk; simpl; [by rewrite decide_True|].
  by rewrite decide_False.
Qed.

Lemma dict_get_set_ne {A : Type} (k k' : string) (v : A) (d : dict A) :
  k ≠ k' → dict_get k' (dict_set k v d) = dict_get k' d.
Proof.
  intros Hne. induction d as [|[k0 v0] d IH]; simpl; [by rewrite decide_False|].
  case_decide as Hk; simpl.
  - subst k0. by rewrite !decide_False by done.
  - case_decide; [done|]. apply IH.
Qed.

Lemma find_update_found_eq (f : Attribute → Attribute) (id : string)
    (bs : dict Block) :
  find_in_blocks (update_found f id bs) id =
  (λ p, (p.1, f p.2)) <$> find_in_blocks bs id.
Proof.
  induction bs as [|[bk b] bs IH]; simpl; [done|].
  destruct (dict_get id (attributes b)) as [a|] eqn:Ha; simpl.
  - by rewrite dict_get_update_eq, Ha.
  - by rewrite Ha.
Qed.

Lemma find_update_found_ne (f : Attribute → Attribute) (id id' : string)
    (bs : dict Block) :
  id ≠ id' →
  find_in_blocks (update_found f id bs) id' = find_in_blocks bs id'.
Proof.
  intros Hne. induction bs as [|[bk b] bs IH]; simpl; [done|].
  destruct (dict_get id (attributes b)) as [a|] eqn:Ha; simpl.
  - by rewrite dict_get_update_ne.
  - by rewrite IH.
Qed.

Lemma set_value_same (a : Attribute) : set_value (value a) a = a.
Proof. by destruct a. Qed.

(** ** Properties of the evaluation *)

Lemma dep_values_lookup (a : Attribute) (context : context_t) (k : string) :
  dep_values a context !! k =
  if decide (k ∈ dependencies a) then Some (default None (context !! k))
  else None.
Proof.
  unfold dep_values.
  assert (∀ deps (m : context_t),
            fold_left (λ m dep_id,
                         <[dep_id := default None (context !! dep_id)]> m)
                      deps m !! k =
            if decide (k ∈ deps) then Some (default None (context !! k))
            else m !! k) as Hfold.
  { induction deps as [|d deps IH]; intros m; cbn [fold_left].
    - rewrite decide_False; [done|apply not_elem_of_nil].
    - rewrite IH. destruct (decide (k ∈ deps)) as [Hin|Hnin].
      + rewrite decide_True by (by right). done.
      + destruct (decide (d = k)) as [->|Hne].
        * rewrite decide_True by left. by rewrite lookup_insert_eq.
        * rewrite decide_False by (intros [?|?]%elem_of_cons; congruence).
          by rewrite lookup_insert_ne. }
  rewrite Hfold. by rewrite lookup_empty.
Qed.



(** *** Scenario overrides *)

Lemma dict_get_not_key {A : Type} (k : string) (d : dict A) :
  k ∉ d.*1 → dict_get k d = None.
Proof.
  induction d as [|[k' v] d IH]; simpl; [done|].
  intros Hk. rewrite decide_False; [apply IH|]; set_solver.
Qed.

Lemma apply_override_find (st : dict Block * list log_record)
    (override : string * V) (attr_id bk : string) (attr : Attribute) :
  find_in_blocks st.1 attr_id = Some (bk, attr) →
  find_in_blocks (apply_override st override).1 attr_id =
  Some (bk, if decide (override.1 = attr_id)
            then set_value (Some override.2) attr else attr).
Proof.
  intros Hfind. unfold apply_override. destruct override as [id v]. simpl.
  destruct (decide (id = attr_id)) as [->|Hne].
  - rewrite Hfind. simpl. by rewrite find_update_found_eq, Hfind.
  - destruct (find_in_blocks st.1 id) as [[bk' attr']|]; [|done].
    simpl. by rewrite find_update_found_ne.
Qed.

Lemma apply_override_find_None (st : dict Block * list log_record)
    (override : string * V) (attr_id : string) :
  find_in_blocks st.1 attr_id = None →
  find_in_blocks (apply_override st override).1 attr_id = None.
Proof.
  intros Hfind. unfold apply_override. destruct override as [id v]. simpl.
  destruct (find_in_blocks st.1 id) as [[bk' attr']|] eqn:Hid; [|done].
  simpl. destruct (decide (id = attr_id)) as [->|Hne]; [congruence|].
  by rewrite find_update_found_ne.
Qed.


Lemma apply_overrides_find_None (overrides : dict V)
    (st : dict Block * list log_record) (attr_id : string) :
  find_in_blocks st.1 attr_id = None →
  find_in_blocks (fold_left apply_override overrides st).1 attr_id = None.
Proof.
  revert st. induction overrides as [|o overrides IH]; intros st Hfind; [done|].
  cbn [fold_left]. by apply IH, apply_override_find_None.
Qed.

Lemma apply_overrides_find (overrides : dict V)
    (st : dict Block * list log_record) (attr_id bk : string)
    (attr : Attribute) :
  NoDup overrides.*1 →
  find_in_blocks st.1 attr_id = Some (bk, attr) →
  find_in_blocks (fold_left apply_override overrides st).1 attr_id =
  Some (bk, match dict_get attr_id overrides with
            | Some v => set_value (Some v) attr
            | None => attr
            end).
Proof.
  revert st attr.
  induction overrides as [|[id v] overrides IH]; intros st attr Hnd Hfind;
    [done|].
  apply NoDup_cons in Hnd as [Hid Hnd]. cbn [fold_left].
  rewrite (IH _ _ Hnd (apply_override_find st (id, v) attr_id bk attr Hfind)).
  simpl. destruct (decide (id = attr_id)) as [->|Hne]; [|done].
  by rewrite dict_get_not_key.
Qed.



Definition after_initialize (g : DependencyGraph) (bs : dict Block)
    (state : SimulationState)
  : dict Block * SimulationState * list log_record :=
  let n2 := detect_cycles g bs state in
  let n3 :=
    if decide (route_after_cycle_detection n2.1.2 = "resolve_cycles")
    then resolve_cycles g n2.1.1 n2.1.2
    else (n2.1.1, n2.1.2, []) in
  let n4 := calculate_attributes g n3.1.1 n3.1.2 in
  let n5 := validate_results g n4.1.1 n4.1.2 in
  (n5.1.1, n5.1.2, n2.2 ++ n3.2 ++ n4.2 ++ n5.2).

Lemma workflow_invoke_after_initialize (g : DependencyGraph) (bs : dict Block)
    (state : SimulationState) :
  workflow_invoke g bs state =
  let n1 := initialize_simulation g bs state in
  let rest := after_initialize g n1.1.1 n1.1.2 in
  (rest.1.1, rest.1.2, n1.2 ++ rest.2).
Proof. done. Qed.







(** *** The acyclic calculation pass *)

Lemma calculate_step_find (st : dict Block * context_t * context_t * list log_record)
    (id k : string) :
  is_Some (find_in_blocks (calculate_step st id).1.1.1 k) ↔
  is_Some (find_in_blocks st.1.1.1 k).
Proof.
  destruct st as [[[bs cv] ctx] log]. unfold calculate_step. simpl.
  destruct (find_in_blocks bs id) as [[bk attr]|] eqn:Hid; [|done].
  destruct (attribute_type attr); [done|].
  destruct (Attribute_calculate _ _) as [[[r|e] attr'] l]; simpl; [|done].
  destruct (decide (id = k)) as [->|Hne].
  - rewrite find_update_found_eq, Hid. simpl. by split; eauto.
  - by rewrite find_update_found_ne.
Qed.

Lemma calculate_step_other (st : dict Block * context_t * context_t * list log_record)
    (id k : string) :
  id ≠ k → (calculate_step st id).1.1.2 !! k = st.1.1.2 !! k.
Proof.
  intros Hne. destruct st as [[[bs cv] ctx] log]. unfold calculate_step. simpl.
  destruct (find_in_blocks bs id) as [[bk attr]|] eqn:Hid; [|done].
  destruct (attribute_type attr); simpl; [by rewrite lookup_insert_ne|].
  destruct (Attribute_calculate _ _) as [[[r|e] attr'] l]; simpl;
    by rewrite lookup_insert_ne.
Qed.

Lemma calculate_step_entry (st : dict Block * context_t * context_t * list log_record)
    (id : string) :
  is_Some (find_in_blocks st.1.1.1 id) →
  is_Some ((calculate_step st id).1.1.2 !! id).
Proof.
  destruct st as [[[bs cv] ctx] log]. unfold calculate_step. simpl.
  intros [[bk attr] ->].
  destruct (attribute_type attr); simpl; [by rewrite lookup_insert_eq|].
  destruct (Attribute_calculate _ _) as [[[r|e] attr'] l]; simpl;
    by rewrite lookup_insert_eq.
Qed.

Lemma calculate_step_log (st : dict Block * context_t * context_t * list log_record)
    (id : string) (r : log_record) :
  r ∈ st.2 → r ∈ (calculate_step st id).2.
Proof.
  destruct st as [[[bs cv] ctx] log]. unfold calculate_step. simpl. intros Hr.
  destruct (find_in_blocks bs id) as [[bk attr]|] eqn:Hid;
    [|by apply elem_of_app; left].
  destruct (attribute_type attr); [done|].
  destruct (Attribute_calculate _ _) as [[[res|e] attr'] l]; simpl;
    destruct (missing_deps_of attr ctx); rewrite ?elem_of_app; auto.
Qed.

Lemma calculate_loop_find (order : list string)
    (st : dict Block * context_t * context_t * list log_record) (k : string) :
  is_Some (find_in_blocks (fold_left calculate_step order st).1.1.1 k) ↔
  is_Some (find_in_blocks st.1.1.1 k).
Proof.
  revert st. induction order as [|id order IH]; intros st; [done|].
  cbn [fold_left]. by rewrite IH, calculate_step_find.
Qed.

Lemma calculate_loop_other (order : list string)
    (st : dict Block * context_t * context_t * list log_record) (k : string) :
  k ∉ order →
  (fold_left calculate_step order st).1.1.2 !! k = st.1.1.2 !! k.
Proof.
  revert st. induction order as [|id order IH]; intros st Hk; [done|].
  cbn [fold_left]. rewrite IH by set_solver.
  apply calculate_step_other. set_solver.
Qed.

Lemma calculate_loop_log (order : list string)
    (st : dict Block * context_t * context_t * list log_record)
    (r : log_record) :
  r ∈ st.2 → r ∈ (fold_left calculate_step order st).2.
Proof.
  revert st. induction order as [|id order IH]; intros st Hr; [done|].
  cbn [fold_left]. by apply IH, calculate_step_log.
Qed.

Lemma calculate_loop_entry (order : list string)
    (st : dict Block * context_t * context_t * list log_record) (k : string) :
  NoDup order → k ∈ order →
  is_Some (find_in_blocks st.1.1.1 k) →
  is_Some ((fold_left calculate_step order st).1.1.2 !! k).
Proof.
  revert st. induction order as [|id order IH]; intros st Hnd Hk Hfind.
  { by apply elem_of_nil in Hk. }
  apply NoDup_cons in Hnd as [Hid Hnd]. cbn [fold_left].
  apply elem_of_cons in Hk as [->|Hk].
  - rewrite calculate_loop_other by done. by apply calculate_step_entry.
  - apply IH; [done..|]. by apply calculate_step_find.
Qed.

Lemma calculate_step_raises (bs : dict Block) (cv ctx : context_t)
    (log : list log_record) (id bk : string) (attr : Attribute) (e : exn) :
  find_in_blocks bs id = Some (bk, attr) →
  attribute_type attr = CALCULATED →
  (Attribute_calculate attr (context_for attr ctx)).1.1 = Raises e →
  let st := calculate_step (bs, cv, ctx, log) id in
  st.1.1.1 = bs ∧
  st.1.1.2 = <[id := Some (default_value id)]> cv ∧
  st.1.2 = <[id := Some (default_value id)]> (context_for attr ctx) ∧
  Log INFO "Used default value for" [LStr id; LVal (Some (default_value id))]
    ∈ st.2.
Proof.
  intros Hfind Htype Hraise. unfold calculate_step. rewrite Hfind, Htype.
  destruct (Attribute_calculate _ _) as [[[r|e'] attr'] l]; simpl in *; [done|].
  split_and!; [done..|]. rewrite !elem_of_app, !elem_of_cons. auto.
Qed.

(** *** Blocks that differ in the values of calculated attributes only *)

Definition dict_rel {A : Type} (R : relation A) (d d' : dict A) : Prop :=
  Forall2 (λ kv kv', kv.1 = kv'.1 ∧ R kv.2 kv'.2) d d'.

Lemma dict_rel_refl {A : Type} (R : relation A) (d : dict A) :
  (∀ x, R x x) → dict_rel R d d.
Proof. intros HR. induction d; constructor; auto. Qed.

Lemma dict_rel_sym {A : Type} (R : relation A) (d d' : dict A) :
  (∀ x y, R x y → R y x) → dict_rel R d d' → dict_rel R d' d.
Proof.
  intros HR. induction 1 as [|? ? ? ? [? ?]]; constructor; auto.
Qed.

Lemma dict_rel_trans {A : Type} (R : relation A) (d1 d2 d3 : dict A) :
  (∀ x y z, R x y → R y z → R x z) →
  dict_rel R d1 d2 → dict_rel R d2 d3 → dict_rel R d1 d3.
Proof.
  intros HR H12. revert d3.
  induction H12 as [|? ? ? ? [? ?] ? IH]; intros d3 H23;
    inversion H23 as [|? ? ? ? [? ?]]; subst; constructor.
  - split; [congruence|eauto].
  - by apply IH.
Qed.

Lemma dict_rel_get {A : Type} (R : relation A) (d d' : dict A) (k : string) :
  dict_rel R d d' → option_Forall2 R (dict_get k d) (dict_get k d').
Proof.
  induction 1 as [|[k1 v1] [k2 v2] d d' [Hk Hv] _ IH]; simpl in *;
    [constructor|].
  subst k2. case_decide; [by constructor|done].
Qed.

Lemma dict_rel_update {A : Type} (R : relation A) (f f' : A → A)
    (d d' : dict A) (k : string) :
  (∀ a a', R a a' → R (f a) (f' a')) →
  dict_rel R d d' → dict_rel R (dict_update f k d) (dict_update f' k d').
Proof.
  intros Hf. induction 1 as [|[k1 v1] [k2 v2] d d' [Hk Hv] Hd IH]; simpl in *;
    [constructor|].
  subst k2. case_decide; constructor; simpl; auto.
Qed.

Lemma dict_rel_update_l {A : Type} (R : relation A) (f : A → A) (d : dict A)
    (k : string) (a : A) :
  (∀ x, R x x) → dict_get k d = Some a → R (f a) a →
  dict_rel R (dict_update f k d) d.
Proof.
  intros HR. induction d as [|[k1 v1] d IH]; simpl; [done|].
  case_decide.
  - intros [= ->] Hfa. constructor; [done|]. by apply dict_rel_refl.
  - intros Hget Hfa. constructor; [by split|by apply IH].
Qed.

(** The same attribute, up to the value when it is a calculated one. *)
Definition attr_sim (a a' : Attribute) : Prop :=
  set_value None a = set_value None a' ∧
  (attribute_type a = INPUT → value a = value a').

Definition block_sim (b b' : Block) : Prop :=
  block_id b = block_id b' ∧ block_name b = block_name b' ∧
  dict_rel attr_sim (attributes b) (attributes b').

Definition blocks_sim : relation (dict Block) := dict_rel block_sim.

Lemma attr_sim_refl (a : Attribute) : attr_sim a a.
Proof. done. Qed.

Lemma attr_sim_sym (a a' : Attribute) : attr_sim a a' → attr_sim a' a.
Proof.
  destruct a, a'. unfold attr_sim. simpl. intros [[= -> -> -> -> -> ->] Hv].
  split; [done|]. intros Ht. by rewrite Hv.
Qed.

Lemma attr_sim_trans (a1 a2 a3 : Attribute) :
  attr_sim a1 a2 → attr_sim a2 a3 → attr_sim a1 a3.
Proof.
  destruct a1, a2, a3. unfold attr_sim. simpl.
  intros [[= -> -> -> -> -> ->] Hv] [[= -> -> -> -> -> ->] Hv'].
  split; [done|]. intros Ht. by rewrite Hv, Hv'.
Qed.

Lemma block_sim_refl (b : Block) : block_sim b b.
Proof. split_and!; [done..|]. apply dict_rel_refl, attr_sim_refl. Qed.

Lemma block_sim_sym (b b' : Block) : block_sim b b' → block_sim b' b.
Proof.
  intros (? & ? & ?). split_and!; [done..|].
  by apply dict_rel_sym; [apply attr_sim_sym|].
Qed.

Lemma block_sim_trans (b1 b2 b3 : Block) :
  block_sim b1 b2 → block_sim b2 b3 → block_sim b1 b3.
Proof.
  intros (? & ? & ?) (? & ? & ?). split_and!; [congruence..|].
  by eapply dict_rel_trans; [apply attr_sim_trans|..].
Qed.

Lemma blocks_sim_refl (bs : dict Block) : blocks_sim bs bs.
Proof. apply dict_rel_refl, block_sim_refl. Qed.

Lemma blocks_sim_sym (bs bs' : dict Block) :
  blocks_sim bs bs' → blocks_sim bs' bs.
Proof. apply dict_rel_sym, block_sim_sym. Qed.

Lemma blocks_sim_trans (bs1 bs2 bs3 : dict Block) :
  blocks_sim bs1 bs2 → blocks_sim bs2 bs3 → blocks_sim bs1 bs3.
Proof. apply dict_rel_trans, block_sim_trans. Qed.

Lemma blocks_sim_find (bs bs' : dict Block) (id : string) :
  blocks_sim bs bs' →
  option_Forall2 (λ p p', p.1 = p'.1 ∧ attr_sim p.2 p'.2)
                 (find_in_blocks bs id) (find_in_blocks bs' id).
Proof.
  induction 1 as [|[k1 b1] [k2 b2] bs bs' [Hk (_ & _ & Hb)] _ IH]; simpl in *;
    [constructor|].
  subst k2. destruct (dict_rel_get _ _ _ id Hb) as [a a' Ha|]; [|done].
  by constructor.
Qed.

Lemma blocks_sim_update_found (f f' : Attribute → Attribute)
    (bs bs' : dict Block) (id : string) :
  (∀ a a', attr_sim a a' → attr_sim (f a) (f' a')) →
  blocks_sim bs bs' →
  blocks_sim (update_found f id bs) (update_found f' id bs').
Proof.
  intros Hf.
  induction 1 as [|[k1 b1] [k2 b2] bs bs' [Hk (Hi & Hn & Hb)] Hbs IH];
    simpl in *; [constructor|].
  subst k2. destruct (dict_rel_get _ _ _ id Hb) as [a a' Ha|].
  - constructor; [|done]. split; [done|]. split_and!; [done..|].
    by apply dict_rel_update.
  - constructor; [|done]. by split.
Qed.

Lemma blocks_sim_update_found_l (f : Attribute → Attribute) (bs : dict Block)
    (id bk : string) (a : Attribute) :
  find_in_blocks bs id = Some (bk, a) → attr_sim (f a) a →
  blocks_sim (update_found f id bs) bs.
Proof.
  induction bs as [|[k b] bs IH]; simpl; [done|].
  destruct (dict_get id (attributes b)) as [a0|] eqn:Hget.
  - intros [= <- ->] Hfa. constructor; [|apply blocks_sim_refl].
    split; [done|]. split_and!; [done..|].
    by eapply dict_rel_update_l; [apply attr_sim_refl|..].
  - intros Hfind Hfa. constructor; [|by apply IH].
    split; [done|]. apply block_sim_refl.
Qed.

Lemma attr_sim_fields (a a' : Attribute) :
  attr_sim a a' →
  attr_id a = attr_id a' ∧ attribute_type a = attribute_type a' ∧
  dependencies a = dependencies a' ∧
  calculation_logic a = calculation_logic a' ∧ metadata a = metadata a'.
Proof.
  destruct a, a'. unfold attr_sim. simpl. by intros [[= -> -> -> -> -> ->] _].
Qed.

Lemma attr_sim_set_value (a a' : Attribute) (v : option V) :
  attr_sim a a' → attr_sim (set_value v a) (set_value v a').
Proof.
  destruct a, a'. unfold attr_sim. simpl. by intros [[= -> -> -> -> -> ->] _].
Qed.

Lemma Attribute_calculate_sim (a a' : Attribute) (context : context_t) :
  attr_sim a a' →
  (Attribute_calculate a context).1.1 = (Attribute_calculate a' context).1.1 ∧
  attr_sim (Attribute_calculate a context).1.2
           (Attribute_calculate a' context).1.2 ∧
  (Attribute_calculate a context).2 = (Attribute_calculate a' context).2.
Proof.
  intros Hsim. pose proof Hsim as [_ Hv].
  destruct (attr_sim_fields a a' Hsim) as (Hid & Ht & Hd & Hl & Hm).
  unfold Attribute_calculate, dep_values. rewrite <- Ht, <- Hl, <- Hd, <- Hm, <- Hid.
  destruct (attribute_type a).
  - simpl. by rewrite Hv.
  - destruct (calculation_logic a) as [logic|]; [|done].
    destruct (logic _ _); simpl; [|done].
    split_and!; [done| |done]. by apply attr_sim_set_value.
Qed.

Lemma calculate_step_sim (bs bs' : dict Block) (cv ctx : context_t)
    (log : list log_record) (id : string) :
  blocks_sim bs bs' →
  blocks_sim (calculate_step (bs, cv, ctx, log) id).1.1.1
             (calculate_step (bs', cv, ctx, log) id).1.1.1 ∧
  (calculate_step (bs, cv, ctx, log) id).1.1.2 =
    (calculate_step (bs', cv, ctx, log) id).1.1.2 ∧
  (calculate_step (bs, cv, ctx, log) id).1.2 =
    (calculate_step (bs', cv, ctx, log) id).1.2 ∧
  (calculate_step (bs, cv, ctx, log) id).2 =
    (calculate_step (bs', cv, ctx, log) id).2.
Proof.
  intros Hsim. unfold calculate_step.
  destruct (blocks_sim_find bs bs' id Hsim) as [[bk a] [bk' a'] [_ Ha]|];
    [|done].
  simpl in Ha. pose proof Ha as [_ Hv].
  destruct (attr_sim_fields a a' Ha) as (_ & Ht & Hd & _ & _).
  rewrite <- Ht. destruct (attribute_type a).
  { simpl. by rewrite <- Hv. }
  unfold context_for, missing_deps_of. rewrite <- Hd.
  set (context1 := match filter _ (dependencies a) with
                   | [] => ctx | _ => _ end).
  destruct (Attribute_calculate_sim a a' context1 Ha) as (Hr & Hattr & Hl).
  destruct (Attribute_calculate a context1) as [[r attr1] l],
           (Attribute_calculate a' context1) as [[r' attr1'] l'].
  simpl in Hr, Hattr, Hl. subst r' l'.
  destruct r as [result|e]; simpl; [|done].
  split_and!; [|done..]. apply blocks_sim_update_found; auto.
Qed.

Lemma calculate_loop_sim (order : list string) (bs bs' : dict Block)
    (cv ctx : context_t) (log : list log_record) :
  blocks_sim bs bs' →
  (fold_left calculate_step order (bs, cv, ctx, log)).1.1.2 =
  (fold_left calculate_step order (bs', cv, ctx, log)).1.1.2.
Proof.
  revert bs bs' cv ctx log.
  induction order as [|id order IH]; intros bs bs' cv ctx log Hsim; [done|].
  cbn [fold_left].
  destruct (calculate_step_sim bs bs' cv ctx log id Hsim)
    as (Hbs & Hcv & Hctx & Hlog).
  destruct (calculate_step (bs, cv, ctx, log) id) as [[[bs1 cv1] ctx1] log1],
           (calculate_step (bs', cv, ctx, log) id) as [[[bs1' cv1'] ctx1'] log1'].
  simpl in *. subst. by apply IH.
Qed.

Lemma calculate_step_sim_input
    (st : dict Block * context_t * context_t * list log_record) (id : string) :
  blocks_sim (calculate_step st id).1.1.1 st.1.1.1.
Proof.
  destruct st as [[[bs cv] ctx] log]. unfold calculate_step. simpl.
  destruct (find_in_blocks bs id) as [[bk attr]|] eqn:Hid;
    [|apply blocks_sim_refl].
  destruct (attribute_type attr) eqn:Ht; [apply blocks_sim_refl|].
  unfold Attribute_calculate. rewrite Ht.
  destruct (calculation_logic attr) as [logic|]; [|apply blocks_sim_refl].
  destruct (logic _ _); simpl; [|apply blocks_sim_refl].
  eapply blocks_sim_update_found_l; [done|].
  destruct attr. simpl in *. split; simpl; [done|]. by rewrite Ht.
Qed.

Lemma calculate_loop_sim_input (order : list string)
    (st : dict Block * context_t * context_t * list log_record) :
  blocks_sim (fold_left calculate_step order st).1.1.1 st.1.1.1.
Proof.
  revert st. induction order as [|id order IH]; intros st;
    [apply blocks_sim_refl|].
  cbn [fold_left]. eapply blocks_sim_trans; [apply IH|].
  apply calculate_step_sim_input.
Qed.

Lemma dict_get_NoDup {A : Type} (k : string) (v : A) (d : dict A) :
  NoDup d.*1 → (k, v) ∈ d → dict_get k d = Some v.
Proof.
  induction d as [|[k' v'] d IH]; simpl; [by intros _ ?%elem_of_nil|].
  intros [Hk Hnd]%NoDup_cons [[= -> ->]|Hin]%elem_of_cons.
  - by rewrite decide_True.
  - rewrite decide_False; [by apply IH|]. intros ->. apply Hk.
    by apply (list_elem_of_fmap_2 fst _ (k, v)).
Qed.

(** The input attributes already hold the values of the overrides. *)
Definition overrides_applied (overrides : dict V) (bs : dict Block) : Prop :=
  ∀ k v bk a, (k, v) ∈ overrides → find_in_blocks bs k = Some (bk, a) →
              attribute_type a = INPUT → value a = Some v.

Lemma overrides_applied_sim (overrides : dict V) (bs bs' : dict Block) :
  blocks_sim bs bs' → overrides_applied overrides bs →
  overrides_applied overrides bs'.
Proof.
  intros Hsim Happ k v bk' a' Hin Hfind Ht.
  pose proof (blocks_sim_find bs bs' k Hsim) as Hf. rewrite Hfind in Hf.
  inversion Hf as [[bk a] p' [_ Ha] Hp|]; subst. simpl in Ha.
  destruct (attr_sim_fields a a' Ha) as (_ & Ht' & _). destruct Ha as [_ Hv].
  rewrite <- Hv by congruence. eapply (Happ k v bk a); [done..|congruence].
Qed.

Lemma overrides_applied_initialize (overrides : dict V)
    (st : dict Block * list log_record) :
  NoDup overrides.*1 →
  overrides_applied overrides (fold_left apply_override overrides st).1.
Proof.
  intros Hnd k v bk a Hin Hfind _.
  destruct (find_in_blocks st.1 k) as [[bk0 a0]|] eqn:Hfind0.
  - rewrite (apply_overrides_find _ _ _ _ _ Hnd Hfind0) in Hfind.
    rewrite (dict_get_NoDup k v overrides Hnd Hin) in Hfind.
    by injection Hfind as _ <-.
  - by rewrite apply_overrides_find_None in Hfind.
Qed.

Lemma overrides_absorbed (overrides overrides' : dict V)
    (st : dict Block * list log_record) :
  (∀ o, o ∈ overrides' → o ∈ overrides) →
  overrides_applied overrides st.1 →
  blocks_sim (fold_left apply_override overrides' st).1 st.1.
Proof.
  revert st.
  induction overrides' as [|[k v] overrides' IH]; intros st Hsub Happ;
    [apply blocks_sim_refl|].
  cbn [fold_left].
  assert (blocks_sim (apply_override st (k, v)).1 st.1) as Hstep.
  { unfold apply_override. simpl.
    destruct (find_in_blocks st.1 k) as [[bk a]|] eqn:Hfind;
      [|apply blocks_sim_refl].
    simpl. eapply blocks_sim_update_found_l; [done|].
    split; [by destruct a|]. simpl. intros Ht. symmetry.
    eapply Happ; [|done..]. apply Hsub. left. }
  eapply blocks_sim_trans; [|done]. apply IH.
  - intros o Ho. apply Hsub. by right.
  - eapply overrides_applied_sim; [|done]. by apply blocks_sim_sym.
Qed.

(** *** The run of an acyclic model *)

Definition initial_state_of (self : STKSimulation) : SimulationState :=
  mkState (sim_id self) (scenario_overrides self) [] ∅ [] "starting" None None.

(** The blocks after [initialize_simulation]. *)
Definition initialized_blocks (self : STKSimulation) : dict Block :=
  (initialize_simulation (dependency_graph self) (blocks self)
                         (initial_state_of self)).1.1.

(** The state of the calculation loop after the pass over [order]. *)
Definition calculation_pass (order : list string) (bs : dict Block)
  : dict Block * context_t * context_t * list log_record :=
  fold_left calculate_step order
            (bs, ∅, ∅, [Log INFO "Executing attribute calculations" []]).

Lemma calculate_attributes_acyclic (g : DependencyGraph) (bs : dict Block)
    (state : SimulationState) :
  status state ≠ "cycles_resolved" →
  calculate_attributes g bs state =
  match topological_sort g with
  | Returns order =>
    ((calculation_pass order bs).1.1.1,
     with_status "calculated"
       (with_calculated_values (calculation_pass order bs).1.1.2
          (with_execution_order order state)),
     (calculation_pass order bs).2)
  | Raises e =>
    (bs,
     with_status "calculation_failed"
       (with_error_message (ErrException e) state),
     [Log INFO "Executing attribute calculations" []]
       ++ [Log ERROR "Calculation failed" [LExn e]])
  end.
Proof.
  intros Hstatus. unfold calculate_attributes.
  rewrite decide_False by done. reflexivity.
Qed.

Lemma validate_results_keeps (g : DependencyGraph) (bs : dict Block)
    (state : SimulationState) :
  (validate_results g bs state).1.1 = bs ∧
  calculated_values (validate_results g bs state).1.2 =
    calculated_values state.
Proof. unfold validate_results. by destruct ((filter _ _).*1). Qed.

Lemma after_initialize_acyclic (g : DependencyGraph) (bs : dict Block)
    (state : SimulationState) :
  find_cycles g = [] →
  (after_initialize g bs state).1.1 =
    match topological_sort g with
    | Returns order => (calculation_pass order bs).1.1.1
    | Raises _ => bs
    end ∧
  calculated_values (after_initialize g bs state).1.2 =
    match topological_sort g with
    | Returns order => (calculation_pass order bs).1.1.2
    | Raises _ => calculated_values state
    end.
Proof.
  intros Hnil. unfold after_initialize. cbv zeta.
  assert (detect_cycles g bs state =
          (bs, with_status "cycles_clear" (with_cycles_detected [] state),
           [Log INFO "Running cycle detection analysis" [];
            Log INFO "No cycles detected - proceeding with execution" []]))
    as -> by (unfold detect_cycles; by rewrite Hnil).
  cbn [fst snd].
  change (route_after_cycle_detection
            (with_status "cycles_clear" (with_cycles_detected [] state)))
    with "calculate".
  rewrite (decide_False (P:="calculate" = "resolve_cycles")) by (by intros [=]).
  cbn [fst snd].
  rewrite calculate_attributes_acyclic by (by intros [=]).
  destruct (topological_sort g) as [order|e]; cbn [fst snd];
    match goal with
    | |- context [validate_results g ?b ?st] =>
      destruct (validate_results_keeps g b st) as [-> ->]
    end; done.
Qed.

Lemma run_simulation_acyclic (self : STKSimulation) :
  find_cycles (dependency_graph self) = [] →
  blocks (run_simulation self).1.1 =
    match topological_sort (dependency_graph self) with
    | Returns order => (calculation_pass order (initialized_blocks self)).1.1.1
    | Raises _ => initialized_blocks self
    end ∧
  res_calculated_values (run_simulation self).1.2 =
    match topological_sort (dependency_graph self) with
    | Returns order => (calculation_pass order (initialized_blocks self)).1.1.2
    | Raises _ => ∅
    end.
Proof.
  intros Hnil.
  change (blocks (run_simulation self).1.1)
    with (workflow_invoke (dependency_graph self) (blocks self)
                          (initial_state_of self)).1.1.
  change (res_calculated_values (run_simulation self).1.2)
    with (calculated_values
            (workflow_invoke (dependency_graph self) (blocks self)
                             (initial_state_of self)).1.2).
  rewrite workflow_invoke_after_initialize. cbv zeta. cbn [fst snd].
  exact (after_initialize_acyclic (dependency_graph self)
           (initialized_blocks self) _ Hnil).
Qed.

(** *** Oscillation *)

(** The pattern on the last four entries [x4; x3; x2; x1] of a history:
    |h[-1] - h[-3]| < 0.1 and |h[-2] - h[-4]| < 0.1. *)
Definition oscillation_pattern (history : list V) : Prop :=
  ∃ older x4 x3 x2 x1,
    history = older ++ [x4; x3; x2; x1] ∧
    num_ltb (num_abs (num_sub x1 x3)) (num_lit (1 # 10)%Q) = true ∧
    num_ltb (num_abs (num_sub x2 x4)) (num_lit (1 # 10)%Q) = true.

Lemma oscillating_pattern (history : list V) :
  oscillating history = true ↔
  (4 ≤ length history)%nat ∧ oscillation_pattern history.
Proof.
  unfold oscillating, oscillation_pattern, last4. split.
  - case_decide as Hlen; [|done].
    destruct (drop (length history - 4) history)
      as [|r0 [|r1 [|r2 [|r3 [|]]]]] eqn:Hdrop; try done.
    intros [H02 H13]%andb_prop. split; [done|].
    exists (take (length history - 4) history), r0, r1, r2, r3.
    rewrite <- Hdrop, take_drop.
    by rewrite (num_abs_sub r3 r1), (num_abs_sub r2 r0).
  - intros [Hlen (older & x4 & x3 & x2 & x1 & -> & H13 & H24)].
    rewrite decide_True by done.
    replace (length (older ++ [x4; x3; x2; x1]) - 4)%nat with (length older)
      by (rewrite length_app; simpl; lia).
    rewrite drop_app_length.
    by rewrite (num_abs_sub x4 x2), (num_abs_sub x3 x1), H13, H24.
Qed.

Lemma detect_oscillation_spec (value_history : dict (list V)) (iteration : nat) :
  detect_oscillation value_history iteration = true ↔
  (4 ≤ iteration)%nat ∧
  ∃ history, history ∈ dict_values value_history ∧
             (4 ≤ length history)%nat ∧ oscillation_pattern history.
Proof.
  unfold detect_oscillation. case_decide as Hit.
  - split; [done|]. intros [? _]. lia.
  - rewrite existsb_exists. split.
    + intros (h & Hin & Hosc). split; [lia|]. exists h.
      split; [by apply list_elem_of_In|]. by apply oscillating_pattern.
    + intros (_ & h & Hin & Hosc). exists h.
      split; [by apply list_elem_of_In|]. by apply oscillating_pattern.
Qed.

Lemma stabilize_step_find (value_history : dict (list V))
    (st : dict Block * list log_record) (id attr_id bk : string)
    (attr : Attribute) :
  find_in_blocks st.1 attr_id = Some (bk, attr) →
  find_in_blocks (stabilize_step value_history st id).1 attr_id =
  Some (bk, if decide (id = attr_id) then
              match dict_get attr_id value_history with
              | Some history =>
                if decide (2 ≤ length history)%nat
                then set_value (Some (stabilized_value history)) attr
                else attr
              | None => attr
              end
            else attr).
Proof.
  intros Hfind. unfold stabilize_step.
  destruct (decide (id = attr_id)) as [->|Hne].
  - destruct (dict_get attr_id value_history) as [h|]; [|done].
    case_decide; [|done]. rewrite Hfind. simpl.
    by rewrite find_update_found_eq, Hfind.
  - destruct (dict_get id value_history) as [h|]; [|done].
    case_decide; [|done].
    destruct (find_in_blocks st.1 id) as [[bk' attr']|]; [|done].
    simpl. by rewrite find_update_found_ne.
Qed.

Lemma stabilize_loop_find (value_history : dict (list V)) (cycle : list string)
    (st : dict Block * list log_record) (attr_id bk : string)
    (attr : Attribute) :
  find_in_blocks st.1 attr_id = Some (bk, attr) →
  find_in_blocks (fold_left (stabilize_step value_history) cycle st).1 attr_id =
  Some (bk, if decide (attr_id ∈ cycle) then
              match dict_get attr_id value_history with
              | Some history =>
                if decide (2 ≤ length history)%nat
                then set_value (Some (stabilized_value history)) attr
                else attr
              | None => attr
              end
            else attr).
Proof.
  revert st attr. induction cycle as [|id cycle IH]; intros st attr Hfind.
  { cbn [fold_left]. rewrite decide_False; [done|apply not_elem_of_nil]. }
  cbn [fold_left].
  rewrite (IH _ _ (stabilize_step_find value_history st id attr_id bk attr Hfind)).
  f_equal. f_equal.
  destruct (decide (id = attr_id)) as [->|Hne],
           (decide (attr_id ∈ cycle)) as [Hin|Hnin];
    try (rewrite (decide_True (P:=attr_id ∈ _ :: cycle)) by (by constructor));
    try (rewrite (decide_False (P:=attr_id ∈ _ :: cycle))
           by (intros [?|?]%elem_of_cons; congruence));
    try done.
  destruct (dict_get attr_id value_history) as [h|]; [|done].
  by case_decide.
Qed.

(** *** Registration *)

Lemma dict_set_absent {A : Type} (k : string) (v : A) (d : dict A) :
  dict_get k d = None → dict_set k v d = d ++ [(k, v)].
Proof.
  induction d as [|[k' v'] d IH]; simpl; [done|].
  case_decide; [done|]. intros Hget. by rewrite IH.
Qed.

Lemma find_in_blocks_app (bs bs' : dict Block) (id : string) (p : string * Attribute) :
  find_in_blocks bs id = Some p → find_in_blocks (bs ++ bs') id = Some p.
Proof.
  induction bs as [|[bk b] bs IH]; simpl; [done|].
  destruct (dict_get id (attributes b)); [done|]. apply IH.
Qed.

Lemma add_block_blocks (self : STKSimulation) (block : Block) :
  blocks (add_block self block).1 =
  dict_set (block_id block) block (blocks self).
Proof. unfold add_block. by destruct (fold_left _ _ _). Qed.

(** ** The claims about the engine *)


(** C4 (as amended).  [_detect_oscillation] declares oscillation exactly
    when the loop index is at least 4 and some attribute with at least 4
    history entries has |h[-1] - h[-3]| < 0.1 and |h[-2] - h[-4]| < 0.1.
    When a round has not converged and oscillation is declared, the loop
    stops with the stabilized blocks, in which every attribute of the cycle
    that has at least 2 history entries holds
    round(mean of its last up-to-4 entries, 2), and the others are as they
    were. *)
Theorem oscillation_detected_and_stabilized (remaining iteration : nat)
    (cycle : list string) (bs bs1 : dict Block)
    (value_history value_history1 : dict (list V))
    (log log1 : list log_record) (attr_id bk : string) (attr : Attribute) :
  fold_left cycle_step cycle
    (bs, value_history, true,
     log ++ [Log INFO "Iteration for cycle resolution" [LNat (iteration + 1)]])
  = (bs1, value_history1, false, log1) →
  find_in_blocks bs1 attr_id = Some (bk, attr) →
  attr_id ∈ cycle →
  (detect_oscillation value_history1 iteration = true ↔
   (4 ≤ iteration)%nat ∧
   ∃ history, history ∈ dict_values value_history1 ∧
              (4 ≤ length history)%nat ∧ oscillation_pattern history) ∧
  (detect_oscillation value_history1 iteration = true →
   (iterate (S remaining) iteration cycle bs value_history log).1 =
     (stabilize_oscillating_values bs1 cycle value_history1).1 ∧
   find_in_blocks (stabilize_oscillating_values bs1 cycle value_history1).1
                  attr_id =
     Some (bk, match dict_get attr_id value_history1 with
               | Some history =>
                 if decide (2 ≤ length history)%nat
                 then set_value (Some (stabilized_value history)) attr
                 else attr
               | None => attr
               end)) ∧
  (∀ history, stabilized_value history =
     num_round2
       (num_div
          (num_sum (if decide (4 ≤ length history)%nat
                    then last4 history else history))
          (num_lit (inject_Z (Z.of_nat
             (length (if decide (4 ≤ length history)%nat
                      then last4 history else history))))))).
Proof.
  intros Hround Hfind Hin. split_and!.
  - apply detect_oscillation_spec.
  - intros Hosc. split.
    + cbn [iterate]. rewrite Hround, Hosc.
      apply detect_oscillation_spec in Hosc as [Hit _].
      by rewrite decide_True by lia.
    + unfold stabilize_oscillating_values.
      rewrite (stabilize_loop_find value_history1 cycle (bs1, []) attr_id bk
                 attr Hfind).
      by rewrite decide_True.
  - done.
Qed.

(** The default of an id, from what the id contains, case-insensitively. *)
Lemma default_value_spec (attr_id : string) :
  ascii_only attr_id →
  (contains_ignoring_case "price" attr_id →
   default_value attr_id = num_lit 50%Q) ∧
  (¬ contains_ignoring_case "price" attr_id →
   contains_ignoring_case "demand" attr_id →
   default_value attr_id = num_lit 1000%Q) ∧
  (¬ contains_ignoring_case "price" attr_id →
   ¬ contains_ignoring_case "demand" attr_id →
   contains_ignoring_case "margin" attr_id →
   default_value attr_id = num_lit 20%Q) ∧
  (¬ contains_ignoring_case "price" attr_id →
   ¬ contains_ignoring_case "demand" attr_id →
   ¬ contains_ignoring_case "margin" attr_id →
   default_value attr_id = num_lit 0%Q).
Proof.
  intros Hid.
  pose proof (contains_lower_spec "price" attr_id Hid
                ltac:(no_upper_case_needle)) as Hprice.
  pose proof (contains_lower_spec "demand" attr_id Hid
                ltac:(no_upper_case_needle)) as Hdemand.
  pose proof (contains_lower_spec "margin" attr_id Hid
                ltac:(no_upper_case_needle)) as Hmargin.
  unfold default_value.
  destruct (contains "price" (lower attr_id));
    destruct (contains "demand" (lower attr_id));
    destruct (contains "margin" (lower attr_id));
    split_and!; intros; try done;
    repeat match goal with
           | Hn : ¬ _, Hiff : true = true ↔ _ |- _ =>
             destruct Hn; by apply Hiff
           | Hc : contains_ignoring_case _ _, Hiff : false = true ↔ _ |- _ =>
             by apply Hiff in Hc
           end.
Qed.


(** C7.  In the acyclic Calculate pass, when the calculation of a
    calculated attribute raises, the default of its id is stored for it in
    [calculated_values] and in the context, the substitution is logged, the
    attributes that follow in the order are still evaluated, and the pass
    ends with status "calculated".  The default is 50.0 when the id
    contains "price", else 1000 when it contains "demand", else 20.0 when it
    contains "margin", else 0, where an id contains a word when a part of it
    differs from the word in the case of letters only. *)
Theorem calculation_failure_uses_default (g : DependencyGraph)
    (bs : dict Block) (state : SimulationState) (pre post : list string)
    (attr_id bk : string) (attr : Attribute) (e : exn) :
  status state ≠ "cycles_resolved" →
  topological_sort g = Returns (pre ++ attr_id :: post) →
  NoDup (pre ++ attr_id :: post) →
  find_in_blocks (calculation_pass pre bs).1.1.1 attr_id = Some (bk, attr) →
  attribute_type attr = CALCULATED →
  (Attribute_calculate attr
     (context_for attr (calculation_pass pre bs).1.2)).1.1 = Raises e →
  let failed := calculate_step (calculation_pass pre bs) attr_id in
  let r := calculate_attributes g bs state in
  failed.1.1.2 !! attr_id = Some (Some (default_value attr_id)) ∧
  failed.1.2 !! attr_id = Some (Some (default_value attr_id)) ∧
  calculated_values r.1.2 !! attr_id = Some (Some (default_value attr_id)) ∧
  Log INFO "Used default value for"
      [LStr attr_id; LVal (Some (default_value attr_id))] ∈ r.2 ∧
  (∀ k, k ∈ post → is_Some (find_in_blocks bs k) →
        is_Some (calculated_values r.1.2 !! k)) ∧
  status r.1.2 = "calculated" ∧
  (ascii_only attr_id →
   (contains_ignoring_case "price" attr_id →
    default_value attr_id = num_lit 50%Q) ∧
   (¬ contains_ignoring_case "price" attr_id →
    contains_ignoring_case "demand" attr_id →
    default_value attr_id = num_lit 1000%Q) ∧
   (¬ contains_ignoring_case "price" attr_id →
    ¬ contains_ignoring_case "demand" attr_id →
    contains_ignoring_case "margin" attr_id →
    default_value attr_id = num_lit 20%Q) ∧
   (¬ contains_ignoring_case "price" attr_id →
    ¬ contains_ignoring_case "demand" attr_id →
    ¬ contains_ignoring_case "margin" attr_id →
    default_value attr_id = num_lit 0%Q)).
Proof.
  intros Hstatus Horder Hnd Hfind Htype Hraise failed r.
  apply NoDup_app in Hnd as (_ & _ & [Hfresh Hpost]%NoDup_cons).
  assert (r = ((fold_left calculate_step post failed).1.1.1,
               with_status "calculated"
                 (with_calculated_values
                    (fold_left calculate_step post failed).1.1.2
                    (with_execution_order (pre ++ attr_id :: post) state)),
               (fold_left calculate_step post failed).2)) as ->.
  { unfold r, calculate_attributes. rewrite decide_False by done.
    rewrite Horder. unfold failed, calculation_pass.
    by rewrite fold_left_app. }
  destruct (calculation_pass pre bs) as [[[bs0 cv0] ctx0] log0] eqn:Hpre.
  destruct (calculate_step_raises bs0 cv0 ctx0 log0 attr_id bk attr e
              Hfind Htype Hraise) as (Hbs & Hcv & Hctx & Hlog).
  fold failed in Hbs, Hcv, Hctx, Hlog. simpl.
  split_and!.
  - by rewrite Hcv, lookup_insert_eq.
  - by rewrite Hctx, lookup_insert_eq.
  - rewrite calculate_loop_other by done. by rewrite Hcv, lookup_insert_eq.
  - by apply calculate_loop_log.
  - intros k Hk Hbsk. apply calculate_loop_entry; [done..|].
    rewrite Hbs. change bs0 with (bs0, cv0, ctx0, log0).1.1.1.
    rewrite <- Hpre. by apply calculate_loop_find.
  - done.
  - apply default_value_spec.
Qed.


(** C9 (as amended).  For a model whose dependency graph is acyclic, two
    successive runs on the same simulation, with the same overrides, give
    equal [calculated_values]. *)
Theorem acyclic_runs_repeat (self : STKSimulation) :
  acyclic (dependency_graph self) →
  NoDup (scenario_overrides self).*1 →
  res_calculated_values (run_simulation self).1.2 =
  res_calculated_values (run_simulation (run_simulation self).1.1).1.2.
Proof.
  intros Hacyc Hnd.
  assert (find_cycles (dependency_graph self) = []) as Hnil.
  { destruct (find_cycles (dependency_graph self)) as [|c cs] eqn:Hc; [done|].
    destruct (find_cycles_cons_cyclic (dependency_graph self));
      [by rewrite Hc|done]. }
  destruct (run_simulation_acyclic self Hnil) as [Hbs1 Hcv1].
  destruct (run_simulation_acyclic (run_simulation self).1.1 Hnil)
    as [_ Hcv2].
  change (dependency_graph (run_simulation self).1.1)
    with (dependency_graph self) in Hcv2.
  rewrite Hcv1, Hcv2.
  destruct (topological_sort (dependency_graph self)) as [order|e]; [|done].
  unfold calculation_pass. symmetry. apply calculate_loop_sim.
  unfold initialized_blocks at 1, initialize_simulation. cbn [fst snd].
  change (state_scenario_overrides (initial_state_of (run_simulation self).1.1))
    with (scenario_overrides self).
  rewrite Hbs1.
  pose proof (calculate_loop_sim_input order
    (initialized_blocks self, ∅, ∅,
     [Log INFO "Executing attribute calculations" []])) as Hpass.
  fold (calculation_pass order (initialized_blocks self)) in Hpass.
  cbn [fst] in Hpass.
  apply (blocks_sim_trans _ _ _
           (overrides_absorbed (scenario_overrides self)
              (scenario_overrides self)
              ((calculation_pass order (initialized_blocks self)).1.1.1, _)
              (λ o Ho, Ho)
              (overrides_applied_sim _ _ _ (blocks_sim_sym _ _ Hpass)
                 (overrides_applied_initialize _ (blocks self, _) Hnd)))
           Hpass).
Qed.

(** C10.  When [Attribute.calculate] invokes the calculation of a
    calculated attribute, the map it passes has the declared dependencies,
    and nothing else, as keys; each is mapped to the value the context holds
    for it, and to null when the context holds none. *)
Theorem calculate_passes_declared_dependencies (a : Attribute)
    (context : context_t) (logic : calculation) :
  attribute_type a = CALCULATED →
  calculation_logic a = Some logic →
  (Attribute_calculate a context).1.1 =
    match logic (dep_values a context) (metadata a) with
    | Returns result => Returns (Some result)
    | Raises e => Raises e
    end ∧
  dom (dep_values a context) = list_to_set (dependencies a) ∧
  (∀ dep_id, dep_id ∈ dependencies a →
     dep_values a context !! dep_id = Some (default None (context !! dep_id))) ∧
  (∀ dep_id, dep_id ∈ dependencies a → context !! dep_id = None →
     dep_values a context !! dep_id = Some None).
Proof.
  intros Htype Hlogic. split_and!.
  - unfold Attribute_calculate. rewrite Htype, Hlogic.
    by destruct (logic _ _).
  - apply set_eq. intros k.
    rewrite elem_of_dom, dep_values_lookup, elem_of_list_to_set.
    case_decide as Hk; split; intros Hx; try done;
      by (eexists || destruct Hx).
  - intros dep_id Hdep. by rewrite dep_values_lookup, decide_True.
  - intros dep_id Hdep Hctx. by rewrite dep_values_lookup, decide_True, Hctx.
Qed.

Lemma dict_set_present {A : Type} (k : string) (v old : A)
    (pre post : dict A) :
  k ∉ pre.*1 →
  dict_set k v (pre ++ (k, old) :: post) = pre ++ (k, v) :: post.
Proof.
  induction pre as [|[k' v'] pre IH]; intros Hk; simpl.
  - by rewrite decide_True.
  - rewrite decide_False by set_solver. f_equal. apply IH. set_solver.
Qed.

Lemma find_in_blocks_app_cases (bs bs' : dict Block) (id : string) :
  find_in_blocks (bs ++ bs') id =
  match find_in_blocks bs id with
  | Some p => Some p
  | None => find_in_blocks bs' id
  end.
Proof.
  induction bs as [|[bk b] bs IH]; simpl; [done|].
  by destruct (dict_get id (attributes b)).
Qed.

(** The entry of an id in a dict filled by going through all attributes:
    the value of the last attribute with that id that holds one. *)
Lemma current_values_last (bs : dict Block) (id : string) :
  current_values bs !! id =
  value <$> last (filter (λ a, attr_id a = id ∧ is_Some (value a))
                         (all_attributes bs)).
Proof.
  unfold current_values.
  assert (∀ (l : list Attribute) (m : context_t),
            fold_left (λ context a,
                         match value a with
                         | Some v => <[attr_id a := Some v]> context
                         | None => context
                         end) l m !! id =
            match last (filter (λ a, attr_id a = id ∧ is_Some (value a)) l)
            with
            | Some a => Some (value a)
            | None => m !! id
            end) as Hfold.
  { induction l as [|a l IH]; intros m; [done|].
    cbn [fold_left]. rewrite IH, filter_cons.
    destruct (decide (attr_id a = id ∧ is_Some (value a))) as [[Hid [v Hv]]|Hn].
    - rewrite last_cons.
      destruct (last (filter _ l)); [done|].
      by rewrite Hv, Hid, lookup_insert_eq.
    - destruct (last (filter _ l)); [done|].
      destruct (value a) as [v|] eqn:Hv; [|done].
      rewrite lookup_insert_ne; [done|]. intros Hid. apply Hn.
      split; [done|by eexists]. }
  rewrite Hfold, lookup_empty. by destruct (last _).
Qed.

(** C6 (as amended).  Registering an attribute under an id that is already
    registered never fails.  Within a block, [add_attribute] puts the new
    attribute in the place of the old one.  [add_block] stores the block
    under its block id whatever attribute ids it holds: after the blocks
    there are when the block id is new, and in the place of the block that
    had the block id otherwise.  [_find_attribute_by_id] gives, in both
    cases, the attribute of the first block in that order that holds the
    id: with a new block id, an id that an earlier block holds still gives
    the attribute of the earlier block; with a block id that is there, the
    attributes of the block that is replaced are no longer found.  A dict
    that is filled by going through the attributes of all blocks holds, for
    an id, the value of the last attribute with that id that is not null. *)
Theorem duplicate_id_replaces_or_is_shadowed (b : Block) (a : Attribute)
    (self : STKSimulation) (block : Block) (id : string) :
  let self' := (add_block self block).1 in
  get_attribute (add_attribute b a).1 (attr_id a) = Some a ∧
  dict_get (block_id block) (blocks self') = Some block ∧
  (dict_get (block_id block) (blocks self) = None →
   blocks self' = blocks self ++ [(block_id block, block)] ∧
   find_in_blocks (blocks self') id =
     match find_in_blocks (blocks self) id with
     | Some p => Some p
     | None => (λ a', (block_id block, a')) <$> get_attribute block id
     end) ∧
  (∀ pre old post,
     blocks self = pre ++ (block_id block, old) :: post →
     block_id block ∉ pre.*1 →
     blocks self' = pre ++ (block_id block, block) :: post ∧
     find_in_blocks (blocks self') id =
       match find_in_blocks pre id with
       | Some p => Some p
       | None =>
         match get_attribute block id with
         | Some a' => Some (block_id block, a')
         | None => find_in_blocks post id
         end
       end) ∧
  (∀ bs : dict Block,
     current_values bs !! id =
     value <$> last (filter (λ a', attr_id a' = id ∧ is_Some (value a'))
                            (all_attributes bs))).
Proof.
  cbv zeta. rewrite add_block_blocks. split_and!.
  - unfold get_attribute, add_attribute. simpl. apply dict_get_set_eq.
  - apply dict_get_set_eq.
  - intros Hnew. rewrite dict_set_absent by done. split; [done|].
    rewrite find_in_blocks_app_cases.
    destruct (find_in_blocks (blocks self) id); [done|].
    unfold get_attribute. simpl. by destruct (dict_get id (attributes block)).
  - intros pre old post -> Hpre. rewrite dict_set_present by done.
    split; [done|]. rewrite find_in_blocks_app_cases.
    destruct (find_in_blocks pre id); [done|].
    unfold get_attribute. simpl. by destruct (dict_get id (attributes block)).
  - intros bs. apply current_values_last.
Qed.


(** ** Further properties of the registry and of the nodes *)

Lemma dict_set_keys {A : Type} (k : string) (v : A) (d : dict A) :
  (dict_set k v d).*1 = set_add k d.*1.
Proof.
  induction d as [|[k' v'] d IH].
  { unfold set_add. simpl. done. }
  cbn [dict_set]. destruct (decide (k' = k)) as [->|Hk].
  - rewrite !fmap_cons. simpl. unfold set_add. rewrite decide_True; [done|left].
  - rewrite !fmap_cons, IH. cbn [fst]. unfold set_add.
    destruct (decide (k ∈ d.*1)) as [Hin|Hnin].
    + rewrite decide_True; [done|by right].
    + rewrite decide_False; [done|].
      intros [?|?]%elem_of_cons; congruence.
Qed.

(** *** The temporary graph of the pre-calculation *)

Lemma non_cyclic_inner (cycle_set : gset string) (node : string)
    (ws : list string) (temp : DependencyGraph) :
  wf_graph temp → node ∈ nodes temp → Forall (λ w, w ∈ nodes temp) ws →
  let temp' :=
    fold_left
      (λ temp_graph dependent,
         if decide (node ∈ cycle_set ∧ dependent ∈ cycle_set)
         then temp_graph
         else add_dependency temp_graph dependent node)
      ws temp in
  wf_graph temp' ∧ nodes temp' = nodes temp ∧
  ∀ u v, edge temp' u v ↔
         edge temp u v ∨
         (u = node ∧ v ∈ ws ∧ ¬ (node ∈ cycle_set ∧ v ∈ cycle_set)).
Proof.
  revert temp. induction ws as [|w ws IH]; intros temp Hwf Hnode Hws.
  { cbn [fold_left]. refine (conj _ (conj _ _)); [done..|]. intros u v.
    split; [auto|]. intros [?|(_ & []%elem_of_nil & _)]. done. }
  cbn [fold_left]. cbv zeta. apply Forall_cons in Hws as [Hw Hws].
  destruct (decide (node ∈ cycle_set ∧ w ∈ cycle_set)) as [Hc|Hc].
  - destruct (IH temp Hwf Hnode Hws) as (Hwf' & Hn' & He').
    refine (conj _ (conj _ _)); [done..|]. intros u v. rewrite He', elem_of_cons.
    split; [naive_solver|].
    intros [?|(-> & [->|?] & Hnc)]; [by left|done|by right].
  - assert (nodes (add_dependency temp w node) = nodes temp) as Hn.
    { simpl. rewrite (set_add_elem w) by done. by apply set_add_elem. }
    destruct (IH (add_dependency temp w node)) as (Hwf' & Hn' & He').
    + by apply wf_graph_add_dependency.
    + by rewrite Hn.
    + by rewrite Hn.
    + refine (conj _ (conj _ _)); [done|congruence|]. intros u v.
      rewrite He', edge_add_dependency, elem_of_cons.
      split; [naive_solver|].
      intros [?|(-> & [->|?] & Hnc)]; [by left; left|left; by right|by right].
Qed.

Lemma non_cyclic_outer (g : DependencyGraph) (cycle_set : gset string)
    (ns : list string) (temp : DependencyGraph) :
  wf_graph g → wf_graph temp → nodes temp = nodes g →
  Forall (λ n, n ∈ nodes g) ns →
  let temp' :=
    fold_left
      (λ temp_graph node,
         fold_left
           (λ temp_graph dependent,
              if decide (node ∈ cycle_set ∧ dependent ∈ cycle_set)
              then temp_graph
              else add_dependency temp_graph dependent node)
           (successors g node) temp_graph)
      ns temp in
  wf_graph temp' ∧ nodes temp' = nodes g ∧
  ∀ u v, edge temp' u v ↔
         edge temp u v ∨
         (u ∈ ns ∧ edge g u v ∧ ¬ (u ∈ cycle_set ∧ v ∈ cycle_set)).
Proof.
  intros Hwfg. revert temp.
  induction ns as [|n ns IH]; intros temp Hwf Hnodes Hns.
  { cbn [fold_left]. refine (conj _ (conj _ _)); [done..|]. intros u v.
    split; [auto|]. intros [?|([]%elem_of_nil & _)]. done. }
  cbn [fold_left]. cbv zeta. apply Forall_cons in Hns as [Hn Hns].
  destruct (non_cyclic_inner cycle_set n (successors g n) temp)
    as (Hwf1 & Hn1 & He1); [done|by rewrite Hnodes| |].
  { apply Forall_forall. intros w Hw. rewrite Hnodes.
    by destruct (wf_graph_edge g n w Hwfg Hw). }
  cbv zeta in Hwf1, Hn1, He1.
  destruct (IH _ Hwf1 (eq_trans Hn1 Hnodes) Hns) as (Hwf' & Hn' & He').
  refine (conj _ (conj _ _)); [done..|]. intros u v.
  rewrite He', He1, elem_of_cons. unfold edge.
  split; [naive_solver|].
  intros [?|([->|?] & Huv & Hnc)]; [by left; left|left; by right|by right].
Qed.

(** X7.  The temporary graph of [_calculate_non_cyclic_dependencies] has the
    nodes of the dependency graph and exactly those of its edges that do not
    join two attributes of the cycle. *)
Theorem non_cyclic_graph_edges (g : DependencyGraph) (cycle_set : gset string) :
  wf_graph g →
  wf_graph (non_cyclic_graph g cycle_set) ∧
  nodes (non_cyclic_graph g cycle_set) = nodes g ∧
  ∀ u v, edge (non_cyclic_graph g cycle_set) u v ↔
         edge g u v ∧ ¬ (u ∈ cycle_set ∧ v ∈ cycle_set).
Proof.
  intros Hwf. unfold non_cyclic_graph.
  destruct (non_cyclic_outer g cycle_set (nodes g) (mkGraph (nodes g) ∅ ∅))
    as (Hwf' & Hn' & He'); [done| |done| |].
  { split; [by destruct Hwf|apply map_Forall_empty]. }
  { by apply Forall_forall. }
  refine (conj _ (conj _ _)); [done..|]. intros u v. rewrite He'.
  split.
  - intros [Huv|(_ & ? & ?)]; [|done].
    unfold edge, successors in Huv. simpl in Huv.
    rewrite lookup_total_empty in Huv. by apply elem_of_nil in Huv.
  - intros [Huv Hnc]. right. split_and!; [|done..].
    by destruct (wf_graph_edge g u v Hwf Huv).
Qed.

(** *** Scenario overrides *)

(** X9.  [set_scenario_override] stores the value under the id, in the place
    of an earlier override of that id if there is one, and touches nothing
    else of the simulation. *)
Theorem set_scenario_override_lookup (self : STKSimulation)
    (attribute_id : string) (v : V) :
  let self' := (set_scenario_override self attribute_id v).1 in
  dict_get attribute_id (scenario_overrides self') = Some v ∧
  (∀ k, k ≠ attribute_id →
        dict_get k (scenario_overrides self') =
        dict_get k (scenario_overrides self)) ∧
  (scenario_overrides self').*1 =
    set_add attribute_id (scenario_overrides self).*1 ∧
  blocks self' = blocks self ∧
  dependency_graph self' = dependency_graph self.
Proof.
  simpl. split_and!; [apply dict_get_set_eq| |apply dict_set_keys|done..].
  intros k Hk. by apply dict_get_set_ne.
Qed.

(** *** Defaults for missing dependencies *)

Lemma fill_missing_lookup (missing_deps : list string) (context : context_t)
    (k : string) :
  fill_missing missing_deps context !! k =
  match context !! k with
  | Some v => Some v
  | None => if decide (k ∈ missing_deps) then Some (Some (num_lit 0%Q))
            else None
  end.
Proof.
  unfold fill_missing. revert context.
  induction missing_deps as [|d ds IH]; intros context; cbn [fold_left].
  { destruct (context !! k); [done|].
    rewrite decide_False; [done|apply not_elem_of_nil]. }
  rewrite IH. destruct (decide (d = k)) as [->|Hne].
  - destruct (context !! k) as [v|] eqn:Hk; cbn beta iota;
      rewrite ?lookup_insert_eq, ?Hk; [done|].
    rewrite decide_True; [done|left].
  - assert ((match context !! d with
             | Some _ => context
             | None => <[d := Some (num_lit 0%Q)]> context
             end) !! k = context !! k) as ->.
    { destruct (context !! d); [done|]. by rewrite lookup_insert_ne. }
    destruct (context !! k); [done|].
    destruct (decide (k ∈ ds)) as [Hin|Hnin].
    + rewrite decide_True; [done|by right].
    + rewrite decide_False; [done|].
      intros [?|?]%elem_of_cons; congruence.
Qed.

Lemma context_for_lookup (attr : Attribute) (context : context_t) (k : string) :
  context_for attr context !! k =
  match context !! k with
  | Some v => Some v
  | None => if decide (k ∈ dependencies attr) then Some (Some (num_lit 0%Q))
            else None
  end.
Proof.
  unfold context_for.
  assert (∀ d, d ∈ missing_deps_of attr context ↔
               d ∈ dependencies attr ∧ is_missing context d = true) as Hmiss.
  { intros d. unfold missing_deps_of. rewrite list_elem_of_filter.
    rewrite Is_true_true. tauto. }
  destruct (missing_deps_of attr context) as [|m ms] eqn:Hm.
  - destruct (context !! k) as [v|] eqn:Hk; [done|].
    rewrite decide_False; [done|]. intros Hin.
    apply (not_elem_of_nil k), Hmiss. split; [done|]. unfold is_missing. by rewrite Hk.
  - rewrite fill_missing_lookup.
    destruct (context !! k) as [v|] eqn:Hk; [done|].
    destruct (decide (k ∈ dependencies attr)) as [Hin|Hnin].
    + rewrite decide_True; [done|]. apply Hmiss. split; [done|].
      unfold is_missing. by rewrite Hk.
    + rewrite decide_False; [done|]. intros Hin%Hmiss. tauto.
Qed.

(** X12.  In the acyclic pass, the calculation of a calculated attribute
    receives for each declared dependency the value the context holds for it
    (null included), and 0 when the context has no entry for it; what it
    returns, or the default when it raises, is the attribute's entry of
    [calculated_values]. *)
Theorem missing_dependency_defaults_to_zero (bs : dict Block)
    (calculated_values context : context_t) (log : list log_record)
    (attr_id bk : string) (attr : Attribute) (logic : calculation) :
  find_in_blocks bs attr_id = Some (bk, attr) →
  attribute_type attr = CALCULATED →
  calculation_logic attr = Some logic →
  let deps := dep_values attr (context_for attr context) in
  (∀ dep_id, dep_id ∈ dependencies attr →
     deps !! dep_id = Some (match context !! dep_id with
                            | Some v => v
                            | None => Some (num_lit 0%Q)
                            end)) ∧
  (calculate_step (bs, calculated_values, context, log) attr_id).1.1.2
    !! attr_id =
    Some (Some (match logic deps (metadata attr) with
                | Returns result => result
                | Raises _ => default_value attr_id
                end)).
Proof.
  intros Hfind Htype Hlogic. split.
  - intros dep_id Hdep. rewrite dep_values_lookup, decide_True by done.
    rewrite context_for_lookup, decide_True by done.
    by destruct (context !! dep_id).
  - unfold calculate_step. rewrite Hfind, Htype.
    unfold Attribute_calculate. rewrite Htype, Hlogic.
    destruct (logic _ _) as [result|e]; cbn [fst snd];
      by rewrite lookup_insert_eq.
Qed.

(** *** The pre-calculation leaves the cycle alone *)

Lemma pre_cycle_step_find (cycle_set : gset string)
    (st : dict Block * context_t * list log_record) (id k : string) :
  k ∈ cycle_set →
  find_in_blocks (pre_cycle_step cycle_set st id).1.1 k =
  find_in_blocks st.1.1 k.
Proof.
  intros Hk. destruct st as [[bs ctx] log]. unfold pre_cycle_step.
  case_decide as Hid; [done|].
  destruct (find_in_blocks bs id) as [[bk attr]|]; [|done].
  destruct (attribute_type attr); [done|].
  destruct (calculation_logic attr); [|done].
  destruct (forallb _ _); [|done].
  destruct (Attribute_calculate attr ctx) as [[[r|e] attr'] l]; [|done].
  cbn [fst snd]. apply find_update_found_ne. by intros ->.
Qed.

Lemma pre_cycle_loop_find (cycle_set : gset string) (order : list string)
    (st : dict Block * context_t * list log_record) (k : string) :
  k ∈ cycle_set →
  find_in_blocks (fold_left (pre_cycle_step cycle_set) order st).1.1 k =
  find_in_blocks st.1.1 k.
Proof.
  intros Hk. revert st. induction order as [|id order IH]; intros st; [done|].
  cbn [fold_left]. by rewrite IH, pre_cycle_step_find.
Qed.

(** X13.  [_calculate_non_cyclic_dependencies] never changes an attribute of
    the cycle: each is found afterwards as it was before. *)
Theorem pre_calculation_keeps_cycle (g : DependencyGraph) (bs : dict Block)
    (cycle : list string) (attr_id : string) :
  attr_id ∈ cycle →
  find_in_blocks (calculate_non_cyclic_dependencies g bs cycle).1 attr_id =
  find_in_blocks bs attr_id.
Proof.
  intros Hin. unfold calculate_non_cyclic_dependencies. cbv zeta.
  destruct (topological_sort _) as [order|e]; [|done].
  pose proof (pre_cycle_loop_find (list_to_set cycle) order
                (bs, ∅, [Log INFO "Calculating non-cyclic dependencies first" []])
                attr_id) as Hloop.
  destruct (fold_left _ _ _) as [[bs' ctx'] log']. cbn [fst snd] in *.
  apply Hloop. by apply elem_of_list_to_set.
Qed.

(** *** What a run reports *)

(** The nodes that run before [validate_results]. *)
Definition before_validate (g : DependencyGraph) (bs : dict Block)
    (initial_state : SimulationState)
  : dict Block * SimulationState * list log_record :=
  let n1 := initialize_simulation g bs initial_state in
  let n2 := detect_cycles g n1.1.1 n1.1.2 in
  let n3 :=
    if decide (route_after_cycle_detection n2.1.2 = "resolve_cycles")
    then resolve_cycles g n2.1.1 n2.1.2
    else (n2.1.1, n2.1.2, []) in
  calculate_attributes g n3.1.1 n3.1.2.

Lemma workflow_invoke_validate (g : DependencyGraph) (bs : dict Block)
    (state : SimulationState) :
  (workflow_invoke g bs state).1.1 =
    (validate_results g (before_validate g bs state).1.1
                      (before_validate g bs state).1.2).1.1 ∧
  (workflow_invoke g bs state).1.2 =
    (validate_results g (before_validate g bs state).1.1
                      (before_validate g bs state).1.2).1.2.
Proof. split; reflexivity. Qed.

Lemma length_filter_all {A : Type} (P : A → Prop) `{∀ x, Decision (P x)}
    (l : list A) :
  length (filter P l) = length l ↔ ∀ x, x ∈ l → P x.
Proof.
  split; [|intros Hall; by rewrite filter_all].
  induction l as [|x l IH]; intros Hlen y Hy; [by apply elem_of_nil in Hy|].
  rewrite filter_cons in Hlen. pose proof (length_filter P l) as Hle.
  destruct (decide (P x)) as [Hx|Hx]; simpl in Hlen; [|lia].
  apply elem_of_cons in Hy as [->|Hy]; [done|]. apply IH; [lia|done].
Qed.

(** The ids [validate_results] collects in [failed_calculations]. *)
Definition failed_calculations (cv : context_t) : list string :=
  (filter (λ kv : string * option V, kv.2 = None) (map_to_list cv)).*1.

Lemma failed_calculations_nil (cv : context_t) :
  failed_calculations cv = [] ↔ ∀ k, cv !! k ≠ Some None.
Proof.
  unfold failed_calculations. split.
  - intros Hnil%fmap_nil_inv k Hk.
    apply (filter_nil_not_elem_of _ _ (k, None) Hnil); [done|].
    by apply elem_of_map_to_list.
  - intros Hall. destruct (filter _ _) as [|[k v] l] eqn:Hf; [done|].
    assert ((k, v) ∈ filter (λ kv : string * option V, kv.2 = None)
                            (map_to_list cv)) as Hin by (rewrite Hf; left).
    apply list_elem_of_filter in Hin as [Hv Hin]. simpl in Hv. subst v.
    apply elem_of_map_to_list in Hin. by destruct (Hall k).
Qed.

Lemma successful_all (cv : context_t) :
  length (filter (λ kv : string * option V, is_Some kv.2) (map_to_list cv))
  = size cv ↔ ∀ k, cv !! k ≠ Some None.
Proof.
  rewrite <- length_map_to_list, length_filter_all. split.
  - intros Hall k Hk. apply elem_of_map_to_list in Hk.
    by destruct (Hall _ Hk) as [? [=]].
  - intros Hall [k v] Hkv%elem_of_map_to_list. simpl.
    destruct v; [by eexists|]. by destruct (Hall k).
Qed.

Lemma validate_results_spec (g : DependencyGraph) (bs : dict Block)
    (state : SimulationState) :
  let r := (validate_results g bs state).1.2 in
  calculated_values r = calculated_values state ∧
  metrics r =
    Some (mkMetrics
            (size (calculated_values state))
            (length (filter (λ kv : string * option V, is_Some kv.2)
                            (map_to_list (calculated_values state))))) ∧
  (failed_calculations (calculated_values state) = [] →
   status r = "completed" ∧ error_message r = error_message state) ∧
  (failed_calculations (calculated_values state) ≠ [] →
   status r = "validation_failed" ∧
   error_message r =
     Some (ErrFailedCalculations
             (list_to_set (failed_calculations (calculated_values state))))).
Proof.
  unfold validate_results, failed_calculations. cbv zeta.
  rewrite length_map_to_list.
  destruct ((filter _ _).*1) as [|k ks]; cbn [fst snd]; by split_and!.
Qed.

Lemma elem_of_failed_calculations (cv : context_t) (k : string) :
  k ∈ failed_calculations cv ↔ cv !! k = Some None.
Proof.
  unfold failed_calculations. rewrite list_elem_of_fmap. split.
  - intros ([k' v] & -> & [Hv Hin]%list_elem_of_filter). simpl in *. subst v.
    by apply elem_of_map_to_list.
  - intros Hk. exists (k, None). split; [done|].
    apply list_elem_of_filter. split; [done|]. by apply elem_of_map_to_list.
Qed.

(** X14.  [validate_results] always sets the status, to "completed" or to
    "validation_failed": to "completed" exactly when no entry of
    [calculated_values] is null, which is exactly when the metrics count as
    many successful calculations as attributes; then the error message is
    left as it is, and otherwise it becomes the message that lists the ids
    whose entry is null.  The blocks and [calculated_values] are left as
    they are. *)
Theorem validate_results_status (g : DependencyGraph) (bs : dict Block)
    (state : SimulationState) :
  let r := validate_results g bs state in
  r.1.1 = bs ∧
  calculated_values r.1.2 = calculated_values state ∧
  (status r.1.2 = "completed" ∨ status r.1.2 = "validation_failed") ∧
  (status r.1.2 = "completed" ↔
   ∀ k, calculated_values state !! k ≠ Some None) ∧
  (∃ m, metrics r.1.2 = Some m ∧
        total_attributes m = size (calculated_values state) ∧
        (successful_calculations m ≤ total_attributes m)%nat ∧
        (status r.1.2 = "completed" ↔
         successful_calculations m = total_attributes m)) ∧
  (status r.1.2 = "completed" →
   error_message r.1.2 = error_message state) ∧
  (status r.1.2 ≠ "completed" →
   ∃ ids, error_message r.1.2 = Some (ErrFailedCalculations ids) ∧
          ∀ k, k ∈ ids ↔ calculated_values state !! k = Some None).
Proof.
  cbv zeta.
  destruct (validate_results_spec g bs state) as (Hcv & Hm & Hok & Hfail).
  destruct (validate_results_keeps g bs state) as [Hbs _].
  cbv zeta in Hcv, Hm, Hok, Hfail. rewrite Hm.
  pose proof (failed_calculations_nil (calculated_values state)) as Hnil.
  pose proof (successful_all (calculated_values state)) as Hsucc.
  pose proof (elem_of_failed_calculations (calculated_values state)) as Hmem.
  assert (status (validate_results g bs state).1.2 = "completed" ↔
          failed_calculations (calculated_values state) = []) as Hiff.
  { destruct (failed_calculations (calculated_values state)) as [|k ks].
    - by destruct Hok.
    - destruct Hfail as [-> _]; [done|]. split; intros [=]. }
  split_and!; [done|done| | | | |].
  - destruct (failed_calculations (calculated_values state)) as [|k ks].
    + left. by destruct Hok.
    + right. by destruct Hfail.
  - by rewrite Hiff.
  - eexists. split_and!; [done|done| |].
    + cbn [successful_calculations total_attributes].
      rewrite <- length_map_to_list. apply length_filter.
    + cbn [successful_calculations total_attributes].
      by rewrite Hiff, Hnil, Hsucc.
  - intros Hst. apply Hok. by apply Hiff.
  - intros Hst. destruct Hfail as [_ ->].
    { intros Hf. by apply Hst, Hiff. }
    eexists. split; [done|]. intros k. by rewrite elem_of_list_to_set.
Qed.

Lemma current_values_Some (bs : dict Block) (k : string) (v : option V) :
  current_values bs !! k = Some v → is_Some v.
Proof.
  unfold current_values.
  assert (∀ (l : list Attribute) (m : context_t),
            (∀ v, m !! k = Some v → is_Some v) →
            ∀ v, fold_left (λ context a,
                              match value a with
                              | Some v => <[attr_id a := Some v]> context
                              | None => context
                              end) l m !! k = Some v → is_Some v) as Hfold.
  { induction l as [|a l IH]; intros m Hm; [done|].
    cbn [fold_left]. apply IH. destruct (value a) as [x|]; [|done].
    intros v'. destruct (decide (attr_id a = k)) as [->|Hne].
    - rewrite lookup_insert_eq. intros [= <-]. by eexists.
    - rewrite lookup_insert_ne by done. apply Hm. }
  apply Hfold. intros v'. by rewrite lookup_empty.
Qed.

(** X16.  Once the cycles have been resolved (status "cycles_resolved"),
    the rest of a run cannot fail the validation, whatever happened to the
    calculations during the resolution: [calculate_attributes] reports,
    under the attribute ids, the values the attributes hold that are not
    null, and [validate_results] then sets the status "completed" and leaves
    the blocks and the error message as they are. *)
Theorem resolved_cycles_validate (g : DependencyGraph) (bs : dict Block)
    (state : SimulationState) :
  status state = "cycles_resolved" →
  let n4 := calculate_attributes g bs state in
  let n5 := validate_results g n4.1.1 n4.1.2 in
  n5.1.1 = bs ∧
  status n5.1.2 = "completed" ∧
  error_message n5.1.2 = error_message state ∧
  (∀ k v, calculated_values n5.1.2 !! k = Some v → is_Some v) ∧
  (∀ k, calculated_values n5.1.2 !! k =
        value <$> last (filter (λ a, attr_id a = k ∧ is_Some (value a))
                               (all_attributes bs))).
Proof.
  intros Hstatus. cbv zeta. unfold calculate_attributes.
  rewrite decide_True by done. cbn [fst snd].
  set (state' := with_status "calculated"
                   (with_calculated_values (current_values bs) state)).
  destruct (validate_results_spec g bs state') as (Hcv & _ & Hok & _).
  cbv zeta in Hcv, Hok.
  destruct (validate_results_keeps g bs state') as [Hbs _].
  change (calculated_values state') with (current_values bs) in *.
  change (error_message state') with (error_message state) in *.
  destruct Hok as [Hst Herr].
  { apply failed_calculations_nil. intros k Hk.
    by destruct (current_values_Some bs k None Hk) as [? [=]]. }
  rewrite Hcv. split_and!; [done..| |].
  - apply current_values_Some.
  - intros k. apply current_values_last.
Qed.

(** *** What an acyclic run reports *)

Lemma apply_overrides_is_Some (overrides : dict V)
    (st : dict Block * list log_record) (k : string) :
  is_Some (find_in_blocks (fold_left apply_override overrides st).1 k) ↔
  is_Some (find_in_blocks st.1 k).
Proof.
  revert st. induction overrides as [|o overrides IH]; intros st; [done|].
  cbn [fold_left]. rewrite IH.
  destruct (find_in_blocks st.1 k) as [[bk attr]|] eqn:Hk.
  - rewrite (apply_override_find st o k bk attr Hk). by split; eauto.
  - by rewrite (apply_override_find_None st o k Hk).
Qed.

Lemma acyclic_find_cycles_nil (g : DependencyGraph) :
  acyclic g → find_cycles g = [].
Proof.
  intros Hacyc. destruct (find_cycles g) as [|c cs] eqn:Hc; [done|].
  destruct (find_cycles_cons_cyclic g); [by rewrite Hc|done].
Qed.

Lemma acyclic_run_values (self : STKSimulation) :
  wf_graph (dependency_graph self) → acyclic (dependency_graph self) →
  ∃ order,
    NoDup order ∧ (∀ x, x ∈ order ↔ x ∈ nodes (dependency_graph self)) ∧
    (∀ u v, edge (dependency_graph self) u v → before order u v) ∧
    res_calculated_values (run_simulation self).1.2 =
      (fold_left calculate_step order
         (initialized_blocks self, ∅, ∅,
          [Log INFO "Executing attribute calculations" []])).1.1.2.
Proof.
  intros Hwf Hacyc.
  destruct (run_simulation_acyclic self (acyclic_find_cycles_nil _ Hacyc))
    as [_ Hcv].
  destruct (topological_sort_acyclic _ Hwf Hacyc)
    as (order & Horder & Hnd & Hmem & Hbefore).
  rewrite Horder in Hcv. by exists order.
Qed.

(** X17.  After a run on a model with an acyclic dependency graph all of whose
    nodes are registered attributes, [calculated_values] has an entry for
    every node of the graph, and for nothing else. *)
Theorem acyclic_run_covers_graph (self : STKSimulation) :
  wf_graph (dependency_graph self) → acyclic (dependency_graph self) →
  (∀ n, n ∈ nodes (dependency_graph self) →
        is_Some (find_in_blocks (blocks self) n)) →
  dom (res_calculated_values (run_simulation self).1.2) =
  list_to_set (nodes (dependency_graph self)).
Proof.
  intros Hwf Hacyc Hreg.
  destruct (acyclic_run_values self Hwf Hacyc)
    as (order & Hnd & Hmem & _ & ->).
  apply set_eq. intros k.
  rewrite elem_of_dom, elem_of_list_to_set, <- Hmem. split.
  - intros Hk. destruct (decide (k ∈ order)) as [|Hnk]; [done|].
    rewrite calculate_loop_other in Hk by done. simpl in Hk.
    rewrite lookup_empty in Hk. by destruct Hk.
  - intros Hk. apply calculate_loop_entry; [done..|]. cbn [fst].
    unfold initialized_blocks, initialize_simulation. cbn [fst].
    apply apply_overrides_is_Some. cbn [fst]. apply Hreg. by apply Hmem.
Qed.

(** X18.  After a run on a model with an acyclic dependency graph, the entry
    of an input attribute in [calculated_values] is its override if it has
    one, and else the value it held before the run. *)
Theorem acyclic_run_reports_inputs (self : STKSimulation) (attr_id bk : string)
    (attr : Attribute) :
  wf_graph (dependency_graph self) → acyclic (dependency_graph self) →
  NoDup (scenario_overrides self).*1 →
  attr_id ∈ nodes (dependency_graph self) →
  find_in_blocks (blocks self) attr_id = Some (bk, attr) →
  attribute_type attr = INPUT →
  res_calculated_values (run_simulation self).1.2 !! attr_id =
  Some (match dict_get attr_id (scenario_overrides self) with
        | Some v => Some v
        | None => value attr
        end).
Proof.
  intros Hwf Hacyc Hov Hnode Hfind Htype.
  destruct (acyclic_run_values self Hwf Hacyc)
    as (order & Hnd & Hmem & _ & ->).
  apply Hmem, list_elem_of_split in Hnode as (pre & post & ->).
  apply NoDup_app in Hnd as (_ & _ & [Hpost _]%NoDup_cons).
  rewrite fold_left_app. cbn [fold_left].
  rewrite calculate_loop_other by done.
  pose proof (calculate_loop_sim_input pre
                (initialized_blocks self, ∅, ∅,
                 [Log INFO "Executing attribute calculations" []])) as Hsim.
  destruct (fold_left calculate_step pre _) as [[[bs1 cv1] ctx1] log1].
  cbn [fst snd] in Hsim.
  pose proof (blocks_sim_find _ _ attr_id Hsim) as Hf.
  assert (find_in_blocks (initialized_blocks self) attr_id =
          Some (bk, match dict_get attr_id (scenario_overrides self) with
                    | Some v => set_value (Some v) attr
                    | None => attr
                    end)) as Hinit.
  { unfold initialized_blocks, initialize_simulation. cbn [fst].
    by apply apply_overrides_find. }
  rewrite Hinit in Hf. inversion Hf as [[bk1 a1] p' [_ Ha1] Heq1 Heq2|]; subst.
  cbn [snd] in Ha1. destruct (attr_sim_fields _ _ Ha1) as (_ & Ht1 & _).
  destruct Ha1 as [_ Hv1].
  assert (attribute_type a1 = INPUT) as Ht.
  { rewrite Ht1. by destruct (dict_get attr_id (scenario_overrides self)). }
  unfold calculate_step. rewrite <- Heq1, Ht. cbn [fst snd].
  rewrite lookup_insert_eq, (Hv1 Ht).
  by destruct (dict_get attr_id (scenario_overrides self)).
Qed.

(** *** The values of an acyclic run satisfy the calculations *)

Lemma calculate_step_sync
    (st : dict Block * context_t * context_t * list log_record) (id : string) :
  (∀ k v, st.1.1.2 !! k = Some v → st.1.2 !! k = Some v) →
  ∀ k v, (calculate_step st id).1.1.2 !! k = Some v →
         (calculate_step st id).1.2 !! k = Some v.
Proof.
  destruct st as [[[bs cv] ctx] log]. cbn [fst snd]. intros Hsync k v.
  unfold calculate_step.
  destruct (find_in_blocks bs id) as [[bk attr]|]; [|apply Hsync].
  destruct (attribute_type attr); cbn [fst snd].
  { destruct (decide (id = k)) as [->|Hne].
    - by rewrite !lookup_insert_eq.
    - rewrite !lookup_insert_ne by done. apply Hsync. }
  destruct (Attribute_calculate _ _) as [[[r|e] attr'] l]; cbn [fst snd].
  all: destruct (decide (id = k)) as [->|Hne];
    [by rewrite !lookup_insert_eq|].
  all: rewrite !lookup_insert_ne by done; intros Hk%Hsync.
  all: by rewrite context_for_lookup, Hk.
Qed.

Lemma calculate_loop_sync (order : list string)
    (st : dict Block * context_t * context_t * list log_record) :
  (∀ k v, st.1.1.2 !! k = Some v → st.1.2 !! k = Some v) →
  ∀ k v, (fold_left calculate_step order st).1.1.2 !! k = Some v →
         (fold_left calculate_step order st).1.2 !! k = Some v.
Proof.
  revert st. induction order as [|id order IH]; intros st Hsync; [done|].
  cbn [fold_left]. by apply IH, calculate_step_sync.
Qed.

Lemma calculate_step_calculated
    (bs : dict Block) (cv ctx : context_t) (log : list log_record)
    (id bk : string) (attr : Attribute) (logic : calculation) :
  find_in_blocks bs id = Some (bk, attr) →
  attribute_type attr = CALCULATED →
  calculation_logic attr = Some logic →
  (calculate_step (bs, cv, ctx, log) id).1.1.2 !! id =
  Some (Some (match logic (dep_values attr (context_for attr ctx))
                          (metadata attr) with
              | Returns result => result
              | Raises _ => default_value id
              end)).
Proof.
  intros Hfind Htype Hlogic. unfold calculate_step. rewrite Hfind, Htype.
  unfold Attribute_calculate. rewrite Htype, Hlogic.
  destruct (logic _ _) as [result|e]; cbn [fst snd];
    by rewrite lookup_insert_eq.
Qed.

Lemma before_split (pre post : list string) (u v : string) :
  NoDup (pre ++ v :: post) → before (pre ++ v :: post) u v → u ∈ pre.
Proof.
  intros Hnd (i & j & Hi & Hj & Hlt).
  assert (j = length pre) as ->.
  { apply (NoDup_lookup _ _ _ v Hnd Hj).
    by rewrite lookup_app_r, Nat.sub_diag by lia. }
  rewrite lookup_app_l in Hi by done. by eapply list_elem_of_lookup_2.
Qed.

(** X19.  After a run on a model with an acyclic dependency graph, the entry
    of a calculated attribute whose dependencies are all linked in the graph
    is what its calculation returns on the entries of its dependencies (or
    its default, when the calculation raises on them): the reported values
    satisfy the model's formulas. *)
Theorem acyclic_run_satisfies_calculations (self : STKSimulation)
    (attr_id bk : string) (attr : Attribute) (logic : calculation) :
  wf_graph (dependency_graph self) → acyclic (dependency_graph self) →
  NoDup (scenario_overrides self).*1 →
  (∀ n, n ∈ nodes (dependency_graph self) →
        is_Some (find_in_blocks (blocks self) n)) →
  attr_id ∈ nodes (dependency_graph self) →
  find_in_blocks (blocks self) attr_id = Some (bk, attr) →
  attribute_type attr = CALCULATED →
  calculation_logic attr = Some logic →
  (∀ dep_id, dep_id ∈ dependencies attr →
             edge (dependency_graph self) dep_id attr_id) →
  let cv := res_calculated_values (run_simulation self).1.2 in
  cv !! attr_id =
  Some (Some (match logic (dep_values attr cv) (metadata attr) with
              | Returns result => result
              | Raises _ => default_value attr_id
              end)).
Proof.
  intros Hwf Hacyc Hov Hreg Hnode Hfind Htype Hlogic Hdeps. cbv zeta.
  destruct (acyclic_run_values self Hwf Hacyc)
    as (order & Hnd & Hmem & Hbefore & ->).
  apply Hmem, list_elem_of_split in Hnode as (pre & post & ->).
  assert (∀ dep_id, dep_id ∈ dependencies attr → dep_id ∈ pre) as Hpre.
  { intros dep_id Hdep. eapply before_split; [done|]. by apply Hbefore, Hdeps. }
  pose proof Hnd as Hnd'.
  apply NoDup_app in Hnd' as (Hndpre & Hdisj & [Hpost Hndpost]%NoDup_cons).
  rewrite fold_left_app. cbn [fold_left].
  set (st0 := (initialized_blocks self, ∅, ∅,
               [Log INFO "Executing attribute calculations" []])
              : dict Block * context_t * context_t * list log_record).
  pose proof (calculate_loop_sim_input pre st0) as Hsim.
  pose proof (calculate_loop_sync pre st0) as Hsync.
  assert (∀ dep_id, dep_id ∈ pre →
            is_Some ((fold_left calculate_step pre st0).1.1.2 !! dep_id))
    as Hentry.
  { intros dep_id Hdep. apply calculate_loop_entry; [done..|].
    unfold st0, initialized_blocks, initialize_simulation. cbn [fst].
    apply apply_overrides_is_Some. cbn [fst]. apply Hreg, Hmem.
    apply elem_of_app. by left. }
  assert (find_in_blocks (initialized_blocks self) attr_id =
          Some (bk, match dict_get attr_id (scenario_overrides self) with
                    | Some v => set_value (Some v) attr
                    | None => attr
                    end)) as Hinit.
  { unfold initialized_blocks, initialize_simulation. cbn [fst].
    by apply apply_overrides_find. }
  destruct (fold_left calculate_step pre st0) as [[[bs1 cv1] ctx1] log1].
  cbn [fst snd] in Hsim, Hsync, Hentry.
  specialize (Hsync ltac:(unfold st0; cbn [fst snd]; intros k v;
                          by rewrite lookup_empty)).
  pose proof (blocks_sim_find _ _ attr_id Hsim) as Hf.
  unfold st0 in Hf. cbn [fst] in Hf. rewrite Hinit in Hf.
  inversion Hf as [[bk1 a1] p' [_ Ha1] Heq1 Heq2|]; subst.
  cbn [snd] in Ha1.
  assert (attribute_type a1 = CALCULATED ∧ dependencies a1 = dependencies attr
          ∧ calculation_logic a1 = Some logic ∧ metadata a1 = metadata attr)
    as (Ht1 & Hd1 & Hl1 & Hm1).
  { destruct (attr_sim_fields _ _ Ha1) as (_ & Ht & Hd & Hl & Hm).
    rewrite Ht, Hd, Hl, Hm.
    by destruct (dict_get attr_id (scenario_overrides self)). }
  symmetry in Heq1.
  set (final := fold_left calculate_step post
                  (calculate_step (bs1, cv1, ctx1, log1) attr_id)).
  assert (final.1.1.2 !! attr_id =
          (calculate_step (bs1, cv1, ctx1, log1) attr_id).1.1.2 !! attr_id)
    as Hid by (by apply calculate_loop_other).
  rewrite Hid, (calculate_step_calculated _ _ _ _ _ _ _ _ Heq1 Ht1 Hl1), Hm1.
  assert (dep_values a1 (context_for a1 ctx1) = dep_values attr final.1.1.2)
    as ->; [|done].
  apply map_eq. intros k. rewrite !dep_values_lookup, Hd1.
  destruct (decide (k ∈ dependencies attr)) as [Hk|Hk]; [|done].
  f_equal. rewrite context_for_lookup.
  destruct (Hentry k (Hpre k Hk)) as [v Hv].
  rewrite (Hsync k v Hv).
  assert (final.1.1.2 !! k = Some v) as ->; [|done].
  unfold final. rewrite calculate_loop_other.
  - rewrite calculate_step_other; [done|]. intros <-.
    apply (Hdisj attr_id); [by apply Hpre|left].
  - intros Hkpost. apply (Hdisj k); [by apply Hpre|by right].
Qed.

(** *** The graph [add_block] builds *)

Lemma add_block_nodes (attrs : list Attribute) (g : DependencyGraph) :
  let g1 := fold_left (λ g a, add_node g (attr_id a)) attrs g in
  (built g → built g1) ∧
  (∀ n, n ∈ nodes g1 ↔ n ∈ nodes g ∨ ∃ a, a ∈ attrs ∧ n = attr_id a) ∧
  (∀ u v, edge g1 u v ↔ edge g u v).
Proof.
  revert g. induction attrs as [|a attrs IH]; intros g; cbn [fold_left].
  { split_and!; [done| |done]. intros n. split; [auto|].
    intros [?|(a & []%elem_of_nil & _)]. done. }
  destruct (IH (add_node g (attr_id a))) as (Hb & Hn & He). cbv zeta in *.
  split_and!.
  - intros Hg. apply Hb. by constructor.
  - intros n. rewrite Hn. cbn [add_node nodes]. rewrite elem_of_set_add.
    split.
    + intros [[->|?]|(a' & Ha' & ->)]; [right|by left|right].
      * exists a. split; [left|done].
      * exists a'. split; [by right|done].
    + intros [?|(a' & [->|Ha']%elem_of_cons & ->)]; [by left; right|by left; left|].
      right. by exists a'.
  - intros u v. by rewrite He.
Qed.

Lemma add_block_inner (bs : dict Block) (a : Attribute) (deps : list string)
    (g : DependencyGraph) (log : list log_record) :
  let r :=
    fold_left
      (λ '(g, log) dep_id,
         match find_in_blocks bs dep_id with
         | Some _ => (add_dependency g (attr_id a) dep_id, log)
         | None =>
           (g, log ++ [Log WARNING "Dependency not found for attribute"
                           [LStr dep_id; LStr (attr_id a)]])
         end)
      deps (g, log) in
  (built g → built r.1) ∧
  (∀ n, n ∈ nodes g → n ∈ nodes r.1) ∧
  (∀ u v, edge r.1 u v ↔
          edge g u v ∨
          (v = attr_id a ∧ u ∈ deps ∧ is_Some (find_in_blocks bs u))).
Proof.
  revert g log. induction deps as [|d deps IH]; intros g log; cbn [fold_left].
  { split_and!; [done..|]. intros u v. split; [auto|].
    intros [?|(_ & []%elem_of_nil & _)]. done. }
  destruct (find_in_blocks bs d) as [p|] eqn:Hd.
  - destruct (IH (add_dependency g (attr_id a) d) log) as (Hb & Hn & He).
    cbv zeta in *. split_and!.
    + intros Hg. apply Hb. by constructor.
    + intros n Hin. apply Hn. cbn [add_dependency nodes].
      rewrite !elem_of_set_add. auto.
    + intros u v. rewrite He, edge_add_dependency, elem_of_cons. split.
      * intros [[?|[-> ->]]|(-> & ? & ?)]; [by left|right..].
        -- split_and!; [done|by left|by rewrite Hd].
        -- split_and!; [done|by right|done].
      * intros [?|(-> & [->|?] & ?)]; [by left; left|left; by right|].
        right. by split_and!.
  - destruct (IH g (log ++ [Log WARNING "Dependency not found for attribute"
                                [LStr d; LStr (attr_id a)]]))
      as (Hb & Hn & He).
    cbv zeta in *. split_and!; [done..|].
    intros u v. rewrite He, elem_of_cons. split; [naive_solver|].
    intros [?|(-> & [->|?] & Hsome)]; [by left| |right; by split_and!].
    rewrite Hd in Hsome. by destruct Hsome.
Qed.

Lemma add_block_outer (bs : dict Block) (attrs : list Attribute)
    (g : DependencyGraph) (log : list log_record) :
  let r :=
    fold_left
      (λ '(g, log) a,
         match attribute_type a with
         | CALCULATED =>
           fold_left
             (λ '(g, log) dep_id,
                match find_in_blocks bs dep_id with
                | Some _ => (add_dependency g (attr_id a) dep_id, log)
                | None =>
                  (g, log ++ [Log WARNING "Dependency not found for attribute"
                                  [LStr dep_id; LStr (attr_id a)]])
                end)
             (dependencies a) (g, log)
         | INPUT => (g, log)
         end)
      attrs (g, log) in
  (built g → built r.1) ∧
  (∀ n, n ∈ nodes g → n ∈ nodes r.1) ∧
  (∀ u v, edge r.1 u v ↔
          edge g u v ∨
          ∃ a, a ∈ attrs ∧ attribute_type a = CALCULATED ∧ attr_id a = v ∧
               u ∈ dependencies a ∧ is_Some (find_in_blocks bs u)).
Proof.
  revert g log. induction attrs as [|a attrs IH]; intros g log; cbn [fold_left].
  { split_and!; [done..|]. intros u v. split; [auto|].
    intros [?|(a & []%elem_of_nil & _)]. done. }
  destruct (attribute_type a) eqn:Ht.
  - destruct (IH g log) as (Hb & Hn & He). cbv zeta in *.
    split_and!; [done..|]. intros u v. rewrite He. split.
    + intros [?|(a' & ? & ?)]; [by left|right]. exists a'.
      split; [by right|done].
    + intros [?|(a' & [->|?]%elem_of_cons & Ht' & ?)]; [by left|congruence|].
      right. by exists a'.
  - pose proof (add_block_inner bs a (dependencies a) g log) as Hinner.
    cbv zeta in Hinner.
    destruct (fold_left _ (dependencies a) (g, log)) as [g' log'].
    destruct Hinner as (Hb1 & Hn1 & He1). cbn [fst] in *.
    destruct (IH g' log') as (Hb & Hn & He). cbv zeta in *.
    split_and!; [auto..|]. intros u v. rewrite He, He1. split.
    + intros [[?|(-> & ? & ?)]|(a' & ? & ?)]; [by left|right..].
      * exists a. split_and!; [left|done..].
      * exists a'. split; [by right|done].
    + intros [?|(a' & [->|?]%elem_of_cons & Ht' & <- & ? & ?)];
        [by left; left|left; right; by split_and!|].
      right. exists a'. by split_and!.
Qed.

(** X8.  [add_block] makes every attribute of the block a node, and adds the
    edge from a dependency to a calculated attribute of the block exactly
    when the dependency is declared by the attribute and is registered at
    that moment, in the new block or in an earlier one; a dependency
    registered by a later block is never linked.  The graph stays one built
    by adding nodes and dependencies. *)
Theorem add_block_graph (self : STKSimulation) (block : Block) :
  let self' := (add_block self block).1 in
  (built (dependency_graph self) → built (dependency_graph self')) ∧
  (∀ a, a ∈ dict_values (attributes block) →
        attr_id a ∈ nodes (dependency_graph self')) ∧
  (∀ u v, edge (dependency_graph self') u v ↔
          edge (dependency_graph self) u v ∨
          ∃ a, a ∈ dict_values (attributes block) ∧
               attribute_type a = CALCULATED ∧ attr_id a = v ∧
               u ∈ dependencies a ∧
               is_Some (find_in_blocks (blocks self') u)).
Proof.
  cbv zeta. rewrite add_block_blocks. unfold add_block. cbv zeta.
  destruct (add_block_nodes (dict_values (attributes block))
              (dependency_graph self)) as (Hb1 & Hn1 & He1).
  pose proof (add_block_outer
                (dict_set (block_id block) block (blocks self))
                (dict_values (attributes block))
                (fold_left (λ g a, add_node g (attr_id a))
                   (dict_values (attributes block)) (dependency_graph self))
                []) as Houter.
  cbv zeta in Hb1, Hn1, He1, Houter.
  destruct (fold_left _ (dict_values (attributes block)) (_, [])) as [g2 log].
  destruct Houter as (Hb & Hn & He). cbn [fst dependency_graph] in *.
  split_and!.
  - auto.
  - intros a Ha. apply Hn, Hn1. right. by exists a.
  - intros u v. by rewrite He, He1.
Qed.

(** *** A run changes values only *)

(** The same attribute up to its value, the same blocks up to the values of
    their attributes. *)
Definition attr_shape (a a' : Attribute) : Prop :=
  set_value None a = set_value None a'.

Definition block_shape (b b' : Block) : Prop :=
  block_id b = block_id b' ∧ block_name b = block_name b' ∧
  dict_rel attr_shape (attributes b) (attributes b').

Definition blocks_shape : relation (dict Block) := dict_rel block_shape.

Lemma attr_shape_set_value (v : option V) (a a' : Attribute) :
  attr_shape a a' → attr_shape (set_value v a) a'.
Proof. by destruct a. Qed.

Lemma attr_shape_eq (a a' : Attribute) :
  attr_shape a' a → a' = set_value (value a') a.
Proof. destruct a, a'. unfold attr_shape. simpl. by intros [= -> -> -> -> -> ->]. Qed.

Lemma block_shape_refl (b : Block) : block_shape b b.
Proof. split_and!; [done..|]. by apply dict_rel_refl. Qed.

Lemma block_shape_trans (b1 b2 b3 : Block) :
  block_shape b1 b2 → block_shape b2 b3 → block_shape b1 b3.
Proof.
  intros (? & ? & H12) (? & ? & H23). split_and!; [congruence..|].
  eapply dict_rel_trans; [|done..]. unfold attr_shape. congruence.
Qed.

Lemma blocks_shape_refl (bs : dict Block) : blocks_shape bs bs.
Proof. apply dict_rel_refl, block_shape_refl. Qed.

Lemma blocks_shape_trans (bs1 bs2 bs3 : dict Block) :
  blocks_shape bs1 bs2 → blocks_shape bs2 bs3 → blocks_shape bs1 bs3.
Proof. apply dict_rel_trans, block_shape_trans. Qed.

Lemma blocks_shape_keys (bs bs' : dict Block) :
  blocks_shape bs bs' → bs.*1 = bs'.*1.
Proof.
  induction 1 as [|[k1 b1] [k2 b2] bs bs' [Hk _] _ IH]; [done|].
  rewrite !fmap_cons. simpl in *. congruence.
Qed.

Lemma blocks_shape_find (bs bs' : dict Block) (id : string) :
  blocks_shape bs' bs →
  match find_in_blocks bs id with
  | Some (bk, a) =>
    ∃ v, find_in_blocks bs' id = Some (bk, set_value v a)
  | None => find_in_blocks bs' id = None
  end.
Proof.
  induction 1 as [|[k1 b1] [k2 b2] bs' bs [Hk (_ & _ & Hb)] _ IH]; simpl in *;
    [done|].
  subst k2. destruct (dict_rel_get _ _ _ id Hb) as [a' a Ha|]; [|done].
  exists (value a'). by rewrite <- (attr_shape_eq a a' Ha).
Qed.

Lemma blocks_shape_update_found (f : Attribute → Attribute) (bs : dict Block)
    (id bk : string) (a : Attribute) :
  find_in_blocks bs id = Some (bk, a) → attr_shape (f a) a →
  blocks_shape (update_found f id bs) bs.
Proof.
  induction bs as [|[k b] bs IH]; simpl; [done|].
  destruct (dict_get id (attributes b)) as [a0|] eqn:Hget.
  - intros [= <- ->] Hfa. constructor; [|apply blocks_shape_refl].
    split; [done|]. split_and!; [done..|].
    by eapply dict_rel_update_l.
  - intros Hfind Hfa. constructor; [|by apply IH].
    split; [done|]. apply block_shape_refl.
Qed.

Lemma blocks_shape_update_attribute (f : Attribute → Attribute)
    (bs : dict Block) (bk ak : string) (b : Block) (a : Attribute) :
  dict_get bk bs = Some b → dict_get ak (attributes b) = Some a →
  attr_shape (f a) a →
  blocks_shape (update_attribute f bk ak bs) bs.
Proof.
  intros Hb Ha Hfa. unfold update_attribute, blocks_shape.
  eapply dict_rel_update_l; [apply block_shape_refl|done|].
  split_and!; [done..|]. simpl. by eapply dict_rel_update_l.
Qed.

Lemma Attribute_calculate_shape (a : Attribute) (context : context_t) :
  attr_shape (Attribute_calculate a context).1.2 a.
Proof.
  unfold Attribute_calculate. destruct (attribute_type a); [done|].
  destruct (calculation_logic a) as [logic|]; [|done].
  by destruct (logic _ _).
Qed.

Lemma fold_shape {A S : Type} (proj : S → dict Block) (step : S → A → S)
    (l : list A) (s : S) :
  (∀ s x, blocks_shape (proj (step s x)) (proj s)) →
  blocks_shape (proj (fold_left step l s)) (proj s).
Proof.
  intros Hstep. revert s. induction l as [|x l IH]; intros s; simpl.
  - apply blocks_shape_refl.
  - eapply blocks_shape_trans; [apply IH|apply Hstep].
Qed.

Lemma apply_override_shape (st : dict Block * list log_record)
    (override : string * V) :
  blocks_shape (apply_override st override).1 st.1.
Proof.
  unfold apply_override.
  destruct (find_in_blocks st.1 override.1) as [[bk a]|] eqn:Hfind;
    [|apply blocks_shape_refl].
  cbn [fst]. by eapply blocks_shape_update_found.
Qed.

Lemma pre_cycle_step_shape (cycle_set : gset string)
    (st : dict Block * context_t * list log_record) (id : string) :
  blocks_shape (pre_cycle_step cycle_set st id).1.1 st.1.1.
Proof.
  destruct st as [[bs ctx] log]. unfold pre_cycle_step.
  case_decide; [apply blocks_shape_refl|].
  destruct (find_in_blocks bs id) as [[bk attr]|] eqn:Hfind;
    [|apply blocks_shape_refl].
  destruct (attribute_type attr); [apply blocks_shape_refl|].
  destruct (calculation_logic attr); [|apply blocks_shape_refl].
  destruct (forallb _ _); [|apply blocks_shape_refl].
  pose proof (Attribute_calculate_shape attr ctx) as Hshape.
  destruct (Attribute_calculate attr ctx) as [[[r|e] attr'] l];
    [|apply blocks_shape_refl].
  cbn [fst snd] in *. eapply blocks_shape_update_found; [done|].
  by apply attr_shape_set_value.
Qed.

Lemma seed_step_shape (st : dict Block * list log_record) (id : string) :
  blocks_shape (seed_step st id).1 st.1.
Proof.
  unfold seed_step.
  destruct (find_in_blocks st.1 id) as [[bk a]|] eqn:Hfind;
    [|apply blocks_shape_refl].
  destruct (value a); [apply blocks_shape_refl|].
  cbn [fst]. by eapply blocks_shape_update_found.
Qed.

Lemma cycle_step_shape
    (st : dict Block * dict (list V) * bool * list log_record) (id : string) :
  blocks_shape (cycle_step st id).1.1.1 st.1.1.1.
Proof.
  destruct st as [[[bs vh] conv] log]. unfold cycle_step.
  destruct (find_in_blocks bs id) as [[bk a]|] eqn:Hfind;
    [|apply blocks_shape_refl].
  destruct (calculation_logic a) as [logic|]; [|apply blocks_shape_refl].
  destruct (logic _ _); [|apply blocks_shape_refl].
  cbn [fst]. by eapply blocks_shape_update_found.
Qed.

Lemma stabilize_step_shape (value_history : dict (list V))
    (st : dict Block * list log_record) (id : string) :
  blocks_shape (stabilize_step value_history st id).1 st.1.
Proof.
  unfold stabilize_step.
  destruct (dict_get id value_history); [|apply blocks_shape_refl].
  case_decide; [|apply blocks_shape_refl].
  destruct (find_in_blocks st.1 id) as [[bk a]|] eqn:Hfind;
    [|apply blocks_shape_refl].
  cbn [fst]. by eapply blocks_shape_update_found.
Qed.

Lemma post_cycle_step_shape (st : dict Block * context_t * list log_record)
    (loc : string * string) :
  blocks_shape (post_cycle_step st loc).1.1 st.1.1.
Proof.
  destruct st as [[bs ctx] log]. unfold post_cycle_step.
  destruct (dict_get loc.1 bs) as [b|] eqn:Hb; [|apply blocks_shape_refl].
  cbn [mbind option_bind].
  destruct (dict_get loc.2 (attributes b)) as [attr|] eqn:Ha;
    [|apply blocks_shape_refl].
  destruct (calculation_logic attr); [|apply blocks_shape_refl].
  pose proof (Attribute_calculate_shape attr ctx) as Hshape.
  destruct (Attribute_calculate attr ctx) as [[[r|e] attr'] l];
    [|apply blocks_shape_refl].
  cbn [fst snd] in *. eapply blocks_shape_update_attribute; [done..|].
  by apply attr_shape_set_value.
Qed.

Lemma calculate_step_shape
    (st : dict Block * context_t * context_t * list log_record) (id : string) :
  blocks_shape (calculate_step st id).1.1.1 st.1.1.1.
Proof.
  destruct st as [[[bs cv] ctx] log]. unfold calculate_step.
  destruct (find_in_blocks bs id) as [[bk attr]|] eqn:Hfind;
    [|apply blocks_shape_refl].
  destruct (attribute_type attr); [apply blocks_shape_refl|].
  pose proof (Attribute_calculate_shape attr (context_for attr ctx)) as Hshape.
  destruct (Attribute_calculate attr _) as [[[r|e] attr'] l];
    [|apply blocks_shape_refl].
  cbn [fst snd] in *. by eapply blocks_shape_update_found.
Qed.

Lemma iterate_shape (remaining iteration : nat) (cycle : list string)
    (bs : dict Block) (value_history : dict (list V)) (log : list log_record) :
  blocks_shape (iterate remaining iteration cycle bs value_history log).1 bs.
Proof.
  revert iteration bs value_history log.
  induction remaining as [|remaining IH]; intros iteration bs vh log;
    [apply blocks_shape_refl|].
  cbn [iterate].
  pose proof (fold_shape (λ s : dict Block * dict (list V) * bool
                                 * list log_record, s.1.1.1)
                cycle_step cycle
                (bs, vh, true,
                 log ++ [Log INFO "Iteration for cycle resolution"
                             [LNat (iteration + 1)]])
                cycle_step_shape) as Hround.
  destruct (fold_left cycle_step cycle _) as [[[bs1 vh1] conv] log1].
  cbn [fst snd] in Hround.
  destruct conv; [done|].
  assert (blocks_shape
            (iterate remaining (S iteration) cycle bs1 vh1 log1).1 bs) as Hnext.
  { eapply blocks_shape_trans; [apply IH|done]. }
  case_decide; [|done].
  destruct (detect_oscillation vh1 iteration); [|done].
  cbn [fst]. apply (blocks_shape_trans _ bs1); [|done].
  apply (fold_shape (λ s : dict Block * list log_record, s.1)
           (stabilize_step vh1) cycle (bs1, [])).
  apply stabilize_step_shape.
Qed.

Lemma resolve_cycle_iteratively_shape (g : DependencyGraph) (bs : dict Block)
    (cycle : list string) :
  blocks_shape (resolve_cycle_iteratively g bs cycle).1 bs.
Proof.
  unfold resolve_cycle_iteratively. cbv zeta. cbn [fst].
  assert (blocks_shape (calculate_non_cyclic_dependencies g bs cycle).1 bs)
    as Hpre.
  { unfold calculate_non_cyclic_dependencies. cbv zeta.
    destruct (topological_sort _) as [order|e]; [|apply blocks_shape_refl].
    pose proof (fold_shape (λ s : dict Block * context_t * list log_record,
                              s.1.1)
                  (pre_cycle_step (list_to_set cycle)) order
                  (bs, ∅,
                   [Log INFO "Calculating non-cyclic dependencies first" []])
                  (pre_cycle_step_shape (list_to_set cycle))) as Hloop.
    by destruct (fold_left _ _ _) as [[bs' ctx'] log']. }
  destruct (calculate_non_cyclic_dependencies g bs cycle) as [bs1 log1].
  cbn [fst] in *.
  assert (blocks_shape (seed_cycle bs1 cycle).1 bs1) as Hseed.
  { apply (fold_shape (λ s : dict Block * list log_record, s.1)
             seed_step cycle (bs1, [])), seed_step_shape. }
  destruct (seed_cycle bs1 cycle) as [bs2 log2]. cbn [fst] in *.
  pose proof (iterate_shape max_iterations 0 cycle bs2 [] []) as Hiter.
  destruct (iterate max_iterations 0 cycle bs2 [] []) as [bs3 log3].
  cbn [fst] in *.
  assert (blocks_shape (calculate_post_cycle_dependencies bs3 cycle).1 bs3)
    as Hpost.
  { unfold calculate_post_cycle_dependencies. cbv zeta.
    pose proof (fold_shape (λ s : dict Block * context_t * list log_record,
                              s.1.1)
                  post_cycle_step (dependent_attrs bs3 (list_to_set cycle))
                  (bs3, current_values bs3,
                   [Log INFO "Calculating post-cycle dependencies" []])
                  post_cycle_step_shape) as Hloop.
    by destruct (fold_left _ _ _) as [[bs' ctx'] log']. }
  eauto using blocks_shape_trans.
Qed.

Lemma resolve_cycles_shape (g : DependencyGraph) (bs : dict Block)
    (state : SimulationState) :
  blocks_shape (resolve_cycles g bs state).1.1 bs.
Proof.
  unfold resolve_cycles. cbv zeta. cbn [fst].
  apply (fold_shape (λ s : dict Block * list log_record, s.1)).
  intros s cycle. cbn [fst]. apply resolve_cycle_iteratively_shape.
Qed.

Lemma calculate_attributes_shape (g : DependencyGraph) (bs : dict Block)
    (state : SimulationState) :
  blocks_shape (calculate_attributes g bs state).1.1 bs.
Proof.
  unfold calculate_attributes. cbv zeta.
  case_decide; [apply blocks_shape_refl|].
  destruct (topological_sort g) as [order|e]; [|apply blocks_shape_refl].
  cbn [fst].
  apply (fold_shape (λ s : dict Block * context_t * context_t
                           * list log_record, s.1.1.1)
           calculate_step order), calculate_step_shape.
Qed.

Lemma workflow_invoke_shape (g : DependencyGraph) (bs : dict Block)
    (state : SimulationState) :
  blocks_shape (workflow_invoke g bs state).1.1 bs.
Proof.
  rewrite (proj1 (workflow_invoke_validate g bs state)).
  destruct (validate_results_keeps g (before_validate g bs state).1.1
              (before_validate g bs state).1.2) as [-> _].
  unfold before_validate. cbv zeta.
  assert (blocks_shape (initialize_simulation g bs state).1.1 bs) as H1.
  { unfold initialize_simulation. cbn [fst].
    apply (fold_shape (λ s : dict Block * list log_record, s.1)
             apply_override), apply_override_shape. }
  destruct (initialize_simulation g bs state) as [[bs1 st1] log1].
  cbn [fst snd] in *.
  assert ((detect_cycles g bs1 st1).1.1 = bs1) as H2.
  { unfold detect_cycles. by destruct (find_cycles g). }
  destruct (detect_cycles g bs1 st1) as [[bs2 st2] log2].
  cbn [fst snd] in *. subst bs2.
  eapply blocks_shape_trans; [apply calculate_attributes_shape|].
  case_decide; cbn [fst]; [|done].
  eapply blocks_shape_trans; [apply resolve_cycles_shape|done].
Qed.

(** X20.  A run changes nothing of the simulation but the values of
    attributes: the id, the overrides, the nodes of the graph, the
    successors of every id, [reverse_edges] and the block ids are as
    before, and every attribute is found in the same block with the same
    id, name, kind, dependencies, calculation and metadata. *)
Theorem run_changes_values_only (self : STKSimulation) (id : string) :
  let self' := (run_simulation self).1.1 in
  sim_id self' = sim_id self ∧
  scenario_overrides self' = scenario_overrides self ∧
  nodes (dependency_graph self') = nodes (dependency_graph self) ∧
  (∀ u, successors (dependency_graph self') u =
        successors (dependency_graph self) u) ∧
  reverse_edges (dependency_graph self') =
    reverse_edges (dependency_graph self) ∧
  (blocks self').*1 = (blocks self).*1 ∧
  match find_in_blocks (blocks self) id with
  | Some (bk, a) =>
    ∃ v, find_in_blocks (blocks self') id = Some (bk, set_value v a)
  | None => find_in_blocks (blocks self') id = None
  end.
Proof.
  cbv zeta.
  pose proof (workflow_invoke_shape (dependency_graph self) (blocks self)
                (initial_state_of self)) as Hshape.
  change (blocks (run_simulation self).1.1)
    with (workflow_invoke (dependency_graph self) (blocks self)
            (initial_state_of self)).1.1.
  split_and!; [done..| |].
  - by apply blocks_shape_keys.
  - by apply blocks_shape_find.
Qed.

(** *** The calculation on an acyclic graph *)

(** X15.  On an acyclic dependency graph, [calculate_attributes], when it
    calculates (the status is not "cycles_resolved"), does not take its
    failure branch: it records the topological order as execution order,
    sets the status "calculated" and leaves the error message as it is; so
    after [validate_results] the error message of a state that had none is
    empty exactly when the status is "completed". *)
Theorem acyclic_calculation_never_fails (g : DependencyGraph)
    (bs : dict Block) (state : SimulationState) :
  wf_graph g → acyclic g → status state ≠ "cycles_resolved" →
  let n4 := calculate_attributes g bs state in
  let n5 := validate_results g n4.1.1 n4.1.2 in
  topological_sort g = Returns (execution_order n4.1.2) ∧
  status n4.1.2 = "calculated" ∧
  error_message n4.1.2 = error_message state ∧
  (∀ e, error_message state ≠ Some (ErrException e) →
        error_message n5.1.2 ≠ Some (ErrException e)) ∧
  (error_message state = None →
   (error_message n5.1.2 = None ↔ status n5.1.2 = "completed")).
Proof.
  intros Hwf Hacyc Hstatus. cbv zeta.
  rewrite calculate_attributes_acyclic by done.
  destruct (topological_sort_acyclic g Hwf Hacyc) as (order & -> & _).
  cbn [fst snd].
  set (state4 := with_status "calculated"
                   (with_calculated_values
                      (calculation_pass order bs).1.1.2
                      (with_execution_order order state))).
  destruct (validate_results_spec g (calculation_pass order bs).1.1.1 state4)
    as (_ & _ & Hok & Hfail).
  cbv zeta in Hok, Hfail.
  change (error_message state4) with (error_message state) in *.
  split_and!; [done..| |].
  - intros e He.
    destruct (failed_calculations (calculated_values state4)) as [|k ks].
    + destruct Hok as [_ ->]; done.
    + destruct Hfail as [_ ->]; done.
  - intros Hnone.
    destruct (failed_calculations (calculated_values state4)) as [|k ks].
    + destruct Hok as [-> ->]; done.
    + destruct Hfail as [-> ->]; [done|]. split; intros [=].
Qed.

(** *** Validation *)

(** [Attribute.validate]: the result and the records logged. *)
Definition Attribute_validate (a : Attribute) : bool * list log_record :=
  (true,
   if decide (attribute_type a = CALCULATED ∧ dependencies a = [])
   then [Log WARNING "Calculated attribute has no dependencies"
             [LStr (attr_id a)]]
   else []).

(** The loop of [Block.validate_structure]. *)
Fixpoint validate_attributes (attrs : list Attribute) (log : list log_record)
  : bool * list log_record :=
  match attrs with
  | [] => (true, log)
  | attr :: attrs' =>
    let r := Attribute_validate attr in
    if r.1 then validate_attributes attrs' (log ++ r.2)
    else (false, log ++ r.2)
  end.

Definition validate_structure (b : Block) : bool * list log_record :=
  validate_attributes (dict_values (attributes b)) [].

Definition get_calculated_attributes (b : Block) : list Attribute :=
  filter (λ attr, attribute_type attr = CALCULATED)
         (dict_values (attributes b)).

Lemma validate_attributes_spec (attrs : list Attribute)
    (log : list log_record) :
  validate_attributes attrs log =
  (true,
   log ++ ((λ a, Log WARNING "Calculated attribute has no dependencies"
                     [LStr (attr_id a)])
           <$> filter (λ a, dependencies a = [])
                 (filter (λ a, attribute_type a = CALCULATED) attrs))).
Proof.
  revert log. induction attrs as [|a attrs IH]; intros log.
  { simpl. by rewrite app_nil_r. }
  cbn [validate_attributes]. cbv zeta. cbn [Attribute_validate fst snd].
  rewrite IH, filter_cons.
  destruct (decide (attribute_type a = CALCULATED)) as [Ht|Ht].
  - rewrite filter_cons. destruct (decide (dependencies a = [])) as [Hd|Hd].
    + rewrite decide_True by done. by rewrite fmap_cons, <- app_assoc.
    + rewrite decide_False by tauto. by rewrite app_nil_r.
  - rewrite decide_False by tauto. by rewrite app_nil_r.
Qed.

(** X11.  [validate_structure] accepts every block, one that holds a
    calculated attribute without calculation included; it logs one warning
    for each attribute of [get_calculated_attributes] that declares no
    dependency, in their order. *)
Theorem validate_structure_accepts_all (b : Block) :
  (validate_structure b).1 = true ∧
  (validate_structure b).2 =
    (λ a, Log WARNING "Calculated attribute has no dependencies"
              [LStr (attr_id a)])
    <$> filter (λ a, dependencies a = []) (get_calculated_attributes b).
Proof.
  unfold validate_structure, get_calculated_attributes.
  by rewrite validate_attributes_spec.
Qed.

(** *** Simulations built through the interface *)

(** The simulations a program can hold: a new one, and what [add_block],
    [set_scenario_override] and [run_simulation] make of one. *)
Inductive constructed : STKSimulation → Prop :=
  | constructed_new id : constructed (mkSim id [] [] empty_graph)
  | constructed_add_block self block :
      constructed self → constructed (add_block self block).1
  | constructed_override self attribute_id v :
      constructed self →
      constructed (set_scenario_override self attribute_id v).1
  | constructed_run self :
      constructed self → constructed (run_simulation self).1.1.

(** X10.  Every simulation built through the interface has a dependency graph
    built by adding nodes and dependencies (so its sets have no duplicates,
    its edges join nodes, and [reverse_edges] mirrors [edges]), pairwise
    distinct override ids and pairwise distinct block ids. *)
Theorem constructed_invariant (self : STKSimulation) :
  constructed self →
  built (dependency_graph self) ∧
  wf_graph (dependency_graph self) ∧
  mirrored (dependency_graph self) ∧
  NoDup (scenario_overrides self).*1 ∧
  NoDup (blocks self).*1.
Proof.
  intros Hc.
  assert (built (dependency_graph self) ∧
          NoDup (scenario_overrides self).*1 ∧ NoDup (blocks self).*1)
    as (Hb & Ho & Hk).
  { induction Hc as [id|self block _ (Hb & Ho & Hk)
                     |self id v _ (Hb & Ho & Hk)|self _ (Hb & Ho & Hk)].
    - split_and!; [constructor|constructor..].
    - split_and!.
      + pose proof (add_block_nodes (dict_values (attributes block))
                      (dependency_graph self)) as (Hb1 & _).
        pose proof (add_block_outer
                      (dict_set (block_id block) block (blocks self))
                      (dict_values (attributes block))
                      (fold_left (λ g a, add_node g (attr_id a))
                         (dict_values (attributes block))
                         (dependency_graph self))
                      []) as Houter.
        unfold add_block. cbv zeta in *.
        destruct (fold_left _ (dict_values (attributes block)) (_, []))
          as [g2 log].
        destruct Houter as (Hb2 & _). cbn [fst dependency_graph] in *. auto.
      + unfold add_block. cbv zeta.
        by destruct (fold_left _ (dict_values (attributes block)) (_, [])).
      + rewrite add_block_blocks, dict_set_keys. by apply NoDup_set_add.
    - split_and!; [done| |done].
      simpl. rewrite dict_set_keys. by apply NoDup_set_add.
    - split_and!; [done..|].
      change (blocks (run_simulation self).1.1)
        with (workflow_invoke (dependency_graph self) (blocks self)
                (initial_state_of self)).1.1.
      by rewrite (blocks_shape_keys _ _ (workflow_invoke_shape _ _ _)). }
  split_and!; [done| | |done..].
  - by apply built_wf.
  - by apply built_mirrored.
Qed.
End engine.

(** ** The claims about the dependency graph *)

(** C1.  On the graph of a model: when it is acyclic, [topological_sort]
    returns an order that holds every node exactly once and puts [u] before
    [v] for every forward edge [u → v]; when it contains a cycle,
    [topological_sort] fails with the error that carries the cycles, which
    are the non-empty list [find_cycles] returns. *)
Theorem topological_sort_correct (g : DependencyGraph) :
  wf_graph g →
  (acyclic g →
   ∃ order, topological_sort g = Returns order ∧
            NoDup order ∧
            (∀ x, x ∈ order ↔ x ∈ nodes g) ∧
            (∀ u v, edge g u v → before order u v)) ∧
  ((∃ x, tc (edge g) x x) →
   topological_sort g = Raises (CyclesDetected (find_cycles g)) ∧
   find_cycles g ≠ [] ∧
   Forall (genuine_cycle g) (find_cycles g)).
Proof.
  intros Hwf. split.
  - by apply topological_sort_acyclic.
  - by apply topological_sort_cyclic.
Qed.

(** C3.  On the graph of a model, [find_cycles] returns a non-empty list
    exactly when the graph is not a DAG, and every cycle it returns is
    genuine: consecutive elements are joined by forward edges and the last
    element is the first. *)
Theorem find_cycles_correct (g : DependencyGraph) :
  wf_graph g →
  (find_cycles g ≠ [] ↔ ¬ acyclic g) ∧
  (∀ c, c ∈ find_cycles g →
        (2 ≤ length c)%nat ∧ consecutive g c ∧ head c = last c).
Proof.
  intros Hwf. split.
  - split; [apply find_cycles_cons_cyclic|].
    intros Hcyc Hnil. by apply Hcyc, find_cycles_nil_acyclic.
  - apply find_cycles_genuine.
Qed.

(** ** The models of [test_basic_simulation.py], over exact rationals *)

Local Open Scope Q_scope.

Definition input_attribute (id : string) (v : Q) : @Attribute Q :=
  mkAttribute id id INPUT (Some v) [] None ∅.

Definition calculated_attribute (id : string) (deps : list string)
    (logic : @calculation Q) : @Attribute Q :=
  mkAttribute id id CALCULATED None deps (Some logic) ∅.

(** [deps.get(k, d)]: [None] when the key is there with the value [None]. *)
Definition get_or (deps : gmap string (option Q)) (k : string) (d : Q)
  : option Q :=
  match deps !! k with
  | Some v => v
  | None => Some d
  end.

(** An arithmetic expression over values of which one may be [None]. *)
Definition arith1 (f : Q → Q) (x : option Q) : try Q :=
  match x with
  | Some x => Returns (Qred (f x))
  | None => Raises CalculationError
  end.

Definition arith2 (f : Q → Q → Q) (x y : option Q) : try Q :=
  match x, y with
  | Some x, Some y => Returns (Qred (f x y))
  | _, _ => Raises CalculationError
  end.

Definition new_simulation (id : string) : @STKSimulation Q :=
  mkSim id [] [] empty_graph.

Definition block_of (id name : string) (attrs : list (@Attribute Q))
  : @Block Q :=
  fold_left (λ b a, (add_attribute b a).1) attrs (mkBlock id name []).

(** [test_simple_simulation]: [output_c = input_a + input_b]. *)
Definition output_c : @Attribute Q :=
  calculated_attribute "output_c" ["input_a"; "input_b"]
    (λ deps _, arith2 Qplus (get_or deps "input_a" 0) (get_or deps "input_b" 0)).

Definition test_block : @Block Q :=
  block_of "test_001" "Test Block"
    [input_attribute "input_a" 10; input_attribute "input_b" 20; output_c].

Definition simple_sim : @STKSimulation Q :=
  (add_block (new_simulation "test_simple") test_block).1.

(** [test_cycle_simulation]: [attr_a = attr_b * 1.1], [attr_b = attr_a * 0.9]. *)
Definition attr_a : @Attribute Q :=
  calculated_attribute "attr_a" ["attr_b"]
    (λ deps _, arith1 (λ b, b * (11 # 10)) (get_or deps "attr_b" 50)).

Definition attr_b : @Attribute Q :=
  calculated_attribute "attr_b" ["attr_a"]
    (λ deps _, arith1 (λ a, a * (9 # 10)) (get_or deps "attr_a" 100)).

Definition cycle_sim : @STKSimulation Q :=
  (add_block (new_simulation "test_cycle")
             (block_of "cycle_001" "Cycle Test Block" [attr_a; attr_b])).1.

(** The same model when the set of nodes enumerates [attr_b] first. *)
Definition cycle_sim_rev : @STKSimulation Q :=
  (add_block (new_simulation "test_cycle")
             (block_of "cycle_001" "Cycle Test Block" [attr_b; attr_a])).1.

(** A chain in which one calculation raises: [profit_margin] divides by a
    quantity that is zero, [report] doubles [profit_margin]. *)
Definition profit_margin : @Attribute Q :=
  calculated_attribute "profit_margin" ["unit_cost"]
    (λ deps _, Raises CalculationError).

Definition report : @Attribute Q :=
  calculated_attribute "report" ["profit_margin"]
    (λ deps _, arith1 (λ m, m * 2) (get_or deps "profit_margin" 0)).

Definition failing_sim : @STKSimulation Q :=
  (add_block (new_simulation "failing")
             (block_of "blk" "Block"
                [input_attribute "unit_cost" 10; profit_margin; report])).1.

(** The same chain, with the id of the failing attribute in mixed case. *)
Definition profit_margin_caps : @Attribute Q :=
  calculated_attribute "Profit_MARGIN" ["unit_cost"]
    (λ deps _, Raises CalculationError).

Definition report_caps : @Attribute Q :=
  calculated_attribute "report" ["Profit_MARGIN"]
    (λ deps _, arith1 (λ m, m * 2) (get_or deps "Profit_MARGIN" 0)).

Definition failing_sim_caps : @STKSimulation Q :=
  (add_block (new_simulation "failing")
             (block_of "blk" "Block"
                [input_attribute "unit_cost" 10; profit_margin_caps;
                 report_caps])).1.



(** A cycle in which [a] flips between two values and the calculation of [b]
    returns 7.123 the first time and raises afterwards. *)
Definition osc_a : @Attribute Q :=
  calculated_attribute "a" ["b"]
    (λ deps _, arith1 (λ a, 100 - a) (get_or deps "a" 0)).

Definition osc_b : @Attribute Q :=
  calculated_attribute "b" ["a"]
    (λ deps _, match get_or deps "b" 0 with
               | Some b => if Qeq_bool b 100 then Returns (7123 # 1000)
                           else Raises CalculationError
               | None => Raises CalculationError
               end).

Definition osc_sim : @STKSimulation Q :=
  (add_block (new_simulation "osc") (block_of "blk" "Block" [osc_a; osc_b])).1.

Definition osc_sim_rev : @STKSimulation Q :=
  (add_block (new_simulation "osc") (block_of "blk" "Block" [osc_b; osc_a])).1.

(** One round of the iteration, from the blocks and the history of [st]. *)
Definition cycle_round (cycle : list string)
    (st : dict (@Block Q) * dict (list Q) * bool * list (@log_record Q))
  : dict (@Block Q) * dict (list Q) * bool * list (@log_record Q) :=
  fold_left cycle_step cycle (st.1.1.1, st.1.1.2, true, []).

Ltac by_computation := apply (bool_decide_unpack _); vm_compute; exact I.

Ltac ascii_only_id := cbn [ascii_only]; repeat split; vm_compute; lia.

(** Case-insensitive containment, or its negation, for an ASCII id and a
    needle without upper-case letters, settled by running the test. *)
Ltac by_containment_test :=
  lazymatch goal with
  | |- contains_ignoring_case ?needle ?id =>
    apply (contains_lower_spec needle id);
    [ascii_only_id|no_upper_case_needle|vm_compute; reflexivity]
  | |- ¬ contains_ignoring_case ?needle ?id =>
    let Hc := fresh in
    intros Hc; apply (contains_lower_spec needle id) in Hc;
    [vm_compute in Hc; discriminate Hc|ascii_only_id|no_upper_case_needle]
  end.

Lemma simple_sim_wf : wf_graph (dependency_graph simple_sim).
Proof. by_computation. Qed.

Lemma simple_sim_acyclic : acyclic (dependency_graph simple_sim).
Proof.
  apply find_cycles_nil_acyclic; [apply simple_sim_wf|].
  vm_compute. reflexivity.
Qed.

Lemma cycle_sim_wf : wf_graph (dependency_graph cycle_sim).
Proof. by_computation. Qed.

Lemma cycle_sim_closed_walk :
  ∃ x, tc (edge (dependency_graph cycle_sim)) x x.
Proof.
  exists "attr_a". apply tc_l with "attr_b"; [|apply tc_once];
    unfold edge; by_computation.
Qed.

(** ** The claims at concrete models *)

Lemma topological_sort_correct_witness :
  (∃ order, topological_sort (dependency_graph simple_sim) = Returns order ∧
            NoDup order ∧
            (∀ x, x ∈ order ↔ x ∈ nodes (dependency_graph simple_sim)) ∧
            (∀ u v, edge (dependency_graph simple_sim) u v → before order u v)) ∧
  (topological_sort (dependency_graph cycle_sim) =
     Raises (CyclesDetected (find_cycles (dependency_graph cycle_sim))) ∧
   find_cycles (dependency_graph cycle_sim) ≠ [] ∧
   Forall (genuine_cycle (dependency_graph cycle_sim))
          (find_cycles (dependency_graph cycle_sim))).
Proof.
  split.
  - apply (topological_sort_correct (dependency_graph simple_sim)).
    + by_computation.
    + apply find_cycles_nil_acyclic; [by_computation|].
      vm_compute. reflexivity.
  - apply (topological_sort_correct (dependency_graph cycle_sim)).
    + by_computation.
    + exists "attr_a". apply tc_l with "attr_b"; [|apply tc_once];
        unfold edge; by_computation.
Defined.

Lemma find_cycles_correct_witness :
  (find_cycles (dependency_graph cycle_sim) ≠ [] ↔
   ¬ acyclic (dependency_graph cycle_sim)) ∧
  (∀ c, c ∈ find_cycles (dependency_graph cycle_sim) →
        (2 ≤ length c)%nat ∧ consecutive (dependency_graph cycle_sim) c ∧
        head c = last c).
Proof.
  apply (find_cycles_correct (dependency_graph cycle_sim)). by_computation.
Defined.

(** The cycle found in the model of [test_cycle_simulation]. *)
Example find_cycles_cycle_sim :
  find_cycles (dependency_graph cycle_sim) = [["attr_a"; "attr_b"; "attr_a"]] ∧
  find_cycles (dependency_graph cycle_sim_rev) =
    [["attr_b"; "attr_a"; "attr_b"]].
Proof. split; vm_compute; reflexivity. Qed.



(** The state of the loop of [_resolve_cycle_iteratively] on [osc_sim] when
    round 4 begins, and after that round. *)
Definition osc_cycle : list string := ["a"; "b"; "a"].

Definition osc_seeded : dict (@Block Q) :=
  (seed_cycle
     (calculate_non_cyclic_dependencies (dependency_graph osc_sim)
        (blocks osc_sim) osc_cycle).1
     osc_cycle).1.

Definition osc_round4 :=
  cycle_round osc_cycle
    (cycle_round osc_cycle
       (cycle_round osc_cycle
          (cycle_round osc_cycle (osc_seeded, [], true, [])))).

Definition osc_round5 :=
  fold_left cycle_step osc_cycle
    (osc_round4.1.1.1, osc_round4.1.1.2, true,
     [] ++ [Log INFO "Iteration for cycle resolution" [LNat (4 + 1)]]).

(** C4, the claim as stated, fails: in the cycle of [osc_sim] oscillation is
    declared in round 4, [b] has the single history entry 7.123, and [b]
    keeps 7.123 where the claim has round(mean([7.123]), 2) = 7.12.  The
    same holds when the cycle is found as [b; a; b]. *)
Lemma stabilization_skips_short_history :
  find_cycles (dependency_graph osc_sim) = [osc_cycle] ∧
  osc_round5.1.2 = false ∧
  detect_oscillation osc_round5.1.1.2 4 = true ∧
  dict_get "b" osc_round5.1.1.2 = Some [7123 # 1000] ∧
  (iterate max_iterations 0 osc_cycle osc_seeded [] []).1 =
    (stabilize_oscillating_values osc_round5.1.1.1 osc_cycle
                                  osc_round5.1.1.2).1 ∧
  (value ∘ snd) <$>
    find_in_blocks (resolve_cycle_iteratively (dependency_graph osc_sim)
                      (blocks osc_sim) osc_cycle).1 "b"
    = Some (Some (7123 # 1000)) ∧
  stabilized_value [7123 # 1000] = 178 # 25 ∧
  find_cycles (dependency_graph osc_sim_rev) = [["b"; "a"; "b"]] ∧
  res_calculated_values (run_simulation osc_sim_rev).1.2 !! "b"
    = Some (Some (7123 # 1000)).
Proof. vm_compute. repeat split; reflexivity. Qed.

Lemma oscillation_detected_and_stabilized_witness :
  (iterate 6 4 osc_cycle osc_round4.1.1.1 osc_round4.1.1.2 []).1 =
    (stabilize_oscillating_values osc_round5.1.1.1 osc_cycle
                                  osc_round5.1.1.2).1 ∧
  (value ∘ snd) <$>
    find_in_blocks (stabilize_oscillating_values osc_round5.1.1.1 osc_cycle
                                                 osc_round5.1.1.2).1 "a"
    = Some (Some 50).
Proof.
  destruct (oscillation_detected_and_stabilized 5 4 osc_cycle
              osc_round4.1.1.1 osc_round5.1.1.1
              osc_round4.1.1.2 osc_round5.1.1.2 [] osc_round5.2
              "a" "blk" (set_value (Some 100) osc_a))
    as (_ & Hstop & _).
  - vm_compute. reflexivity.
  - vm_compute. reflexivity.
  - by_computation.
  - destruct Hstop as [Hiter Hfind]; [vm_compute; reflexivity|].
    split; [exact Hiter|]. rewrite Hfind. vm_compute. reflexivity.
Defined.

(** C5: in the model of [test_cycle_simulation] one cycle is detected, and
    the record of the run has [cycles_resolved = 0]. *)
Lemma cycles_resolved_is_zero :
  length (find_cycles (dependency_graph cycle_sim)) = 1%nat ∧
  res_status (run_simulation cycle_sim).1.2 = "completed" ∧
  res_cycles_resolved (run_simulation cycle_sim).1.2 = 0%nat.
Proof. vm_compute. repeat split; reflexivity. Qed.

(** C6, the claim as stated, fails: a second attribute with the id [x] takes
    the place of the first in a block, and two blocks that both hold an [x]
    are both registered, lookups giving the [x] of the first block. *)
Lemma duplicate_registration_succeeds :
  let first := input_attribute "x" 1 in
  let second := input_attribute "x" 2 in
  let b := (add_attribute (add_attribute (mkBlock "b" "B" []) first).1
                          second).1 in
  let sim := (add_block
                (add_block (new_simulation "s") (block_of "b1" "B1" [first])).1
                (block_of "b2" "B2" [second])).1 in
  attributes b = [("x", second)] ∧
  get_attribute b "x" = Some second ∧
  (blocks sim).*1 = ["b1"; "b2"] ∧
  (dict_get "b2" (blocks sim) ≫= λ b2, get_attribute b2 "x") = Some second ∧
  find_attribute_by_id sim "x" = Some first.
Proof. vm_compute. repeat split; reflexivity. Qed.

Lemma duplicate_id_replaces_or_is_shadowed_witness :
  let other := block_of "other" "Other" [input_attribute "input_a" 99] in
  let again := block_of "test_001" "Again" [input_attribute "input_z" 1] in
  get_attribute (add_attribute test_block (input_attribute "input_a" 7)).1
                "input_a" = Some (input_attribute "input_a" 7) ∧
  dict_get "other" (blocks (add_block simple_sim other).1) = Some other ∧
  find_in_blocks (blocks (add_block simple_sim other).1) "input_a" =
    Some ("test_001", input_attribute "input_a" 10) ∧
  (blocks (add_block simple_sim again).1).*1 = ["test_001"] ∧
  find_in_blocks (blocks (add_block simple_sim again).1) "input_a" = None.
Proof.
  intros other again.
  pose proof (duplicate_id_replaces_or_is_shadowed test_block
                (input_attribute "input_a" 7) simple_sim other "input_a")
    as Hother.
  pose proof (duplicate_id_replaces_or_is_shadowed test_block
                (input_attribute "input_a" 7) simple_sim again "input_a")
    as Hagain.
  cbv zeta in Hother, Hagain.
  destruct Hother as (Hreplace & Hblock & Hnew & _).
  destruct Hagain as (_ & _ & _ & Hold & _).
  destruct Hnew as [_ Hfind]; [vm_compute; reflexivity|].
  destruct (Hold [] test_block []) as [Hblocks Hfind'];
    [vm_compute; reflexivity|apply not_elem_of_nil|].
  split_and!.
  - exact Hreplace.
  - exact Hblock.
  - rewrite Hfind. vm_compute. reflexivity.
  - rewrite Hblocks. reflexivity.
  - rewrite Hfind'. vm_compute. reflexivity.
Defined.

Lemma calculation_failure_uses_default_witness :
  let r := calculate_attributes (dependency_graph failing_sim_caps)
             (blocks failing_sim_caps) (initial_state_of failing_sim_caps) in
  calculated_values r.1.2 !! "Profit_MARGIN" = Some (Some 20) ∧
  calculated_values r.1.2 !! "report" = Some (Some 40) ∧
  status r.1.2 = "calculated".
Proof.
  intros r.
  destruct (calculation_failure_uses_default
              (dependency_graph failing_sim_caps)
              (blocks failing_sim_caps) (initial_state_of failing_sim_caps)
              ["unit_cost"] ["report"] "Profit_MARGIN" "blk"
              profit_margin_caps CalculationError)
    as (_ & _ & Hcv & _ & _ & Hstatus & Htable).
  - by_computation.
  - vm_compute. reflexivity.
  - by_computation.
  - vm_compute. reflexivity.
  - reflexivity.
  - vm_compute. reflexivity.
  - destruct Htable as (_ & _ & Hmargin & _); [ascii_only_id|].
    assert (default_value (V:=Q) "Profit_MARGIN" = 20) as Hdefault
      by (apply Hmargin; by_containment_test).
    split_and!; [|vm_compute; reflexivity|exact Hstatus].
    unfold r. rewrite Hcv, Hdefault. reflexivity.
Defined.


(** C9, the claim as stated, fails: the second run of the model of
    [test_cycle_simulation] starts from the values the first run left and
    ends on other values, whichever attribute the cycle is entered at. *)
Lemma cyclic_runs_differ :
  res_calculated_values (run_simulation cycle_sim).1.2 !! "attr_a"
    = Some (Some (107811 # 1000)) ∧
  res_calculated_values
    (run_simulation (run_simulation cycle_sim).1.1).1.2 !! "attr_a"
    = Some (Some (10673289 # 100000)) ∧
  res_calculated_values (run_simulation cycle_sim_rev).1.2 !! "attr_a"
    = Some (Some (9801 # 100)) ∧
  res_calculated_values
    (run_simulation (run_simulation cycle_sim_rev).1.1).1.2 !! "attr_a"
    = Some (Some (970299 # 10000)) ∧
  res_calculated_values (run_simulation cycle_sim).1.2 ≠
    res_calculated_values (run_simulation (run_simulation cycle_sim).1.1).1.2.
Proof.
  split_and!; try (vm_compute; reflexivity).
  intros Heq. apply (f_equal (λ m, m !! "attr_a")) in Heq.
  vm_compute in Heq. discriminate Heq.
Qed.

Lemma acyclic_runs_repeat_witness :
  let self := (set_scenario_override simple_sim "input_a" 7).1 in
  res_calculated_values (run_simulation self).1.2 =
  res_calculated_values (run_simulation (run_simulation self).1.1).1.2.
Proof.
  intros self. apply (acyclic_runs_repeat self).
  - apply find_cycles_nil_acyclic; [by_computation|].
    vm_compute. reflexivity.
  - by_computation.
Defined.

Lemma calculate_passes_declared_dependencies_witness :
  dom (dep_values output_c {["input_a" := Some 10]}) =
    list_to_set ["input_a"; "input_b"] ∧
  dep_values output_c {["input_a" := Some 10]} !! "input_b" = Some None.
Proof.
  destruct (calculate_passes_declared_dependencies output_c
              {["input_a" := Some 10]}
              (λ deps _, arith2 Qplus (get_or deps "input_a" 0)
                                      (get_or deps "input_b" 0)))
    as (_ & Hdom & _ & Hnull); [reflexivity..|].
  split; [exact Hdom|]. apply Hnull; [by_computation|vm_compute; reflexivity].
Defined.

(** ** The further properties at concrete models *)

Lemma built_graph_invariant_witness :
  let g := add_dependency
             (add_dependency (add_node empty_graph "attr_a") "attr_b" "attr_a")
             "attr_a" "attr_b" in
  wf_graph g ∧ mirrored g.
Proof. intros g. apply (built_graph_invariant g). repeat constructor. Defined.

Lemma add_dependency_sortable_iff_witness :
  ¬ ∃ order,
      topological_sort
        (add_dependency (add_dependency empty_graph "attr_b" "attr_a")
                        "attr_a" "attr_b") = Returns order.
Proof.
  intros Horder.
  apply (add_dependency_sortable_iff
           (add_dependency empty_graph "attr_b" "attr_a") "attr_a" "attr_b")
    in Horder.
  - apply Horder, rtc_once. unfold edge. by_computation.
  - by_computation.
  - apply find_cycles_nil_acyclic; [by_computation|]. vm_compute. reflexivity.
Defined.

Lemma topological_sort_raises_only_cycles_witness :
  CyclesDetected [["attr_a"; "attr_b"; "attr_a"]] =
    CyclesDetected (find_cycles (dependency_graph cycle_sim)) ∧
  find_cycles (dependency_graph cycle_sim) ≠ [].
Proof.
  destruct (topological_sort_raises_only_cycles (dependency_graph cycle_sim)
              (CyclesDetected [["attr_a"; "attr_b"; "attr_a"]]))
    as (He & Hne & _); [apply cycle_sim_wf|vm_compute; reflexivity|].
  by split.
Defined.

Lemma find_cycles_simple_witness :
  simple_cycle ["attr_a"; "attr_b"; "attr_a"].
Proof.
  apply (find_cycles_simple (dependency_graph cycle_sim)).
  assert (find_cycles (dependency_graph cycle_sim) =
          [["attr_a"; "attr_b"; "attr_a"]]) as -> by (vm_compute; reflexivity).
  left.
Defined.

Lemma non_cyclic_graph_edges_witness :
  let g := dependency_graph cycle_sim in
  let cycle_set : gset string := list_to_set ["attr_a"; "attr_b"; "attr_a"] in
  wf_graph (non_cyclic_graph g cycle_set) ∧
  nodes (non_cyclic_graph g cycle_set) = nodes g ∧
  ∀ u v, edge (non_cyclic_graph g cycle_set) u v ↔
         edge g u v ∧ ¬ (u ∈ cycle_set ∧ v ∈ cycle_set).
Proof.
  intros g cycle_set. apply (non_cyclic_graph_edges g cycle_set).
  apply cycle_sim_wf.
Defined.

Lemma constructed_invariant_witness :
  let self :=
    (run_simulation (set_scenario_override simple_sim "input_a" 7).1).1.1 in
  built (dependency_graph self) ∧
  wf_graph (dependency_graph self) ∧
  mirrored (dependency_graph self) ∧
  NoDup (scenario_overrides self).*1 ∧
  NoDup (blocks self).*1.
Proof.
  intros self. apply (constructed_invariant self).
  apply constructed_run, constructed_override.
  apply (constructed_add_block (new_simulation "test_simple") test_block).
  apply (constructed_new "test_simple").
Defined.

Lemma missing_dependency_defaults_to_zero_witness :
  (calculate_step (blocks simple_sim, ∅, {["input_a" := Some 10]}, [])
                  "output_c").1.1.2 !! "output_c" = Some (Some 10).
Proof.
  destruct (missing_dependency_defaults_to_zero (blocks simple_sim) ∅
              {["input_a" := Some 10]} [] "output_c" "test_001" output_c
              (λ deps _, arith2 Qplus (get_or deps "input_a" 0)
                                      (get_or deps "input_b" 0)))
    as [_ Hentry]; [vm_compute; reflexivity|reflexivity..|].
  etrans; [exact Hentry|]. vm_compute. reflexivity.
Defined.

Lemma pre_calculation_keeps_cycle_witness :
  find_in_blocks
    (calculate_non_cyclic_dependencies (dependency_graph cycle_sim)
       (blocks cycle_sim) ["attr_a"; "attr_b"; "attr_a"]).1 "attr_a" =
  find_in_blocks (blocks cycle_sim) "attr_a".
Proof.
  apply (pre_calculation_keeps_cycle (dependency_graph cycle_sim)
           (blocks cycle_sim) ["attr_a"; "attr_b"; "attr_a"] "attr_a").
  by_computation.
Defined.

Lemma acyclic_calculation_never_fails_witness :
  let n4 := calculate_attributes (dependency_graph failing_sim)
              (blocks failing_sim) (initial_state_of failing_sim) in
  topological_sort (dependency_graph failing_sim) =
    Returns (execution_order n4.1.2) ∧
  status n4.1.2 = "calculated" ∧
  error_message n4.1.2 = None.
Proof.
  intros n4.
  destruct (acyclic_calculation_never_fails (dependency_graph failing_sim)
              (blocks failing_sim) (initial_state_of failing_sim))
    as (Horder & Hstatus & Herr & _).
  - by_computation.
  - apply find_cycles_nil_acyclic; [by_computation|]. vm_compute. reflexivity.
  - by_computation.
  - split_and!; [exact Horder|exact Hstatus|exact Herr].
Defined.

Lemma resolved_cycles_validate_witness :
  let g := dependency_graph cycle_sim in
  let n3 := resolve_cycles g (blocks cycle_sim)
              (detect_cycles g (blocks cycle_sim)
                 (initial_state_of cycle_sim)).1.2 in
  let n4 := calculate_attributes g n3.1.1 n3.1.2 in
  let n5 := validate_results g n4.1.1 n4.1.2 in
  n5.1.1 = n3.1.1 ∧ status n5.1.2 = "completed" ∧ error_message n5.1.2 = None.
Proof.
  intros g n3 n4 n5.
  destruct (resolved_cycles_validate g n3.1.1 n3.1.2)
    as (Hbs & Hstatus & Herr & _); [reflexivity|].
  split_and!; [exact Hbs|exact Hstatus|exact Herr].
Defined.

Lemma acyclic_run_covers_graph_witness :
  dom (res_calculated_values (run_simulation simple_sim).1.2) =
  list_to_set (nodes (dependency_graph simple_sim)).
Proof.
  apply (acyclic_run_covers_graph simple_sim);
    [apply simple_sim_wf|apply simple_sim_acyclic|].
  apply Forall_forall. by_computation.
Defined.

Lemma acyclic_run_reports_inputs_witness :
  res_calculated_values
    (run_simulation (set_scenario_override simple_sim "input_a" 7).1).1.2
    !! "input_a" = Some (Some 7).
Proof.
  etrans.
  - apply (acyclic_run_reports_inputs
             (set_scenario_override simple_sim "input_a" 7).1
             "input_a" "test_001" (input_attribute "input_a" 10)).
    + apply simple_sim_wf.
    + apply simple_sim_acyclic.
    + by_computation.
    + by_computation.
    + vm_compute. reflexivity.
    + reflexivity.
  - vm_compute. reflexivity.
Defined.

Lemma acyclic_run_satisfies_calculations_witness :
  res_calculated_values (run_simulation simple_sim).1.2 !! "output_c" =
  Some (Some 30).
Proof.
  etrans.
  - apply (acyclic_run_satisfies_calculations simple_sim "output_c" "test_001"
             output_c
             (λ deps _, arith2 Qplus (get_or deps "input_a" 0)
                                     (get_or deps "input_b" 0))).
    + apply simple_sim_wf.
    + apply simple_sim_acyclic.
    + by_computation.
    + apply Forall_forall. by_computation.
    + by_computation.
    + vm_compute. reflexivity.
    + reflexivity.
    + reflexivity.
    + intros dep_id Hdep. unfold edge.
      apply elem_of_cons in Hdep as [->|Hdep]; [by_computation|].
      apply elem_of_cons in Hdep as [->|Hdep]; [by_computation|].
      by apply elem_of_nil in Hdep.
  - vm_compute. reflexivity.
Defined.
